(** * Trajectory optimisation for a six-axis arm: model and properties

    Shallow embedding of [TrajectoryPlannerV1_0.py] (and of its copy under
    [prueba/]).  The planner builds a nonlinear program with CasADi's [Opti]
    stack and hands it to an external solver.

    Conventions of the embedding:
    - Python floats and CasADi symbolic scalars are real numbers ([R]);
      the rounding of binary64 arithmetic is not modelled, so nothing
      here speaks about floating tolerances: tolerances that appear are
      those of the solver, as a bound [eps] on constraint violation.
    - Python integers are [Z]; [range(n)] is the list [0; ...; n-1].
    - A numeric matrix is a list of rows, as [vertcat] of [horzcat]s reads.
    - A symbolic expression over the decision variable [q] is the function
      that evaluates it under a valuation of [q].
    - The [Opti] object is threaded explicitly; the solver call and the
      console output are events of a small program tree. *)

From Stdlib Require Import String Reals Lra Lia ZArith List.
Import ListNotations.

Local Open Scope R_scope.

(* ================================================================== *)
(** * The part of CasADi and NumPy the planner uses *)
(* ================================================================== *)

Module Casadi.

Definition matrix := list (list R).

(** [range(n)] for a Python integer [n]; empty when [n <= 0]. *)
Definition range (n : Z) : list Z := map Z.of_nat (seq 0 (Z.to_nat n)).

(** [enumerate(xs)]. *)
Definition enumerate {X : Type} (xs : list X) : list (Z * X) :=
  combine (range (Z.of_nat (length xs))) xs.

(** [ca.horzcat] of scalars is one row; [ca.vertcat] stacks rows. *)
Definition horzcat (xs : list R) : list R := xs.
Definition vertcat (rows : list (list R)) : matrix := rows.

Definition ncols (M : matrix) : nat := length (hd [] M).
Definition nrows (M : matrix) : nat := length M.

Definition sum (xs : list R) : R := fold_right Rplus 0 xs.

Definition dot (u w : list R) : R :=
  sum (map (fun p => fst p * snd p) (combine u w)).

Definition column (j : nat) (M : matrix) : list R :=
  map (fun r => nth j r 0) M.

(** [ca.mtimes]. *)
Definition mtimes (A B : matrix) : matrix :=
  map (fun r => map (fun j => dot r (column j B)) (seq 0 (ncols B))) A.

(** [ca.MX.eye(n)]. *)
Definition eye (n : nat) : matrix :=
  map (fun i => map (fun j => if Nat.eqb i j then 1 else 0) (seq 0 n))
      (seq 0 n).

(** [T[r0:r1, c]]: rows [r0 .. r1-1] of column [c]. *)
Definition slice_rows_of_col (M : matrix) (r0 r1 c : nat) : list R :=
  column c (firstn (r1 - r0) (skipn r0 M)).

(** [M[:, 1:]] and [M[:, :-1]]. *)
Definition cols_from_1 (M : matrix) : matrix := map (skipn 1) M.
Definition cols_but_last (M : matrix) : matrix := map (@removelast R) M.

(** Entrywise difference of two matrices of one shape. *)
Definition msub (A B : matrix) : matrix :=
  map (fun p => map (fun e => fst e - snd e) (combine (fst p) (snd p)))
      (combine A B).

(** [ca.sumsqr]: the sum of the squares of all entries. *)
Definition sumsqr (M : matrix) : R :=
  sum (map (fun r => sum (map (fun x => x * x) r)) M).

(** [ca.fmax]. *)
Definition fmax (x y : R) : R := Rmax x y.

(** [x**2]. *)
Definition sq (x : R) : R := x * x.

(** [np.radians] and [np.rad2deg], entrywise on vectors and matrices. *)
Definition radians1 (x : R) : R := x * (PI / 180).
Definition rad2deg1 (x : R) : R := x * (180 / PI).
Definition radians (wp : list R) : list R := map radians1 wp.
Definition rad2deg (M : matrix) : matrix := map (map rad2deg1) M.

(** ** The decision variable and symbolic expressions over it *)

(** A valuation gives the value of entry [(j, k)] of the decision
    variable. *)
Definition valuation := nat -> nat -> R.

(** [opti.variable(r, c)]: a symbolic matrix of the given shape. *)
Record MXvar := { mx_rows : nat; mx_cols : Z }.

(** The matrix of values of a variable under a valuation: what [q]
    stands for inside an expression.  What [sol.value(q)] hands back to
    Python is [sol_value] below. *)
Definition value_of (v : valuation) (q : MXvar) : matrix :=
  map (fun j => map (fun k => v j k) (seq 0 (Z.to_nat (mx_cols q))))
      (seq 0 (mx_rows q)).

(** Symbolic matrices, vectors and scalars. *)
Definition MX := valuation -> matrix.
Definition MXvec := valuation -> list R.
Definition MXscalar := valuation -> R.

Definition sym (q : MXvar) : MX := fun v => value_of v q.

(** A Python index into a sequence of [n] items: a negative index counts
    from the end. *)
Definition py_index (n : nat) (k : Z) : nat :=
  Z.to_nat (if (k <? 0)%Z then k + Z.of_nat n else k).

(** [M[j, :]] and [M[:, k]] on a numeric matrix.  CasADi rejects an index
    that lies outside the matrix; the rejection is not modelled, and such
    a row reads as empty, such a column as zeros. *)
Definition row_at (j : nat) (M : matrix) : list R := nth j M [].
Definition col_at (k : Z) (M : matrix) : list R :=
  column (py_index (ncols M) k) M.

(** ** Constraints and the [Opti] object *)

Inductive constraint : Type :=
| Bounded (lo : R) (e : MXvec) (hi : R)   (* opti.bounded(lo, e, hi) *)
| EqVec (e : MXvec) (rhs : list R)        (* e == rhs *)
| Ge (e : MXscalar) (rhs : R).            (* e >= rhs *)

Record Opti := {
  variables : list MXvar;
  objective : option MXscalar;
  constraints : list constraint;
  solver_name : option string
}.

(** [ca.Opti()]. *)
Definition Opti_new : Opti :=
  {| variables := []; objective := None; constraints := [];
     solver_name := None |}.

Definition opti_variable (o : Opti) (r : nat) (c : Z) : Opti * MXvar :=
  let q := {| mx_rows := r; mx_cols := c |} in
  ({| variables := variables o ++ [q]; objective := objective o;
      constraints := constraints o; solver_name := solver_name o |}, q).

(** [opti.minimize(f)] replaces the objective. *)
Definition opti_minimize (o : Opti) (f : MXscalar) : Opti :=
  {| variables := variables o; objective := Some f;
     constraints := constraints o; solver_name := solver_name o |}.

(** [opti.subject_to(c)] appends one constraint. *)
Definition opti_subject_to (o : Opti) (c : constraint) : Opti :=
  {| variables := variables o; objective := objective o;
     constraints := constraints o ++ [c]; solver_name := solver_name o |}.

Definition opti_solver (o : Opti) (name : string) : Opti :=
  {| variables := variables o; objective := objective o;
     constraints := constraints o; solver_name := Some name |}.

(** A constraint holds under a valuation up to a tolerance [eps]
    ([eps = 0] is exact satisfaction). *)
Definition holds (eps : R) (v : valuation) (c : constraint) : Prop :=
  match c with
  | Bounded lo e hi => Forall (fun x => lo - eps <= x <= hi + eps) (e v)
  | EqVec e rhs => Forall2 (fun x y => Rabs (x - y) <= eps) (e v) rhs
  | Ge e rhs => e v >= rhs - eps
  end.

Definition feasible (eps : R) (o : Opti) (v : valuation) : Prop :=
  Forall (holds eps v) (constraints o).

(** ** Effects: the solver call, exceptions and console output *)

Record py_exception := { exc_class : string; exc_message : string }.

(** What the backend answers to [opti.solve()]. *)
Variant solver_reply : Type :=
| Solution (v : valuation)
| SolverError (e : py_exception).

(** Lines written by [print].  The header follows a blank line; the
    entries of a waypoint line are shown rounded to two decimals, which
    the model leaves to the reader of the log. *)
Variant log_line : Type :=
| Header (s : string)
| WaypointLine (i : Z) (col : list R).

Inductive prog (A : Type) : Type :=
| Ret (a : A)
| Raise (e : py_exception)
| CallSolve (o : Opti) (k : solver_reply -> prog A)
| Print (l : log_line) (k : prog A).

Arguments Ret {A} a.
Arguments Raise {A} e.
Arguments CallSolve {A} o k.
Arguments Print {A} l k.

Fixpoint bind {A B : Type} (p : prog A) (f : A -> prog B) : prog B :=
  match p with
  | Ret a => f a
  | Raise e => Raise e
  | CallSolve o k => CallSolve o (fun r => bind (k r) f)
  | Print l k => Print l (bind k f)
  end.

(** [opti.solve()]: one call to the backend; its exception, if any, is
    raised to the caller. *)
Definition opti_solve (o : Opti) : prog valuation :=
  CallSolve o (fun r =>
    match r with
    | Solution v => Ret v
    | SolverError e => Raise e
    end).

Definition print (l : log_line) : prog unit := Print l (Ret tt).

(** A [for] loop whose body only has effects. *)
Fixpoint for_each {X : Type} (xs : list X) (body : X -> prog unit)
  : prog unit :=
  match xs with
  | [] => Ret tt
  | x :: rest => bind (body x) (fun _ => for_each rest body)
  end.

(** Running a program against a backend: the console log, the number of
    solver calls, and the result or the exception. *)
Fixpoint run {A : Type} (backend : Opti -> solver_reply) (p : prog A)
  : list log_line * nat * (A + py_exception) :=
  match p with
  | Ret a => ([], 0%nat, inl a)
  | Raise e => ([], 0%nat, inr e)
  | CallSolve o k =>
      let '(log, n, r) := run backend (k (backend o)) in (log, S n, r)
  | Print l k =>
      let '(log, n, r) := run backend k in (l :: log, n, r)
  end.

Definition outcome {A : Type} (x : list log_line * nat * (A + py_exception))
  : A + py_exception := snd x.
Definition solver_calls {A : Type}
  (x : list log_line * nat * (A + py_exception)) : nat := snd (fst x).
Definition console {A : Type}
  (x : list log_line * nat * (A + py_exception)) : list log_line :=
  fst (fst x).

(** ** The values handed back to NumPy *)

(** [sol.value(q)] is a number for a 1x1 variable, a one-dimensional
    array for a variable with one row or one column, and a
    two-dimensional array otherwise. *)
Variant ndarray : Type :=
| Array0 (x : R)
| Array1 (xs : list R)
| Array2 (M : matrix).

Definition sol_value (sol : valuation) (q : MXvar) : ndarray :=
  let M := value_of sol q in
  if (Nat.eqb (mx_rows q) 1 && Z.eqb (mx_cols q) 1)%bool then
    Array0 (sol 0%nat 0%nat)
  else if Z.eqb (mx_cols q) 1 then Array1 (column 0 M)
  else if Nat.eqb (mx_rows q) 1 then Array1 (hd [] M)
  else Array2 M.

(** [np.rad2deg] keeps the shape of its argument. *)
Definition np_rad2deg (a : ndarray) : ndarray :=
  match a with
  | Array0 x => Array0 (rad2deg1 x)
  | Array1 xs => Array1 (map rad2deg1 xs)
  | Array2 M => Array2 (rad2deg M)
  end.

(** The [IndexError]s of NumPy indexing; the message of the last one,
    which names the index and the size, is abbreviated. *)
Definition invalid_scalar_index : py_exception :=
  {| exc_class := "IndexError";
     exc_message := "invalid index to scalar variable." |}.
Definition too_many_indices : py_exception :=
  {| exc_class := "IndexError";
     exc_message := "too many indices for array: array is 1-dimensional, but 2 were indexed" |}.
Definition index_out_of_bounds : py_exception :=
  {| exc_class := "IndexError";
     exc_message := "index is out of bounds for axis 1" |}.

(** [a[:, i]]: a column of a two-dimensional array; every other shape,
    and an index outside the columns, raises. *)
Definition np_column (a : ndarray) (i : Z) : prog (list R) :=
  match a with
  | Array0 _ => Raise invalid_scalar_index
  | Array1 _ => Raise too_many_indices
  | Array2 M =>
      if andb (- Z.of_nat (ncols M) <=? i)%Z (i <? Z.of_nat (ncols M))%Z
      then Ret (col_at i M)
      else Raise index_out_of_bounds
  end.

End Casadi.

(** An obstacle is the tuple [(xmin, xmax, ymin, ymax, zmin, zmax)]. *)
Definition obstacle : Type := R * R * R * R * R * R.

(* ================================================================== *)
(** * src/TrajectoryPlannerV1_0.py: kinematics *)
(* ================================================================== *)

Module Planner.
Import Casadi.

Definition dh_transform (theta d a alpha : R) : matrix :=
  vertcat
    [ horzcat [cos theta; - sin theta * cos alpha; sin theta * sin alpha; a * cos theta];
      horzcat [sin theta; cos theta * cos alpha; - cos theta * sin alpha; a * sin theta];
      horzcat [0; sin alpha; cos alpha; d];
      horzcat [0; 0; 0; 1] ].

Definition tcp_offset : matrix :=
  vertcat
    [ horzcat [1; 0; 0; 0];
      horzcat [0; 1; 0; 0];
      horzcat [0; 0; 1; 0.200];
      horzcat [0; 0; 0; 1] ].

Definition fk_d : list R := [0.1273; 0; 0; 0.1639; 0.1157; 0.0922].
Definition fk_a : list R := [0; -0.612; -0.5723; 0; 0; 0].
Definition fk_alpha : list R := [PI / 2; 0; 0; PI / 2; - PI / 2; 0].

(** The composite transform before the translation part is read off. *)
Definition fk_transform (q : list R) : matrix :=
  let T :=
    fold_left
      (fun T i =>
         mtimes T (dh_transform (nth i q 0) (nth i fk_d 0)
                                (nth i fk_a 0) (nth i fk_alpha 0)))
      (seq 0 6) (eye 4) in
  mtimes T tcp_offset.

(** [forward_kinematics(q)]; [q] is a column of six joint angles (the
    only shape the planner passes in).  [fk_d], [fk_a] and [fk_alpha] are
    the function's local lists [d], [a] and [alpha]. *)
Definition forward_kinematics (q : list R) : list R :=
  slice_rows_of_col (fk_transform q) 0 3 3.


(** The clearance expression [outside_dist_sq] that the loop body of
    [setup_optimization] forms for one end-effector position and one box:
    [dx**2 + dy**2 + dz**2]. *)
Definition outside_dist_sq (ee_pos : list R) (box : obstacle) : R :=
  let x := nth 0 ee_pos 0 in
  let y := nth 1 ee_pos 0 in
  let z := nth 2 ee_pos 0 in
  let '(xmin, xmax, ymin, ymax, zmin, zmax) := box in
  let dx := fmax (xmin - x) 0 + fmax (x - xmax) 0 in
  let dy := fmax (ymin - y) 0 + fmax (y - ymax) 0 in
  let dz := fmax (zmin - z) 0 + fmax (z - zmax) 0 in
  sq dx + sq dy + sq dz.

(** [setup_optimization].  The request always carries six limit pairs; a
    missing pair, on which Python raises, reads as [(0, 0)]. *)
Definition setup_optimization (waypoints : list (list R))
    (steps_between_waypoints : Z) (joint_limits : list (R * R))
    (obstacles : list obstacle) (d_min : R) : Opti * MXvar * Z :=
  let N := ((Z.of_nat (length waypoints) - 1) * steps_between_waypoints + 1)%Z in
  let opti := Opti_new in
  let '(opti, q) := opti_variable opti 6 N in
  (* Minimize joint velocity squared *)
  let dq : MX := fun v => msub (cols_from_1 (sym q v)) (cols_but_last (sym q v)) in
  let opti := opti_minimize opti (fun v => sumsqr (dq v)) in
  (* Joint limits *)
  let opti :=
    fold_left
      (fun opti j =>
         opti_subject_to opti
           (Bounded (fst (nth j joint_limits (0, 0)))
                    (fun v => row_at j (sym q v))
                    (snd (nth j joint_limits (0, 0)))))
      (seq 0 6) opti in
  (* Waypoint constraints *)
  let opti :=
    fold_left
      (fun opti iwp =>
         let idx := (fst iwp * steps_between_waypoints)%Z in
         opti_subject_to opti (EqVec (fun v => col_at idx (sym q v)) (snd iwp)))
      (enumerate waypoints) opti in
  (* Obstacle avoidance *)
  let opti :=
    fold_left
      (fun opti k =>
         let ee_pos : MXvec := fun v => forward_kinematics (col_at k (sym q v)) in
         fold_left
           (fun opti box =>
              opti_subject_to opti
                (Ge (fun v => outside_dist_sq (ee_pos v) box) (sq d_min)))
           obstacles opti)
      (range N) opti in
  (opti, q, N).

Definition solve_and_print_trajectory (opti : Opti) (q : MXvar) (N : Z)
  : prog ndarray :=
  let opti := opti_solver opti "ipopt" in
  bind (opti_solve opti) (fun sol =>
  let optimized_q := sol_value sol q in
  let optimized_q_deg := np_rad2deg optimized_q in
  bind (print (Header " Optimized Joint Trajectory (Degrees):")) (fun _ =>
  bind (for_each (range N)
          (fun i =>
             bind (np_column optimized_q_deg i) (fun col =>
             print (WaypointLine (i + 1) col))))
       (fun _ =>
  Ret optimized_q_deg))).

Definition optimize_from_waypoints_deg (waypoints_deg : list (list R))
  : prog ndarray :=
  let waypoints_rad := map radians waypoints_deg in
  let steps_between_waypoints := 3%Z in
  let joint_limits := repeat (- PI, PI) 6 in
  let obstacles := [(-0.095, 0.115, -0.76, -0.70, 0.125, 0.325)] in
  let d_min := 0.05 in
  let '(opti, q, N) :=
    setup_optimization waypoints_rad steps_between_waypoints joint_limits
                       obstacles d_min in
  solve_and_print_trajectory opti q N.

End Planner.

(* ================================================================== *)
(** * src/prueba/TrajectoryPlannerV1_0.py: the second copy *)
(* ================================================================== *)

Module Prueba.
Import Casadi.

Definition dh_transform (theta d a alpha : R) : matrix :=
  vertcat
    [ horzcat [cos theta; - sin theta * cos alpha; sin theta * sin alpha; a * cos theta];
      horzcat [sin theta; cos theta * cos alpha; - cos theta * sin alpha; a * sin theta];
      horzcat [0; sin alpha; cos alpha; d];
      horzcat [0; 0; 0; 1] ].

Definition tcp_offset : matrix :=
  vertcat
    [ horzcat [1; 0; 0; 0];
      horzcat [0; 1; 0; 0];
      horzcat [0; 0; 1; 0.200];
      horzcat [0; 0; 0; 1] ].

Definition fk_d : list R := [0.1273; 0; 0; 0.1639; 0.1157; 0.0922].
Definition fk_a : list R := [0; -0.612; -0.5723; 0; 0; 0].
Definition fk_alpha : list R := [PI / 2; 0; 0; PI / 2; - PI / 2; 0].

(** The composite transform of the copy. *)
Definition fk_transform (q : list R) : matrix :=
  let T :=
    fold_left
      (fun T i =>
         mtimes T (dh_transform (nth i q 0) (nth i fk_d 0)
                                (nth i fk_a 0) (nth i fk_alpha 0)))
      (seq 0 6) (eye 4) in
  mtimes T tcp_offset.

Definition forward_kinematics (q : list R) : list R :=
  slice_rows_of_col (fk_transform q) 0 3 3.


Definition outside_dist_sq (ee_pos : list R) (box : obstacle) : R :=
  let x := nth 0 ee_pos 0 in
  let y := nth 1 ee_pos 0 in
  let z := nth 2 ee_pos 0 in
  let '(xmin, xmax, ymin, ymax, zmin, zmax) := box in
  let dx := fmax (xmin - x) 0 + fmax (x - xmax) 0 in
  let dy := fmax (ymin - y) 0 + fmax (y - ymax) 0 in
  let dz := fmax (zmin - z) 0 + fmax (z - zmax) 0 in
  sq dx + sq dy + sq dz.

Definition setup_optimization (waypoints : list (list R))
    (steps_between_waypoints : Z) (joint_limits : list (R * R))
    (obstacles : list obstacle) (d_min : R) : Opti * MXvar * Z :=
  let N := ((Z.of_nat (length waypoints) - 1) * steps_between_waypoints + 1)%Z in
  let opti := Opti_new in
  let '(opti, q) := opti_variable opti 6 N in
  let dq : MX := fun v => msub (cols_from_1 (sym q v)) (cols_but_last (sym q v)) in
  let opti := opti_minimize opti (fun v => sumsqr (dq v)) in
  let opti :=
    fold_left
      (fun opti j =>
         opti_subject_to opti
           (Bounded (fst (nth j joint_limits (0, 0)))
                    (fun v => row_at j (sym q v))
                    (snd (nth j joint_limits (0, 0)))))
      (seq 0 6) opti in
  let opti :=
    fold_left
      (fun opti iwp =>
         let idx := (fst iwp * steps_between_waypoints)%Z in
         opti_subject_to opti (EqVec (fun v => col_at idx (sym q v)) (snd iwp)))
      (enumerate waypoints) opti in
  let opti :=
    fold_left
      (fun opti k =>
         let ee_pos : MXvec := fun v => forward_kinematics (col_at k (sym q v)) in
         fold_left
           (fun opti box =>
              opti_subject_to opti
                (Ge (fun v => outside_dist_sq (ee_pos v) box) (sq d_min)))
           obstacles opti)
      (range N) opti in
  (opti, q, N).

Definition solve_and_print_trajectory (opti : Opti) (q : MXvar) (N : Z)
  : prog ndarray :=
  let opti := opti_solver opti "ipopt" in
  bind (opti_solve opti) (fun sol =>
  let optimized_q := sol_value sol q in
  let optimized_q_deg := np_rad2deg optimized_q in
  bind (print (Header " Optimized Joint Trajectory (Degrees):")) (fun _ =>
  bind (for_each (range N)
          (fun i =>
             bind (np_column optimized_q_deg i) (fun col =>
             print (WaypointLine (i + 1) col))))
       (fun _ =>
  Ret optimized_q_deg))).

Definition optimize_from_waypoints_deg (waypoints_deg : list (list R))
  : prog ndarray :=
  let waypoints_rad := map radians waypoints_deg in
  let steps_between_waypoints := 3%Z in
  let joint_limits := repeat (- PI, PI) 6 in
  let obstacles := [(-0.095, 0.115, -0.76, -0.70, 0.125, 0.325)] in
  let d_min := 0.05 in
  let '(opti, q, N) :=
    setup_optimization waypoints_rad steps_between_waypoints joint_limits
                       obstacles d_min in
  solve_and_print_trajectory opti q N.

End Prueba.

(* ================================================================== *)
(** * The specification's wording, for comparison with the code *)
(* ================================================================== *)

Module Spec.
Import Casadi.

(** The four elementary transforms of the Denavit-Hartenberg convention. *)
Definition Rz (theta : R) : matrix :=
  [ [cos theta; - sin theta; 0; 0];
    [sin theta; cos theta; 0; 0];
    [0; 0; 1; 0];
    [0; 0; 0; 1] ].

Definition Tz (d : R) : matrix :=
  [ [1; 0; 0; 0]; [0; 1; 0; 0]; [0; 0; 1; d]; [0; 0; 0; 1] ].

Definition Tx (a : R) : matrix :=
  [ [1; 0; 0; a]; [0; 1; 0; 0]; [0; 0; 1; 0]; [0; 0; 0; 1] ].

Definition Rx (alpha : R) : matrix :=
  [ [1; 0; 0; 0];
    [0; cos alpha; - sin alpha; 0];
    [0; sin alpha; cos alpha; 0];
    [0; 0; 0; 1] ].

(** [T_i = Rz(theta_i) . Tz(d_i) . Tx(a_i) . Rx(alpha_i)]. *)
Definition dh_product (theta d a alpha : R) : matrix :=
  mtimes (mtimes (mtimes (Rz theta) (Tz d)) (Tx a)) (Rx alpha).

(** The link transform of joint [i] of the arm. *)
Definition link (q : list R) (i : nat) : matrix :=
  dh_product (nth i q 0) (nth i Planner.fk_d 0) (nth i Planner.fk_a 0)
             (nth i Planner.fk_alpha 0).

(** The translation component of a homogeneous transform. *)
Definition translation (T : matrix) : list R :=
  [nth 3 (nth 0 T []) 0; nth 3 (nth 1 T []) 0; nth 3 (nth 2 T []) 0].

(** The chain read with each link transform multiplied on the LEFT of the
    accumulated transform, in joint order, then the offset on the right:
    [(T6 . T5 . T4 . T3 . T2 . T1 . I) . TCP]. *)
Definition fk_left_multiplied (q : list R) : list R :=
  let T := fold_left (fun T i => mtimes (link q i) T) (seq 0 6) (eye 4) in
  translation (mtimes T (Tz 0.200)).

(** The chain with each link transform multiplied on the RIGHT of the
    accumulated transform: [I . T1 . T2 . T3 . T4 . T5 . T6 . TCP]. *)
Definition fk_right_multiplied (q : list R) : list R :=
  let T := fold_left (fun T i => mtimes T (link q i)) (seq 0 6) (eye 4) in
  translation (mtimes T (Tz 0.200)).

(** [||q[:,k+1] - q[:,k]||^2] for a valuation of the 6 x n variable. *)
Definition step_norm_sq (v : valuation) (k : nat) : R :=
  sum (map (fun j => (v j (S k) - v j k) * (v j (S k) - v j k)) (seq 0 6)).

(** [sum_k ||q[:,k+1] - q[:,k]||^2] over the consecutive column pairs of
    a matrix of [n] columns. *)
Definition smoothness (n : nat) (v : valuation) : R :=
  sum (map (step_norm_sq v) (seq 0 (n - 1))).

(** The per-axis outside distance [max(lo - p, 0) + max(p - hi, 0)]. *)
Definition axis_outside (lo hi p : R) : R :=
  Rmax (lo - p) 0 + Rmax (p - hi) 0.

(** A point lies inside a box: between min and max on every axis. *)
Definition inside (p : list R) (box : obstacle) : Prop :=
  let '(xmin, xmax, ymin, ymax, zmin, zmax) := box in
  xmin <= nth 0 p 0 <= xmax /\
  ymin <= nth 1 p 0 <= ymax /\
  zmin <= nth 2 p 0 <= zmax.

(** The number of samples [(numWaypoints - 1) * steps + 1]. *)
Definition sample_count (numWaypoints : nat) (steps : Z) : Z :=
  ((Z.of_nat numWaypoints - 1) * steps + 1)%Z.

End Spec.

(* ================================================================== *)
(** * Names for what the planner assembles *)
(* ================================================================== *)

Module NLP.
Import Casadi.

(** The three kinds of constraint [setup_optimization] adds, for the
    variable [q]. *)
Definition limit_constraint (q : MXvar) (joint_limits : list (R * R)) (j : nat)
  : constraint :=
  Bounded (fst (nth j joint_limits (0, 0)))
          (fun v => row_at j (sym q v))
          (snd (nth j joint_limits (0, 0))).

Definition pin_constraint (q : MXvar) (idx : Z) (wp : list R) : constraint :=
  EqVec (fun v => col_at idx (sym q v)) wp.

Definition clearance_constraint (q : MXvar) (d_min : R) (k : Z) (box : obstacle)
  : constraint :=
  Ge (fun v => Planner.outside_dist_sq
                 (Planner.forward_kinematics (col_at k (sym q v))) box)
     (sq d_min).

(** The problem handed to the backend by the first solver call of a
    program, if it makes one before returning or raising. *)
Fixpoint submitted {A : Type} (p : prog A) : option Opti :=
  match p with
  | Ret _ => None
  | Raise _ => None
  | CallSolve o _ => Some o
  | Print _ k => submitted k
  end.

(** A request is rejected at once: the program is a raise of the given
    class, with no solver call and no output before it. *)
Definition fails_fast_with {A : Type} (cls : string) (p : prog A) : Prop :=
  exists msg, p = Raise {| exc_class := cls; exc_message := msg |}.

(** The obstacle box, limits and clearance written into
    [optimize_from_waypoints_deg]. *)
Definition fixed_box : obstacle := (-0.095, 0.115, -0.76, -0.70, 0.125, 0.325).

(** How the backend reports its two kinds of failure: both are raised as
    a [RuntimeError] whose message carries the return status. *)
Definition infeasible_error : py_exception :=
  {| exc_class := "RuntimeError";
     exc_message := "return_status is 'Infeasible_Problem_Detected'" |}.
Definition nonconvergence_error : py_exception :=
  {| exc_class := "RuntimeError";
     exc_message := "return_status is 'Maximum_Iterations_Exceeded'" |}.

(** Sample requests and valuations used in the examples. *)
Definition zeros6 : list R := [0; 0; 0; 0; 0; 0].
Definition nineties6 : list R := [90; 90; 90; 90; 90; 90].
Definition zero_valuation : valuation := fun _ _ => 0.

(** A request, in radians, that moves the sixth joint alone, and the
    valuation that carries it there in equal steps over four samples. *)
Definition sixth_joint_one : list R := [0; 0; 0; 0; 0; 1].
Definition ramp_valuation : valuation :=
  fun j k => if Nat.eqb j 5 then INR k / 3 else 0.

End NLP.

(* ================================================================== *)
(** * The robot as the execution layer sees it *)
(* ================================================================== *)

Module Robot.
Import Casadi.

(** One RTDE data package. *)
Record robot_state := {
  actual_q : list R;
  actual_robot_voltage : R;
  actual_current : list R;
  actual_qd : list R
}.

(** What a TCP connection attempt to a host and port meets. *)
Variant reach : Type :=
| Accepts
| TimesOut                      (* socket.timeout *)
| Refuses                       (* ConnectionRefusedError *)
| Fails (e : py_exception).     (* any other error *)

Definition socket_timeout : py_exception :=
  {| exc_class := "socket.timeout"; exc_message := "timed out" |}.
Definition connection_refused : py_exception :=
  {| exc_class := "ConnectionRefusedError";
     exc_message := "Connection refused" |}.

Definition reach_error (r : reach) : option py_exception :=
  match r with
  | Accepts => None
  | TimesOut => Some socket_timeout
  | Refuses => Some connection_refused
  | Fails e => Some e
  end.

(** The command text [movej([q1,...,q6], a=.., v=..)] followed by a
    newline, kept as its three parts. *)
Record movej_command := {
  target : list R;
  acceleration : R;
  velocity : R
}.

(** Console lines of the execution layer; positions are shown rounded to
    two decimals, which the model leaves to the reader of the log. *)
Variant robot_line : Type :=
| InitialPosition (deg : list R)
| Movement (i : Z)
| MovementReached
| CurrentPositionDeg (deg : list R)
| CurrentPositionRad (rad : list R).

Variant event : Type :=
| Connect (ip : string) (port : Z)       (* rtde.RTDE(ip, port); connect() *)
| GetControllerVersion
| OutputSetup (names : list string) (frequency : Z)
| Start
| Pause
| Disconnect
| Probe (ip : string) (port : Z)         (* create_connection; close *)
| Send (ip : string) (port : Z) (cmd : movej_command)
                                         (* socket; connect; send; close *)
| Sleep (seconds : R)
| Show (line : robot_line)
| Popup (title message : string).

(** The world of one call: the packages the RTDE connection will deliver,
    one per [receive()] ([None] when a package is missing), the network,
    and the events so far.  The RTDE connection itself is taken as
    established; an exhausted list of packages means the model has no
    more to say about the robot. *)
Record world := {
  inbox : list (option robot_state);
  network : string -> Z -> reach;
  trace : list event
}.

Inductive result (A : Type) : Type :=
| Ok (a : A) (w : world)
| Raises (e : py_exception) (w : world)
| Starved (w : world).

Arguments Ok {A} a w.
Arguments Raises {A} e w.
Arguments Starved {A} w.

Definition io (A : Type) : Type := world -> result A.

Definition ret {A : Type} (a : A) : io A := fun w => Ok a w.

Definition bind {A B : Type} (m : io A) (f : A -> io B) : io B :=
  fun w =>
    match m w with
    | Ok a w' => f a w'
    | Raises e w' => Raises e w'
    | Starved w' => Starved w'
    end.

Definition raise {A : Type} (e : py_exception) : io A := fun w => Raises e w.

Definition emit (ev : event) : io unit :=
  fun w => Ok tt {| inbox := inbox w; network := network w;
                    trace := trace w ++ [ev] |}.

(** [con.receive()]. *)
Definition receive : io (option robot_state) :=
  fun w =>
    match inbox w with
    | [] => Starved w
    | s :: rest => Ok s {| inbox := rest; network := network w;
                           trace := trace w |}
    end.

Fixpoint for_each {X : Type} (xs : list X) (body : X -> io unit) : io unit :=
  match xs with
  | [] => ret tt
  | x :: rest => bind (body x) (fun _ => for_each rest body)
  end.

Definition trace_of {A : Type} (r : result A) : list event :=
  match r with
  | Ok _ w => trace w
  | Raises _ w => trace w
  | Starved w => trace w
  end.

Definition is_send (ev : event) : bool :=
  match ev with
  | Send _ _ _ => true
  | _ => false
  end.

(** ** NumPy on one-dimensional arrays *)

(** [a - b]: entry by entry for equal lengths; an array of one entry is
    stretched; other shapes do not broadcast and NumPy raises. *)
Definition np_sub (a b : list R) : option (list R) :=
  if Nat.eqb (length a) (length b)
  then Some (map (fun p => fst p - snd p) (combine a b))
  else match a, b with
       | [x], _ => Some (map (fun y => x - y) b)
       | _, [y] => Some (map (fun x => x - y) a)
       | _, _ => None
       end.

Definition np_abs (a : list R) : list R := map Rabs a.

(** [np.all(a < t)] for a scalar [t]. *)
Definition np_all_lt (a : list R) (t : R) : bool :=
  forallb (fun x => if Rlt_dec x t then true else false) a.

Definition broadcast_error : py_exception :=
  {| exc_class := "ValueError";
     exc_message := "operands could not be broadcast together" |}.

(** The columns of a two-dimensional array: the rows of its transpose. *)
Definition columns (M : matrix) : list (list R) :=
  map (fun j => column j M) (seq 0 (ncols M)).

End Robot.

(* ================================================================== *)
(** * src/RobotExecuterV1_3.py *)
(* ================================================================== *)

Module Executer.
Import Casadi Robot.

Definition RTDE_PORT : Z := 30004.
Definition URPORT : Z := 30002.

(** The header row that [execute_trajectory_with_logging] writes to the
    log file. *)
Definition log_header : list string :=
  ["timestamp"; "voltage"; "joint_current"; "actual_qd"]%string.

(** [send_movej(q_deg)] of the two execute functions. *)
Definition send_movej (robot_ip : string) (a v : R) (q_deg : list R)
  : io unit :=
  let q_rad := radians q_deg in
  let cmd := {| target := q_rad; acceleration := a; velocity := v |} in
  fun w =>
    match reach_error (network w robot_ip URPORT) with
    | Some e => Raises e w
    | None => emit (Send robot_ip URPORT cmd) w
    end.

(** The loop of [wait_until_reached], on the packages still to come. *)
Fixpoint wait_loop (q_rad : list R) (tol : R)
    (packages : list (option robot_state)) (net : string -> Z -> reach)
    (tr : list event) : result unit :=
  match packages with
  | [] => Starved {| inbox := []; network := net; trace := tr |}
  | state :: rest =>
      match state with
      | Some st =>
          let actual := actual_q st in
          match np_sub actual q_rad with
          | None =>
              Raises broadcast_error
                     {| inbox := rest; network := net; trace := tr |}
          | Some diff =>
              let error := np_abs diff in
              if np_all_lt error (radians1 tol)
              then Ok tt {| inbox := rest; network := net; trace := tr |}
              else wait_loop q_rad tol rest net (tr ++ [Sleep 0.1])
          end
      | None => wait_loop q_rad tol rest net (tr ++ [Sleep 0.1])
      end
  end.

(** [wait_until_reached(q_deg, tol=0.5)]. *)
Definition wait_until_reached (q_deg : list R) (tol : R) : io unit :=
  fun w => wait_loop (radians q_deg) tol (inbox w) (network w) (trace w).

Definition execute_trajectory_without_logging (trajectory_deg : matrix)
    (a v : R) (robot_ip : string) : io unit :=
  bind (emit (Connect robot_ip RTDE_PORT)) (fun _ =>
  bind (emit GetControllerVersion) (fun _ =>
  bind (emit (OutputSetup ["actual_q"%string] 50)) (fun _ =>
  bind (emit Start) (fun _ =>
  bind receive (fun state =>
  bind (match state with
        | Some st => emit (Show (InitialPosition (map rad2deg1 (actual_q st))))
        | None => ret tt
        end) (fun _ =>
  bind (for_each (enumerate (columns trajectory_deg))
          (fun iq =>
             bind (emit (Show (Movement (fst iq + 1)))) (fun _ =>
             bind (send_movej robot_ip a v (snd iq)) (fun _ =>
             bind (wait_until_reached (snd iq) 0.5) (fun _ =>
             emit (Show MovementReached)))))) (fun _ =>
  bind (emit Pause) (fun _ =>
  emit Disconnect)))))))).

(** What [get_actual_q] returns: a NumPy array for degrees, the list of
    the package itself for radians. *)
Variant position : Type :=
| NdArray (values : list R)
| PyList (values : list R).

Definition invalid_units : py_exception :=
  {| exc_class := "ValueError";
     exc_message := "Invalid units. Use 'deg' or 'rad'." |}.

(** Reading a local variable that no branch has assigned. *)
Definition unbound_current_position : py_exception :=
  {| exc_class := "UnboundLocalError";
     exc_message := "local variable 'current_position' referenced before assignment" |}.

Definition get_actual_q (units : string) (robot_ip : string) : io position :=
  bind (emit (Connect robot_ip RTDE_PORT)) (fun _ =>
  bind (emit GetControllerVersion) (fun _ =>
  bind (emit (OutputSetup ["actual_q"%string] 50)) (fun _ =>
  bind (emit Start) (fun _ =>
  bind receive (fun state =>
  bind (match state with
        | Some st =>
            if String.eqb units "deg" then
              let current_position := map rad2deg1 (actual_q st) in
              bind (emit (Show (CurrentPositionDeg current_position)))
                   (fun _ => ret (Some (NdArray current_position)))
            else if String.eqb units "rad" then
              let current_position := actual_q st in
              bind (emit (Show (CurrentPositionRad current_position)))
                   (fun _ => ret (Some (PyList current_position)))
            else raise invalid_units
        | None => ret None
        end) (fun current_position =>
  bind (emit Pause) (fun _ =>
  bind (emit Disconnect) (fun _ =>
  match current_position with
  | Some p => ret p
  | None => raise unbound_current_position
  end)))))))).

(** [check_connection(robot_ip)]; the default address is
    ["198.168.0.102"]. *)
Definition check_connection (robot_ip : string) : io bool :=
  fun w =>
    match network w robot_ip 30002 with
    | Accepts => bind (emit (Probe robot_ip 30002)) (fun _ => ret true) w
    | TimesOut => ret false w
    | Refuses => ret false w
    | Fails e => raise e w
    end.

Definition default_robot_ip : string := "192.168.0.102".
Definition default_check_ip : string := "198.168.0.102".

End Executer.

(** What the execution layer is meant to do, in terms of the packages
    the robot delivers. *)
Module ExecSpec.
Import Casadi Robot.

(** A package shows every joint strictly within [tol] degrees of the
    target given in degrees. *)
Definition reached (q_deg : list R) (tol : R) (st : robot_state) : Prop :=
  Forall2 (fun actual goal => Rabs (actual - goal) < radians1 tol)
          (actual_q st) (radians q_deg).

(** A poll that does not end the wait: no package, or one that has not
    reached the target. *)
Definition pending (q_deg : list R) (tol : R) (s : option robot_state)
  : Prop :=
  match s with
  | None => True
  | Some st => ~ reached q_deg tol st
  end.

(** A package reports [n] joints. *)
Definition joints (n : nat) (s : option robot_state) : Prop :=
  match s with
  | None => True
  | Some st => length (actual_q st) = n
  end.

(** The packages from [before] down to [after] serve the targets in
    order: for each target some polls that are pending, then a package
    that has reached it. *)
Inductive served (tol : R)
  : list (list R) -> list (option robot_state) -> list (option robot_state)
    -> Prop :=
| served_none (packages : list (option robot_state)) :
    served tol [] packages packages
| served_next (q_deg : list R) (targets : list (list R))
    (skipped : list (option robot_state)) (st : robot_state)
    (before after : list (option robot_state)) :
    Forall (pending q_deg tol) skipped ->
    reached q_deg tol st ->
    served tol targets before after ->
    served tol (q_deg :: targets) (skipped ++ Some st :: before) after.

(** A robot that rests at the zero pose, a trajectory of one column that
    asks it to stay there, and a world in which it can be reached. *)
Definition at_zero : robot_state :=
  {| actual_q := [0; 0; 0; 0; 0; 0]; actual_robot_voltage := 48;
     actual_current := [0; 0; 0; 0; 0; 0]; actual_qd := [0; 0; 0; 0; 0; 0] |}.

Definition stay_at_zero : matrix := [[0]; [0]; [0]; [0]; [0]; [0]].

Definition resting (packages : list (option robot_state)) : world :=
  {| inbox := packages; network := fun _ _ => Accepts; trace := [] |}.

End ExecSpec.

(** The header row written by the older copy,
    [src/prueba/RobotExecuterV1_0.py]. *)
Module ExecuterPrueba.

Definition log_header : list string :=
  ["timestamp"; "voltage"; "current"]%string.

End ExecuterPrueba.

(* ================================================================== *)
(** * src/main.py: the handlers that call the planner and the robot *)
(* ================================================================== *)

Module Gui.
Import Casadi Robot.

(** A sequence of results, stopped at the first exception. *)
Fixpoint collect {X : Type} (xs : list (X + py_exception))
  : list X + py_exception :=
  match xs with
  | [] => inl []
  | inr e :: _ => inr e
  | inl x :: rest =>
      match collect rest with
      | inl ys => inl (x :: ys)
      | inr e => inr e
      end
  end.

(** A [QTableWidget]: its row count and the text of the item at a cell,
    if the cell has an item. *)
Record table := {
  rowCount : nat;
  item : nat -> nat -> option string
}.

Variant gui_event : Type :=
| Console (l : log_line)                  (* a line printed by the planner *)
| Printed (text : string)
| PrintedError (label : string) (e : py_exception)
| WarningBox (title message : string)
| ShowTrajectory (trajectory_deg : matrix)
| SetCurrentIndex (i : Z).

(** What a handler did: its events in order, the number of solver calls,
    and the exception that left the handler, if one did. *)
Record handled := {
  events : list gui_event;
  solves : nat;
  escaped : option py_exception
}.

Definition float_error : py_exception :=
  {| exc_class := "ValueError";
     exc_message := "could not convert string to float" |}.

Definition ambiguous_truth : py_exception :=
  {| exc_class := "ValueError";
     exc_message := "The truth value of an array with more than one element is ambiguous. Use a.any() or a.all()" |}.

Definition tuple_index_out_of_range : py_exception :=
  {| exc_class := "IndexError";
     exc_message := "tuple index out of range" |}.

Definition q_home : list R := [-90; -90; -90; -90; 90; 0].

(** [a != b] between a NumPy array and a list: an array of booleans, with
    the stretching of one-entry arrays.  For shapes that do not broadcast
    NumPy's answer has changed between versions; the model raises. *)
Definition np_ne (a b : list R) : option (list bool) :=
  let ne := fun x y : R => if Req_dec_T x y then false else true in
  if Nat.eqb (length a) (length b)
  then Some (map (fun p => ne (fst p) (snd p)) (combine a b))
  else match a, b with
       | [x], _ => Some (map (fun y => ne x y) b)
       | _, [y] => Some (map (fun x => ne x y) a)
       | _, _ => None
       end.

(** The truth value of an array of booleans in an [if]: that of its one
    entry; an empty array counts as false; more entries raise. *)
Definition np_truth (bs : list bool) : bool + py_exception :=
  match bs with
  | [] => inl false
  | [b] => inl b
  | _ => inr ambiguous_truth
  end.

Fixpoint list_ne (a b : list R) : bool :=
  match a, b with
  | [], [] => false
  | x :: a', y :: b' => if Req_dec_T x y then list_ne a' b' else true
  | _, _ => true
  end.

(** The test [actual_q != q] of an [if]. *)
Definition differs (actual_q : Executer.position) (q : list R)
  : io bool :=
  match actual_q with
  | Executer.NdArray values =>
      match np_ne values q with
      | None => raise broadcast_error
      | Some bs =>
          match np_truth bs with
          | inl b => ret b
          | inr e => raise e
          end
      end
  | Executer.PyList values => ret (list_ne values q)
  end.

(** The values written into one column of a [np.zeros((6, 2))] array. *)
Definition as_column (values : list R) : io (list R) :=
  match values with
  | [x] => ret (repeat x 6)
  | _ => if Nat.eqb (length values) 6 then ret values
         else raise broadcast_error
  end.

Definition values_of (p : Executer.position) : list R :=
  match p with
  | Executer.NdArray values => values
  | Executer.PyList values => values
  end.

(** [TrajectoryWindow.move_home]; [acceleration] and [velocity] are the
    values of the two sliders.  The pop-up returns to the trajectory
    screen once acknowledged. *)
Definition move_home (acceleration velocity : Z) : io unit :=
  bind (Executer.check_connection Executer.default_check_ip) (fun connected =>
  if Bool.eqb connected false
  then emit (Popup "Connection Error" "No connection to the robot.")
  else
    bind (Executer.get_actual_q "deg" Executer.default_robot_ip)
         (fun actual_q =>
    bind (differs actual_q q_home) (fun moved =>
    if moved then
      bind (as_column (values_of actual_q)) (fun c0 =>
      bind (as_column q_home) (fun c1 =>
      let trajectory_deg :=
        map (fun p => [fst p; snd p]) (combine c0 c1) in
      let a := IZR acceleration / 100 in
      let v := IZR velocity / 100 in
      Executer.execute_trajectory_without_logging
        trajectory_deg a v Executer.default_robot_ip))
    else ret tt))).

Section Handlers.

(** [float(text)]: the number a text denotes, or nothing where Python
    raises [ValueError]. *)
Variable float_of_text : string -> option R.

(** [float(item.text()) if item else 0.0]. *)
Definition read_cell (t : table) (row col : nat) : R + py_exception :=
  match item t row col with
  | Some text =>
      match float_of_text text with
      | Some x => inl x
      | None => inr float_error
      end
  | None => inl 0
  end.

(** The two loops that read the waypoint table, six cells a row. *)
Definition read_waypoints (t : table) : list (list R) + py_exception :=
  collect (map (fun row => collect (map (read_cell t row) (seq 0 6)))
               (seq 0 (rowCount t))).

(** [WaypointWindow.send_data_foward]. *)
Definition send_data_foward (backend : Opti -> solver_reply) (t : table)
  : handled :=
  match read_waypoints t with
  | inr e => {| events := []; solves := 0; escaped := Some e |}
  | inl waypoints =>
      if (length waypoints <? 2)%nat then
        {| events := [Printed "Add at least two waypoints.";
                      WarningBox "Warning" "Add at least two waypoints."];
           solves := 0; escaped := None |}
      else
        let '(log, n, r) :=
          run backend (Planner.optimize_from_waypoints_deg waypoints) in
        match r with
        | inl (Array2 optimized) =>
            {| events := map Console log
                         ++ [ShowTrajectory optimized; SetCurrentIndex 2];
               solves := n; escaped := None |}
        | inl _ =>
            (* show_trajectory reads shape[1] of its argument *)
            {| events := map Console log
                         ++ [PrintedError "Optimization error:"
                               tuple_index_out_of_range];
               solves := n; escaped := None |}
        | inr e =>
            {| events := map Console log
                         ++ [PrintedError "Optimization error:" e];
               solves := n; escaped := None |}
        end
  end.

End Handlers.

End Gui.

(* ================================================================== *)
(** * src/ResultsGrapherV1_0.py: the energy figures *)
(* ================================================================== *)

Module Grapher.
Import Casadi.

(** One row of the log, its two list columns already parsed. *)
Record log_row := {
  timestamp : R;
  voltage : R;
  joint_current : list R;
  actual_qd : list R
}.

Definition required_columns : list string :=
  ["timestamp"; "voltage"; "joint_current"; "actual_qd"]%string.

(** [required.issubset(columns)]. *)
Definition issubset (required columns : list string) : bool :=
  forallb (fun c => existsb (String.eqb c) columns) required.

Definition missing_columns : py_exception :=
  {| exc_class := "ValueError";
     exc_message := "CSV must contain columns: {'timestamp', 'voltage', 'joint_current', 'actual_qd'}" |}.

Definition zero_division : py_exception :=
  {| exc_class := "ZeroDivisionError"; exc_message := "division by zero" |}.

(** [sum(x) / len(x)]. *)
Definition mean (x : list R) : R + py_exception :=
  match x with
  | [] => inr zero_division
  | _ => inl (sum x / INR (length x))
  end.

(** [series.diff().fillna(0)]. *)
Fixpoint diffs (previous : R) (ts : list R) : list R :=
  match ts with
  | [] => []
  | t :: rest => (t - previous) :: diffs t rest
  end.

Definition diff_fillna0 (ts : list R) : list R :=
  match ts with
  | [] => []
  | t :: rest => 0 :: diffs t rest
  end.

(** [series.cumsum()]. *)
Fixpoint cumsum_from (acc : R) (xs : list R) : list R :=
  match xs with
  | [] => []
  | x :: rest => (acc + x) :: cumsum_from (acc + x) rest
  end.

Definition cumsum (xs : list R) : list R := cumsum_from 0 xs.

(** The product of two columns, row by row. *)
Definition times (xs ys : list R) : list R :=
  map (fun p => fst p * snd p) (combine xs ys).

Record energy := {
  current : list R;
  power : list R;
  delta_time : list R;
  energy_increment : list R;
  cumulative_energy : list R;
  total_energy : R
}.

(** Steps 2 to 5 of [process_and_plot_energy_data]: the column check and
    the figures computed from the rows. *)
Definition energy_data (columns : list string) (rows : list log_row)
  : energy + py_exception :=
  if negb (issubset required_columns columns) then inr missing_columns
  else
    match Gui.collect (map (fun r => mean (joint_current r)) rows) with
    | inr e => inr e
    | inl current =>
        let power := times (map voltage rows) current in
        let delta_time := diff_fillna0 (map timestamp rows) in
        let energy_increment := times power delta_time in
        inl {| current := current;
               power := power;
               delta_time := delta_time;
               energy_increment := energy_increment;
               cumulative_energy := cumsum energy_increment;
               total_energy := sum energy_increment |}
    end.

(** A series that never decreases, starting not below [previous]. *)
Fixpoint nondecreasing_from (previous : R) (xs : list R) : Prop :=
  match xs with
  | [] => True
  | x :: rest => previous <= x /\ nondecreasing_from x rest
  end.

Definition nondecreasing (xs : list R) : Prop :=
  match xs with
  | [] => True
  | x :: rest => nondecreasing_from x rest
  end.

(** The power of one row: its voltage times the mean of its joint
    currents. *)
Definition row_power (r : log_row) : R :=
  voltage r * (sum (joint_current r) / INR (length (joint_current r))).

End Grapher.

(* ================================================================== *)
(** * Distances and turns *)
(* ================================================================== *)

Module Geometry.

(** The squared Euclidean distance of two points given by their first
    three coordinates. *)
Definition dist_sq (p c : list R) : R :=
  (nth 0 p 0 - nth 0 c 0) * (nth 0 p 0 - nth 0 c 0)
  + (nth 1 p 0 - nth 1 c 0) * (nth 1 p 0 - nth 1 c 0)
  + (nth 2 p 0 - nth 2 c 0) * (nth 2 p 0 - nth 2 c 0).

(** The point of the interval [lo, hi] nearest to [p]. *)
Definition clamp (lo hi p : R) : R := Rmax lo (Rmin p hi).

(** The point of a box nearest to [p]. *)
Definition nearest (p : list R) (box : obstacle) : list R :=
  let '(xmin, xmax, ymin, ymax, zmin, zmax) := box in
  [clamp xmin xmax (nth 0 p 0); clamp ymin ymax (nth 1 p 0);
   clamp zmin zmax (nth 2 p 0)].

(** A box whose minimum does not exceed its maximum on any axis. *)
Definition well_formed (box : obstacle) : Prop :=
  let '(xmin, xmax, ymin, ymax, zmin, zmax) := box in
  xmin <= xmax /\ ymin <= ymax /\ zmin <= zmax.

(** A joint angle moved by a whole number of turns. *)
Definition turned (theta : R) (k : Z) : R := theta + 2 * IZR k * PI.

End Geometry.

(* ================================================================== *)
(** * Lists, sums and the [Opti] object *)
(* ================================================================== *)

Section OptiFacts.
Import Casadi.

Lemma sum_app (xs ys : list R) : sum (xs ++ ys) = sum xs + sum ys.
Proof.
  induction xs as [|x xs IH]; simpl.
  - lra.
  - rewrite IH. lra.
Qed.

Lemma sum_map_plus {X : Type} (f g : X -> R) (xs : list X) :
  sum (map (fun x => f x + g x) xs) = sum (map f xs) + sum (map g xs).
Proof.
  induction xs as [|x xs IH]; simpl.
  - lra.
  - rewrite IH. lra.
Qed.

Lemma sum_map_zero {X : Type} (xs : list X) :
  sum (map (fun _ => 0) xs) = 0.
Proof.
  induction xs as [|x xs IH]; simpl; [reflexivity | rewrite IH; lra].
Qed.

(** Exchange of two finite sums. *)
Lemma sum_exchange {X Y : Type} (g : X -> Y -> R) (xs : list X) (ys : list Y) :
  sum (map (fun x => sum (map (g x) ys)) xs)
  = sum (map (fun y => sum (map (fun x => g x y) xs)) ys).
Proof.
  induction xs as [|x xs IH]; simpl.
  - now rewrite sum_map_zero.
  - rewrite IH, <- sum_map_plus. reflexivity.
Qed.

Lemma removelast_map_seq {X : Type} (f : nat -> X) (a n : nat) :
  removelast (map f (seq a n)) = map f (seq a (n - 1)).
Proof.
  revert a. induction n as [|n IH]; intros a; [reflexivity|].
  destruct n as [|n]; [reflexivity|].
  specialize (IH (S a)).
  replace (S n - 1)%nat with n in IH by lia.
  replace (S (S n) - 1)%nat with (S n) by lia.
  cbn [seq map] in *. cbn [removelast]. cbn [removelast] in IH.
  now rewrite IH.
Qed.

Lemma skipn1_map_seq {X : Type} (f : nat -> X) (n : nat) :
  skipn 1 (map f (seq 0 n)) = map (fun k => f (S k)) (seq 0 (n - 1)).
Proof.
  destruct n as [|n]; [reflexivity|].
  cbn [seq map skipn]. replace (S n - 1)%nat with n by lia.
  rewrite <- seq_shift, map_map. reflexivity.
Qed.

Lemma combine_map_same {X A B : Type} (f : X -> A) (g : X -> B) (xs : list X) :
  combine (map f xs) (map g xs) = map (fun x => (f x, g x)) xs.
Proof.
  induction xs as [|x xs IH]; simpl; [reflexivity | now rewrite IH].
Qed.

Lemma nth_map_seq {X : Type} (f : nat -> X) (d : X) (n k : nat) :
  (k < n)%nat -> nth k (map f (seq 0 n)) d = f k.
Proof.
  intros Hk. rewrite nth_indep with (d' := f 0%nat) by now rewrite length_map, length_seq.
  rewrite map_nth, seq_nth by assumption. reflexivity.
Qed.

(** ** Injectivity of the constructors, without unfolding their arguments *)

Lemma Some_eq_inv {X : Type} (x y : X) : Some x = Some y -> x = y.
Proof. intros H. now injection H. Qed.

Lemma Bounded_inv (lo lo' hi hi' : R) (e e' : MXvec) :
  Bounded lo e hi = Bounded lo' e' hi' -> lo = lo' /\ e = e' /\ hi = hi'.
Proof. intros H. injection H as -> -> ->. now repeat split. Qed.

Lemma EqVec_inv (e e' : MXvec) (rhs rhs' : list R) :
  EqVec e rhs = EqVec e' rhs' -> e = e' /\ rhs = rhs'.
Proof. intros H. injection H as -> ->. now split. Qed.

Lemma Ge_inv (e e' : MXscalar) (rhs rhs' : R) :
  Ge e rhs = Ge e' rhs' -> e = e' /\ rhs = rhs'.
Proof. intros H. injection H as -> ->. now split. Qed.

Lemma Forall2_exact (xs ys : list R) :
  Forall2 (fun x y => Rabs (x - y) <= 0) xs ys -> xs = ys.
Proof.
  intros H. induction H as [|x y xs ys Hxy _ IH]; [reflexivity|].
  f_equal; [|exact IH].
  unfold Rabs in Hxy. destruct (Rcase_abs (x - y)); lra.
Qed.

(** ** Appending constraints in a loop *)

Lemma subject_to_fold {X : Type} (f : X -> constraint) (xs : list X) (o : Opti) :
  fold_left (fun o x => opti_subject_to o (f x)) xs o
  = {| variables := variables o; objective := objective o;
       constraints := constraints o ++ map f xs;
       solver_name := solver_name o |}.
Proof.
  revert o. induction xs as [|x xs IH]; intros o; simpl.
  - rewrite app_nil_r. now destruct o.
  - rewrite IH. simpl. now rewrite <- app_assoc.
Qed.

Lemma subject_to_fold2 {X Y : Type} (f : X -> Y -> constraint)
    (xs : list X) (ys : list Y) (o : Opti) :
  fold_left (fun o x => fold_left (fun o y => opti_subject_to o (f x y)) ys o) xs o
  = {| variables := variables o; objective := objective o;
       constraints := constraints o ++ flat_map (fun x => map (f x) ys) xs;
       solver_name := solver_name o |}.
Proof.
  revert o. induction xs as [|x xs IH]; intros o; simpl.
  - rewrite app_nil_r. now destruct o.
  - rewrite IH, subject_to_fold. simpl. now rewrite <- app_assoc.
Qed.

End OptiFacts.

(* ================================================================== *)
(** * The assembled problem *)
(* ================================================================== *)

Section Assembly.
Import Casadi Planner NLP.

Variables (waypoints : list (list R)) (steps : Z)
          (joint_limits : list (R * R)) (obstacles : list obstacle)
          (d_min : R).

Let N : Z := Spec.sample_count (length waypoints) steps.
Let q : MXvar := {| mx_rows := 6; mx_cols := N |}.

(** Everything [setup_optimization] returns, in closed form. *)
Lemma setup_optimization_unfold :
  setup_optimization waypoints steps joint_limits obstacles d_min
  = ({| variables := [q];
        objective :=
          Some (fun v => sumsqr (msub (cols_from_1 (sym q v))
                                      (cols_but_last (sym q v))));
        constraints :=
          map (limit_constraint q joint_limits) (seq 0 6)
          ++ map (fun iwp => pin_constraint q (fst iwp * steps) (snd iwp))
                 (enumerate waypoints)
          ++ flat_map (fun k => map (clearance_constraint q d_min k) obstacles)
                      (range N);
        solver_name := None |}, q, N).
Proof.
  unfold setup_optimization, opti_variable, opti_minimize, Opti_new.
  cbv zeta. cbn [variables objective constraints solver_name app].
  fold N. fold q.
  rewrite (subject_to_fold (limit_constraint q joint_limits)).
  cbn [variables objective constraints solver_name app].
  rewrite (subject_to_fold
             (fun iwp => pin_constraint q (fst iwp * steps) (snd iwp))).
  cbn [variables objective constraints solver_name].
  rewrite (subject_to_fold2 (clearance_constraint q d_min)).
  cbn [variables objective constraints solver_name].
  rewrite <- app_assoc. reflexivity.
Qed.

End Assembly.

(* ================================================================== *)
(** * Shapes and the solve step *)
(* ================================================================== *)

Section SolveStep.
Import Casadi Planner NLP.

Lemma value_of_nrows (v : valuation) (q : MXvar) :
  nrows (value_of v q) = mx_rows q.
Proof. unfold nrows, value_of. now rewrite length_map, length_seq. Qed.

Lemma value_of_row_length (v : valuation) (q : MXvar) :
  Forall (fun row => length row = Z.to_nat (mx_cols q)) (value_of v q).
Proof.
  unfold value_of. apply Forall_forall. intros row Hin.
  apply in_map_iff in Hin. destruct Hin as [j [<- _]].
  now rewrite length_map, length_seq.
Qed.

Lemma value_of_ncols (v : valuation) (q : MXvar) :
  (0 < mx_rows q)%nat -> ncols (value_of v q) = Z.to_nat (mx_cols q).
Proof.
  intros Hr. unfold ncols, value_of.
  destruct (mx_rows q) as [|r]; [lia|].
  cbn [seq map hd]. now rewrite length_map, length_seq.
Qed.

Lemma rad2deg_nrows (M : matrix) : nrows (rad2deg M) = nrows M.
Proof. unfold nrows, rad2deg. now rewrite length_map. Qed.

Lemma rad2deg_row_length (n : nat) (M : matrix) :
  Forall (fun row => length row = n) M ->
  Forall (fun row => length row = n) (rad2deg M).
Proof.
  unfold rad2deg. intros H. apply Forall_map.
  eapply Forall_impl; [|exact H]. intros row Hrow. cbn.
  now rewrite length_map.
Qed.

(** Running a sequence: the first part runs; the rest runs only if the
    first part returned. *)
Lemma run_bind {A B : Type} (backend : Opti -> solver_reply)
    (p : prog A) (f : A -> prog B) :
  run backend (bind p f)
  = match run backend p with
    | (log, n, inl a) =>
        let '(log', n', r) := run backend (f a) in
        (log ++ log', (n + n')%nat, r)
    | (log, n, inr e) => (log, n, inr e)
    end.
Proof.
  induction p as [a | e | o k IH | l k IH]; cbn [bind run].
  - destruct (run backend (f a)) as [[log' n'] r]. reflexivity.
  - reflexivity.
  - rewrite IH. destruct (run backend (k (backend o))) as [[log n] [a | e]].
    + destruct (run backend (f a)) as [[log' n'] r]. reflexivity.
    + reflexivity.
  - rewrite IH. destruct (run backend k) as [[log n] [a | e]].
    + destruct (run backend (f a)) as [[log' n'] r]. reflexivity.
    + reflexivity.
Qed.

Lemma run_for_each_print {X : Type} (backend : Opti -> solver_reply)
    (xs : list X) (line : X -> log_line) :
  run backend (for_each xs (fun x => print (line x)))
  = (map line xs, 0%nat, inl tt).
Proof.
  induction xs as [|x xs IH]; [reflexivity|].
  cbn [for_each print bind run map]. now rewrite IH.
Qed.

(** A loop whose bodies all return runs like the loop of their prints. *)
Lemma run_for_each_columns (backend : Opti -> solver_reply)
    (a : ndarray) (M : matrix) (xs : list Z) :
  (forall i, In i xs -> np_column a i = Ret (col_at i M)) ->
  run backend (for_each xs (fun i =>
      bind (np_column a i) (fun col => print (WaypointLine (i + 1) col))))
  = (map (fun i => WaypointLine (i + 1) (col_at i M)) xs, 0%nat, inl tt).
Proof.
  induction xs as [|x xs IH]; intros Hxs; [reflexivity|].
  cbn [for_each map]. rewrite (Hxs x (or_introl eq_refl)).
  cbn [bind print run]. rewrite IH; [reflexivity|].
  intros i Hi. apply Hxs. now right.
Qed.

(** The loop of the solve step never calls the solver. *)
Lemma run_for_each_no_solve (backend : Opti -> solver_reply)
    (a : ndarray) (xs : list Z) :
  solver_calls (run backend (for_each xs (fun i =>
      bind (np_column a i) (fun col => print (WaypointLine (i + 1) col)))))
  = 0%nat.
Proof.
  induction xs as [|x xs IH]; [reflexivity|].
  cbn [for_each].
  destruct a as [y | ys | M]; cbn [np_column bind run]; try reflexivity.
  destruct (andb _ _); cbn [bind print run]; [|reflexivity].
  unfold solver_calls in *.
  destruct (run backend (for_each xs _)) as [[log n] r].
  cbn [fst snd] in *. exact IH.
Qed.

(** Of a variable with at least two rows and not exactly one column the
    solver hands back a two-dimensional array. *)
Lemma sol_value_matrix (v : valuation) (q : MXvar) :
  (2 <= mx_rows q)%nat -> mx_cols q <> 1%Z ->
  sol_value v q = Array2 (value_of v q).
Proof.
  intros Hr Hc. unfold sol_value.
  destruct (Nat.eqb_spec (mx_rows q) 1) as [E | _]; [lia|].
  destruct (Z.eqb_spec (mx_cols q) 1) as [E | _]; [contradiction|].
  reflexivity.
Qed.

(** Of a variable with several rows and one column it hands back a
    one-dimensional array. *)
Lemma sol_value_vector (v : valuation) (q : MXvar) :
  (2 <= mx_rows q)%nat -> mx_cols q = 1%Z ->
  sol_value v q = Array1 (column 0 (value_of v q)).
Proof.
  intros Hr Hc. unfold sol_value.
  destruct (Nat.eqb_spec (mx_rows q) 1) as [E | _]; [lia|].
  rewrite Hc. reflexivity.
Qed.

Lemma np_column_in_range (M : matrix) (i : Z) :
  (0 <= i < Z.of_nat (ncols M))%Z ->
  np_column (Array2 M) i = Ret (col_at i M).
Proof.
  intros Hi. cbn [np_column].
  destruct (Z.leb_spec (- Z.of_nat (ncols M)) i); [|lia].
  destruct (Z.ltb_spec i (Z.of_nat (ncols M))); [|lia].
  reflexivity.
Qed.

Lemma rad2deg_ncols (M : matrix) : ncols (rad2deg M) = ncols M.
Proof.
  unfold ncols, rad2deg. destruct M as [|row M]; [reflexivity|].
  cbn [map hd]. now rewrite length_map.
Qed.

Lemma col_at_rad2deg (k : Z) (M : matrix) :
  col_at k (rad2deg M) = map rad2deg1 (col_at k M).
Proof.
  unfold col_at. rewrite rad2deg_ncols. unfold column, rad2deg.
  rewrite !map_map. apply map_ext. intros row.
  replace 0 with (rad2deg1 0) at 1 by (unfold rad2deg1; lra).
  apply map_nth.
Qed.

Lemma in_range_bounds (n i : Z) : In i (range n) -> (0 <= i < n)%Z.
Proof.
  unfold range. intros Hin. apply in_map_iff in Hin.
  destruct Hin as [k [<- Hk]]. apply in_seq in Hk. lia.
Qed.

(** The solve step when the backend returns a solution for a variable of
    at least two rows and not exactly one column, printed over no more
    than its columns. *)
Lemma solve_and_print_returns (backend : Opti -> solver_reply)
    (opti : Opti) (q : MXvar) (n : Z) (v : valuation) :
  backend (opti_solver opti "ipopt") = Solution v ->
  (2 <= mx_rows q)%nat -> mx_cols q <> 1%Z -> (n <= mx_cols q)%Z ->
  run backend (solve_and_print_trajectory opti q n)
  = (Header " Optimized Joint Trajectory (Degrees):"
       :: map (fun i => WaypointLine (i + 1) (col_at i (rad2deg (value_of v q))))
              (range n),
     1%nat, inl (Array2 (rad2deg (value_of v q)))).
Proof.
  intros Hb Hr Hc Hn. unfold solve_and_print_trajectory, opti_solve.
  cbn [bind run print]. rewrite Hb. cbn [bind run].
  rewrite (sol_value_matrix v q Hr Hc). cbn [np_rad2deg].
  rewrite run_bind.
  rewrite (run_for_each_columns backend _ (rad2deg (value_of v q))).
  - cbn [run]. now rewrite app_nil_r.
  - intros i Hi. apply in_range_bounds in Hi.
    apply np_column_in_range.
    rewrite rad2deg_ncols, value_of_ncols by lia. lia.
Qed.

(** The solve step when the backend returns a solution for a variable of
    one column: the value is one-dimensional, and the first line of the
    loop raises after the header. *)
Lemma solve_and_print_one_column (backend : Opti -> solver_reply)
    (opti : Opti) (q : MXvar) (n : Z) (v : valuation) :
  backend (opti_solver opti "ipopt") = Solution v ->
  (2 <= mx_rows q)%nat -> mx_cols q = 1%Z -> (1 <= n)%Z ->
  run backend (solve_and_print_trajectory opti q n)
  = ([Header " Optimized Joint Trajectory (Degrees):"], 1%nat,
     inr too_many_indices).
Proof.
  intros Hb Hr Hc Hn. unfold solve_and_print_trajectory, opti_solve.
  cbn [bind run print]. rewrite Hb. cbn [bind run].
  rewrite (sol_value_vector v q Hr Hc). cbn [np_rad2deg].
  unfold range. destruct (Z.to_nat n) as [|m] eqn:E; [lia|].
  cbn [seq map for_each np_column bind run]. reflexivity.
Qed.

(** The solve step when the backend fails. *)
Lemma solve_and_print_raises (backend : Opti -> solver_reply)
    (opti : Opti) (q : MXvar) (n : Z) (e : py_exception) :
  backend (opti_solver opti "ipopt") = SolverError e ->
  run backend (solve_and_print_trajectory opti q n) = ([], 1%nat, inr e).
Proof.
  intros Hb. unfold solve_and_print_trajectory, opti_solve.
  cbn [bind run print]. now rewrite Hb.
Qed.

(** The orchestrator is the solve step applied to the fixed set-up. *)
Lemma optimize_from_waypoints_deg_unfold (waypoints_deg : list (list R)) :
  optimize_from_waypoints_deg waypoints_deg
  = solve_and_print_trajectory
      (fst (fst (setup_optimization (map radians waypoints_deg) 3
                   (repeat (- PI, PI) 6) [fixed_box] 0.05)))
      {| mx_rows := 6;
         mx_cols := Spec.sample_count (length waypoints_deg) 3 |}
      (Spec.sample_count (length waypoints_deg) 3).
Proof.
  unfold optimize_from_waypoints_deg. cbv zeta.
  change (-0.095, 0.115, -0.76, -0.70, 0.125, 0.325) with fixed_box.
  rewrite !setup_optimization_unfold. cbn [fst snd].
  rewrite !length_map. reflexivity.
Qed.

End SolveStep.

(* ================================================================== *)
(** * Sample count and objective *)
(* ================================================================== *)

Section CountAndObjective.
Import Casadi Planner NLP.

(** C2.  For a request of at least two waypoints and a positive step
    count, the decision variable assembled by [setup_optimization] has
    exactly [N = (numWaypoints - 1) * stepsBetweenWaypoints + 1] columns
    (and six rows), and so has the matrix the solve step returns. *)
Theorem sample_count_exact (waypoints : list (list R)) (steps : Z)
    (joint_limits : list (R * R)) (obstacles : list obstacle) (d_min : R) :
  (2 <= length waypoints)%nat ->
  (0 < steps)%Z ->
  let '(opti, q, N) :=
    setup_optimization waypoints steps joint_limits obstacles d_min in
  N = ((Z.of_nat (length waypoints) - 1) * steps + 1)%Z /\
  variables opti = [q] /\
  mx_rows q = 6%nat /\ mx_cols q = N /\
  (forall v, nrows (sym q v) = 6%nat /\ Z.of_nat (ncols (sym q v)) = N) /\
  (forall backend v,
      backend (opti_solver opti "ipopt") = Solution v ->
      exists M,
        outcome (run backend (solve_and_print_trajectory opti q N))
        = inl (Array2 M) /\
        nrows M = 6%nat /\ Z.of_nat (ncols M) = N /\
        Forall (fun row => Z.of_nat (length row) = N) M).
Proof.
  intros Hlen Hsteps. rewrite setup_optimization_unfold.
  set (N := Spec.sample_count (length waypoints) steps).
  set (q := {| mx_rows := 6; mx_cols := N |}).
  assert (HN : (0 <= N)%Z) by (unfold N, Spec.sample_count; nia).
  refine (conj _ (conj _ (conj _ (conj _ (conj _ _))))); try reflexivity.
  - intros v. unfold sym. split.
    + now rewrite value_of_nrows.
    + rewrite value_of_ncols by (cbn; lia). cbn [mx_cols q]. lia.
  - intros backend v Hb. exists (rad2deg (value_of v q)).
    rewrite (solve_and_print_returns backend _ q N v Hb)
      by (cbn [mx_rows mx_cols q]; unfold N, Spec.sample_count; nia).
    split; [reflexivity|]. split; [|split].
    + now rewrite rad2deg_nrows, value_of_nrows.
    + unfold ncols, rad2deg, value_of. cbn [mx_rows mx_cols q seq map hd].
      rewrite !length_map, length_seq. lia.
    + pose proof (rad2deg_row_length _ _ (value_of_row_length v q)) as Hrows.
      eapply Forall_impl; [|exact Hrows]. cbn. intros row ->. lia.
Qed.

Lemma sample_count_exact_witness :
  let '(opti, q, N) :=
    setup_optimization [zeros6; sixth_joint_one] 3
                       (repeat (- PI, PI) 6) [fixed_box] 0.05 in
  N = ((Z.of_nat (length [zeros6; sixth_joint_one]) - 1) * 3 + 1)%Z /\
  variables opti = [q] /\
  mx_rows q = 6%nat /\ mx_cols q = N /\
  (forall v, nrows (sym q v) = 6%nat /\ Z.of_nat (ncols (sym q v)) = N) /\
  (forall backend v,
      backend (opti_solver opti "ipopt") = Solution v ->
      exists M,
        outcome (run backend (solve_and_print_trajectory opti q N))
        = inl (Array2 M) /\
        nrows M = 6%nat /\ Z.of_nat (ncols M) = N /\
        Forall (fun row => Z.of_nat (length row) = N) M).
Proof.
  apply (sample_count_exact [zeros6; sixth_joint_one] 3
           (repeat (- PI, PI) 6) [fixed_box] 0.05).
  - simpl. lia.
  - lia.
Defined.

(** The difference of the shifted and the truncated variable, row by row. *)
Lemma dq_rows (v : valuation) (q : MXvar) :
  msub (cols_from_1 (value_of v q)) (cols_but_last (value_of v q))
  = map (fun j => map (fun k => v j (S k) - v j k)
                      (seq 0 (Z.to_nat (mx_cols q) - 1)))
        (seq 0 (mx_rows q)).
Proof.
  unfold msub, cols_from_1, cols_but_last, value_of.
  rewrite !map_map, combine_map_same, map_map.
  apply map_ext. intros j. cbn [fst snd].
  rewrite skipn1_map_seq, removelast_map_seq, combine_map_same, map_map.
  reflexivity.
Qed.

(** C4.  The objective set by [setup_optimization] is the one expression
    [sumsqr(q[:, 1:] - q[:, :-1])] over the decision variable [q] of six
    rows and [(numWaypoints - 1) * steps + 1] columns: under every
    valuation of [q] it is the sum over the consecutive column pairs of
    [q] of the squared norm of their difference, and nothing else is
    added to it. *)
Theorem objective_is_smoothness (waypoints : list (list R)) (steps : Z)
    (joint_limits : list (R * R)) (obstacles : list obstacle) (d_min : R) :
  let '(opti, q, N) :=
    setup_optimization waypoints steps joint_limits obstacles d_min in
  variables opti = [q] /\
  mx_rows q = 6%nat /\
  mx_cols q = ((Z.of_nat (length waypoints) - 1) * steps + 1)%Z /\
  N = mx_cols q /\
  exists f,
    objective opti = Some f /\
    forall v,
      f v = sumsqr (msub (cols_from_1 (sym q v)) (cols_but_last (sym q v))) /\
      f v = Spec.smoothness (Z.to_nat (mx_cols q)) v /\
      f v = sum (map (fun k =>
                   sum (map (fun j => (v j (S k) - v j k) * (v j (S k) - v j k))
                            (seq 0 (mx_rows q))))
                 (seq 0 (Z.to_nat (mx_cols q) - 1))).
Proof.
  rewrite setup_optimization_unfold. cbn [variables objective].
  refine (conj eq_refl (conj eq_refl (conj eq_refl (conj eq_refl _)))).
  eexists. split; [reflexivity|]. intros v. cbv beta.
  assert (H : sumsqr
                (msub (cols_from_1
                         (sym {| mx_rows := 6;
                                 mx_cols := Spec.sample_count (length waypoints) steps |} v))
                      (cols_but_last
                         (sym {| mx_rows := 6;
                                 mx_cols := Spec.sample_count (length waypoints) steps |} v)))
              = Spec.smoothness
                  (Z.to_nat (Spec.sample_count (length waypoints) steps)) v).
  { unfold sym. rewrite dq_rows. cbn [mx_rows mx_cols].
    unfold sumsqr, Spec.smoothness, Spec.step_norm_sq.
    rewrite map_map.
    rewrite (map_ext _ (fun j =>
               sum (map (fun k => (v j (S k) - v j k) * (v j (S k) - v j k))
                        (seq 0 (Z.to_nat (Spec.sample_count (length waypoints) steps) - 1)))))
      by (intros j; now rewrite map_map).
    apply (sum_exchange
             (fun j k => (v j (S k) - v j k) * (v j (S k) - v j k))). }
  split; [reflexivity|]. cbn [mx_rows mx_cols].
  split; [exact H|]. rewrite H. reflexivity.
Qed.

End CountAndObjective.

(* ================================================================== *)
(** * Waypoint pinning *)
(* ================================================================== *)

Section Pinning.
Import Casadi Planner NLP.

Lemma in_combine_map_seq {X Y : Type} (f : nat -> Y) (xs : list X)
    (a i : nat) (x : X) :
  nth_error xs i = Some x ->
  In (f (a + i)%nat, x) (combine (map f (seq a (length xs))) xs).
Proof.
  revert a i. induction xs as [|y xs IH]; intros a i Hi.
  - destruct i; discriminate.
  - destruct i as [|i]; cbn in Hi |- *.
    + injection Hi as ->. left. now rewrite Nat.add_0_r.
    + right. replace (a + S i)%nat with (S a + i)%nat by lia. now apply IH.
Qed.

Lemma in_enumerate {X : Type} (xs : list X) (i : nat) (x : X) :
  nth_error xs i = Some x -> In (Z.of_nat i, x) (enumerate xs).
Proof.
  intros Hi. unfold enumerate, range. rewrite Nat2Z.id.
  exact (in_combine_map_seq Z.of_nat xs 0 i x Hi).
Qed.

Lemma enumerate_inv {X : Type} (xs : list X) (i : Z) (x : X) :
  In (i, x) (enumerate xs) ->
  exists n, i = Z.of_nat n /\ nth_error xs n = Some x.
Proof.
  unfold enumerate, range. rewrite Nat2Z.id.
  assert (H : forall a, In (i, x) (combine (map Z.of_nat (seq a (length xs))) xs) ->
                        exists n, i = Z.of_nat (a + n) /\ nth_error xs n = Some x).
  { induction xs as [|y xs IH]; intros a Hin; [contradiction|].
    cbn in Hin. destruct Hin as [Heq | Hin].
    - injection Heq as <- <-. exists 0%nat. now rewrite Nat.add_0_r.
    - destruct (IH (S a) Hin) as [n [-> Hn]]. exists (S n).
      split; [f_equal; lia | exact Hn]. }
  intros Hin. destruct (H 0%nat Hin) as [n [-> Hn]]. now exists n.
Qed.

Lemma Forall2_nth_R (P : R -> R -> Prop) (xs ys : list R) (j : nat) :
  Forall2 P xs ys -> (j < length xs)%nat -> P (nth j xs 0) (nth j ys 0).
Proof.
  intros H. revert j. induction H as [|x y xs ys Hxy _ IH]; intros j Hj.
  - cbn in Hj. lia.
  - destruct j as [|j]; cbn in *; [exact Hxy | apply IH; lia].
Qed.

(** Entry [j] of column [k] of the variable's value is [v j k] when the
    column lies within the matrix. *)
Lemma col_at_value_of (v : valuation) (q : MXvar) (k : Z) (j : nat) :
  (0 <= k < mx_cols q)%Z -> (j < mx_rows q)%nat ->
  nth j (col_at k (value_of v q)) 0 = v j (Z.to_nat k).
Proof.
  intros Hk Hj. unfold col_at, py_index.
  destruct (Z.ltb_spec k 0) as [Hneg | _]; [lia|].
  unfold column, value_of. rewrite map_map.
  rewrite (nth_map_seq _ 0 (mx_rows q) j Hj).
  apply nth_map_seq. lia.
Qed.

Lemma col_at_value_of_length (v : valuation) (q : MXvar) (k : Z) :
  length (col_at k (value_of v q)) = mx_rows q.
Proof.
  unfold col_at, column, value_of. now rewrite !length_map, length_seq.
Qed.

(** A pinned index lies within the matrix when the step count is not
    negative. *)
Lemma pinned_index_in_range (n i : nat) (steps : Z) :
  (i < n)%nat -> (0 <= steps)%Z ->
  (0 <= Z.of_nat i * steps < Spec.sample_count n steps)%Z.
Proof. unfold Spec.sample_count. intros Hi Hs. nia. Qed.

(** The pinning constraint of waypoint [i] is among the constraints. *)
Lemma pin_in_setup (waypoints : list (list R)) (steps : Z)
    (joint_limits : list (R * R)) (obstacles : list obstacle) (d_min : R)
    (i : nat) (wp : list R) :
  nth_error waypoints i = Some wp ->
  In (pin_constraint
        {| mx_rows := 6; mx_cols := Spec.sample_count (length waypoints) steps |}
        (Z.of_nat i * steps) wp)
     (constraints
        (fst (fst (setup_optimization waypoints steps joint_limits
                                      obstacles d_min)))).
Proof.
  intros Hi. rewrite setup_optimization_unfold. cbn [fst constraints].
  apply in_or_app. right. apply in_or_app. left.
  apply in_map_iff. exists (Z.of_nat i, wp). split; [reflexivity|].
  now apply in_enumerate.
Qed.

(** A valuation that satisfies the constraints up to [eps] has the pinned
    column within [eps] of the waypoint. *)
Lemma feasible_pinned_column (waypoints : list (list R)) (steps : Z)
    (joint_limits : list (R * R)) (obstacles : list obstacle) (d_min : R)
    (i : nat) (wp : list R) (eps : R) (v : valuation) :
  nth_error waypoints i = Some wp ->
  feasible eps
    (fst (fst (setup_optimization waypoints steps joint_limits
                                  obstacles d_min))) v ->
  Forall2 (fun x y => Rabs (x - y) <= eps)
    (col_at (Z.of_nat i * steps)
       (value_of v {| mx_rows := 6;
                      mx_cols := Spec.sample_count (length waypoints) steps |}))
    wp.
Proof.
  intros Hi Hfeas. unfold feasible in Hfeas. rewrite Forall_forall in Hfeas.
  exact (Hfeas _ (pin_in_setup waypoints steps joint_limits obstacles d_min
                    i wp Hi)).
Qed.

(** Converting two columns to degrees scales their distance by
    [180 / PI]. *)
Lemma rad2deg_near (eps : R) (xs ys : list R) :
  Forall2 (fun x y => Rabs (x - y) <= eps) xs ys ->
  Forall2 (fun x y => Rabs (x - y) <= eps * (180 / PI))
          (map rad2deg1 xs) (map rad2deg1 ys).
Proof.
  induction 1 as [|x y xs ys Hxy _ IH]; cbn [map]; constructor;
    [|exact IH].
  assert (Hpos : 0 < 180 / PI)
    by (apply Rdiv_lt_0_compat; [lra | exact PI_RGT_0]).
  replace (rad2deg1 x - rad2deg1 y) with ((x - y) * (180 / PI))
    by (unfold rad2deg1; ring).
  rewrite Rabs_mult, (Rabs_pos_eq (180 / PI)) by lra.
  apply Rmult_le_compat_r; [lra | exact Hxy].
Qed.

(** Entry [(j, k)] of the returned matrix is the degree value of entry
    [(j, k)] of the valuation. *)
Lemma rad2deg_value_of_entry (v : valuation) (q : MXvar) (j : nat) (k : Z) :
  (j < mx_rows q)%nat -> (0 <= k < mx_cols q)%Z ->
  nth (Z.to_nat k) (nth j (rad2deg (value_of v q)) []) 0
  = rad2deg1 (v j (Z.to_nat k)).
Proof.
  intros Hj Hk. unfold rad2deg, value_of. rewrite map_map.
  rewrite (nth_map_seq _ [] (mx_rows q) j Hj). rewrite map_map.
  apply (nth_map_seq (fun x => rad2deg1 (v j x))). lia.
Qed.

(** C3.  For every waypoint [i] of the request the assembled problem
    contains the equality constraint [q[:, i * steps] == waypoint_i] (a
    constraint, not a term of the objective); the index lies within the
    matrix; every valuation that satisfies the constraints up to a
    tolerance [eps] has its column [i * steps] within [eps] of the
    waypoint, entry by entry; and when the backend answers the solve step
    with such a valuation, for a request of at least two waypoints and a
    positive step count, [solve_and_print_trajectory] returns a matrix
    whose column [i * steps] is, entry by entry, within [eps * 180 / PI]
    of the waypoint in degrees. *)
Theorem waypoints_are_pinned (waypoints : list (list R)) (steps : Z)
    (joint_limits : list (R * R)) (obstacles : list obstacle) (d_min : R)
    (i : nat) (wp : list R) :
  nth_error waypoints i = Some wp ->
  let '(opti, q, N) :=
    setup_optimization waypoints steps joint_limits obstacles d_min in
  let idx := (Z.of_nat i * steps)%Z in
  In (pin_constraint q idx wp) (constraints opti) /\
  ((0 <= steps)%Z -> (0 <= idx < N)%Z) /\
  (forall eps v,
      feasible eps opti v ->
      Forall2 (fun x y => Rabs (x - y) <= eps) (col_at idx (value_of v q)) wp /\
      ((0 <= steps)%Z ->
       forall j, (j < 6)%nat ->
                 Rabs (v j (Z.to_nat idx) - nth j wp 0) <= eps)) /\
  (forall backend eps v,
      (2 <= length waypoints)%nat ->
      (0 < steps)%Z ->
      backend (opti_solver opti "ipopt") = Solution v ->
      feasible eps opti v ->
      exists M,
        outcome (run backend (solve_and_print_trajectory opti q N))
        = inl (Array2 M) /\
        Forall2 (fun x y => Rabs (x - y) <= eps * (180 / PI))
                (col_at idx M) (map rad2deg1 wp) /\
        forall j, (j < 6)%nat ->
                  Rabs (nth (Z.to_nat idx) (nth j M []) 0
                        - rad2deg1 (nth j wp 0))
                  <= eps * (180 / PI)).
Proof.
  intros Hi.
  pose proof (pin_in_setup waypoints steps joint_limits obstacles d_min
                i wp Hi) as Hin.
  pose proof (feasible_pinned_column waypoints steps joint_limits obstacles
                d_min i wp) as Hcol.
  rewrite setup_optimization_unfold in *. cbn [fst] in Hin, Hcol. cbv zeta.
  set (N := Spec.sample_count (length waypoints) steps) in *.
  set (q := {| mx_rows := 6; mx_cols := N |}) in *.
  assert (Hrange : (0 <= steps)%Z -> (0 <= Z.of_nat i * steps < N)%Z).
  { intros Hs. apply pinned_index_in_range; [|exact Hs].
    apply nth_error_Some. congruence. }
  assert (Hentry : forall eps v,
             Forall2 (fun x y => Rabs (x - y) <= eps)
                     (col_at (Z.of_nat i * steps) (value_of v q)) wp ->
             (0 <= steps)%Z ->
             forall j, (j < 6)%nat ->
               Rabs (v j (Z.to_nat (Z.of_nat i * steps)) - nth j wp 0) <= eps).
  { intros eps v Hc Hs j Hj.
    pose proof (Forall2_nth_R _ _ _ j Hc) as Hnth.
    rewrite col_at_value_of_length in Hnth. specialize (Hnth Hj).
    rewrite col_at_value_of in Hnth;
      [exact Hnth | now apply Hrange | exact Hj]. }
  split; [exact Hin|]. split; [exact Hrange|]. split.
  - intros eps v Hfeas. specialize (Hcol eps v Hi Hfeas).
    split; [exact Hcol|]. now apply Hentry.
  - intros backend eps v Hlen Hsteps Hb Hfeas.
    specialize (Hcol eps v Hi Hfeas).
    assert (HN : (2 <= N)%Z) by (unfold N, Spec.sample_count; nia).
    exists (rad2deg (value_of v q)).
    rewrite (solve_and_print_returns backend _ q N v Hb)
      by (cbn [mx_rows mx_cols q]; lia).
    split; [reflexivity|]. split.
    + rewrite col_at_rad2deg. now apply rad2deg_near.
    + intros j Hj.
      rewrite rad2deg_value_of_entry
        by (cbn [mx_rows mx_cols q]; first [exact Hj | apply Hrange; lia]).
      assert (Hpos : 0 < 180 / PI)
        by (apply Rdiv_lt_0_compat; [lra | exact PI_RGT_0]).
      replace (rad2deg1 (v j (Z.to_nat (Z.of_nat i * steps)))
               - rad2deg1 (nth j wp 0))
        with ((v j (Z.to_nat (Z.of_nat i * steps)) - nth j wp 0)
              * (180 / PI))
        by (unfold rad2deg1; ring).
      rewrite Rabs_mult, (Rabs_pos_eq (180 / PI)) by lra.
      apply Rmult_le_compat_r; [lra|].
      apply (Hentry eps v Hcol); [lia | exact Hj].
Qed.

End Pinning.

(* ================================================================== *)
(** * Forward kinematics *)
(* ================================================================== *)

Section Kinematics.
Import Casadi Planner NLP.

(** Equality of explicit matrices, entry by entry. *)
Ltac mat_split :=
  repeat match goal with
         | |- cons _ _ = cons _ _ => apply f_equal2
         | |- @nil _ = @nil _ => reflexivity
         end.

(** Replace the innermost product of two explicit matrices by its value. *)
Ltac step C :=
  match goal with
  | |- context [mtimes ?A ?B] =>
      lazymatch A with
      | context [mtimes _ _] => fail
      | _ => replace (mtimes A B) with C by (cbn; mat_split; lra)
      end
  end.

(** The matrix written out in [dh_transform] is the product of the four
    elementary transforms. *)
Lemma dh_transform_is_product (theta d a alpha : R) :
  dh_transform theta d a alpha = Spec.dh_product theta d a alpha.
Proof.
  unfold dh_transform, Spec.dh_product, Spec.Rz, Spec.Tz, Spec.Tx, Spec.Rx,
    vertcat, horzcat.
  cbn -[cos sin]. mat_split; ring.
Qed.

Lemma tcp_offset_is_translation : tcp_offset = Spec.Tz 0.200.
Proof. reflexivity. Qed.

Lemma mtimes_nrows (A B : matrix) : length (mtimes A B) = length A.
Proof. unfold mtimes. now rewrite length_map. Qed.

Lemma slice_is_translation (M : matrix) :
  length M = 4%nat -> slice_rows_of_col M 0 3 3 = Spec.translation M.
Proof.
  destruct M as [|r0 [|r1 [|r2 [|r3 [|r4 M]]]]]; try discriminate.
  reflexivity.
Qed.

Lemma fk_transform_nrows (q : list R) : length (fk_transform q) = 4%nat.
Proof.
  unfold fk_transform. cbn [fold_left seq]. now rewrite !mtimes_nrows.
Qed.

(** The link transforms at joint angle zero, for the three twists of the
    arm. *)
Lemma dh_zero_flat (d a : R) :
  dh_transform 0 d a 0
  = [[1; 0; 0; a]; [0; 1; 0; 0]; [0; 0; 1; d]; [0; 0; 0; 1]].
Proof.
  unfold dh_transform, vertcat, horzcat. rewrite cos_0, sin_0. mat_split; lra.
Qed.

Lemma dh_zero_up (d a : R) :
  dh_transform 0 d a (PI / 2)
  = [[1; 0; 0; a]; [0; 0; -1; 0]; [0; 1; 0; d]; [0; 0; 0; 1]].
Proof.
  unfold dh_transform, vertcat, horzcat.
  rewrite cos_0, sin_0, cos_PI2, sin_PI2. mat_split; lra.
Qed.

Lemma dh_zero_down (d a : R) :
  dh_transform 0 d a (- PI / 2)
  = [[1; 0; 0; a]; [0; 0; 1; 0]; [0; -1; 0; d]; [0; 0; 0; 1]].
Proof.
  unfold dh_transform, vertcat, horzcat.
  replace (- PI / 2) with (- (PI / 2)) by lra.
  rewrite cos_neg, sin_neg, cos_0, sin_0, cos_PI2, sin_PI2. mat_split; lra.
Qed.

(** The arm at the zero pose: the code's chain. *)
Lemma forward_kinematics_zeros :
  forward_kinematics zeros6 = [-1.1843; -0.4561; 0.0116].
Proof.
  unfold forward_kinematics, fk_transform, zeros6.
  cbn [fold_left seq nth fk_d fk_a fk_alpha].
  rewrite !dh_zero_up, !dh_zero_flat, dh_zero_down.
  unfold tcp_offset, vertcat, horzcat.
  step ([[1; 0; 0; 0]; [0; 0; -1; 0]; [0; 1; 0; 0.1273]; [0; 0; 0; 1]] : matrix).
  step ([[1; 0; 0; -0.612]; [0; 0; -1; 0]; [0; 1; 0; 0.1273]; [0; 0; 0; 1]] : matrix).
  step ([[1; 0; 0; -1.1843]; [0; 0; -1; 0]; [0; 1; 0; 0.1273]; [0; 0; 0; 1]] : matrix).
  step ([[1; 0; 0; -1.1843]; [0; -1; 0; -0.1639]; [0; 0; -1; 0.1273]; [0; 0; 0; 1]] : matrix).
  step ([[1; 0; 0; -1.1843]; [0; 0; -1; -0.1639]; [0; 1; 0; 0.0116]; [0; 0; 0; 1]] : matrix).
  step ([[1; 0; 0; -1.1843]; [0; 0; -1; -0.2561]; [0; 1; 0; 0.0116]; [0; 0; 0; 1]] : matrix).
  step ([[1; 0; 0; -1.1843]; [0; 0; -1; -0.4561]; [0; 1; 0; 0.0116]; [0; 0; 0; 1]] : matrix).
  reflexivity.
Qed.

(** The arm at the zero pose: the chain multiplied on the left. *)
Lemma fk_left_multiplied_zeros :
  Spec.fk_left_multiplied zeros6 = [-1.1843; -0.0361; 0.3352].
Proof.
  unfold Spec.fk_left_multiplied, Spec.link, zeros6.
  cbn [fold_left seq nth fk_d fk_a fk_alpha].
  rewrite <- !dh_transform_is_product.
  rewrite !dh_zero_up, !dh_zero_flat, dh_zero_down.
  unfold Spec.Tz.
  step ([[1; 0; 0; 0]; [0; 0; -1; 0]; [0; 1; 0; 0.1273]; [0; 0; 0; 1]] : matrix).
  step ([[1; 0; 0; -0.612]; [0; 0; -1; 0]; [0; 1; 0; 0.1273]; [0; 0; 0; 1]] : matrix).
  step ([[1; 0; 0; -1.1843]; [0; 0; -1; 0]; [0; 1; 0; 0.1273]; [0; 0; 0; 1]] : matrix).
  step ([[1; 0; 0; -1.1843]; [0; -1; 0; -0.1273]; [0; 0; -1; 0.1639]; [0; 0; 0; 1]] : matrix).
  step ([[1; 0; 0; -1.1843]; [0; 0; -1; 0.1639]; [0; 1; 0; 0.243]; [0; 0; 0; 1]] : matrix).
  step ([[1; 0; 0; -1.1843]; [0; 0; -1; 0.1639]; [0; 1; 0; 0.3352]; [0; 0; 0; 1]] : matrix).
  step ([[1; 0; 0; -1.1843]; [0; 0; -1; -0.0361]; [0; 1; 0; 0.3352]; [0; 0; 0; 1]] : matrix).
  reflexivity.
Qed.

(** C5 (as the code has it).  For every six joint angles,
    [forward_kinematics] starts from the 4 x 4 identity, multiplies the
    accumulated transform on the RIGHT by each link's transform in joint
    order, [I . T1 . T2 . T3 . T4 . T5 . T6], where each
    [T_i = Rz(theta_i) . Tz(d_i) . Tx(a_i) . Rx(alpha_i)] is written out
    with cosines and sines, multiplies on the right by the offset
    transform, a translation by 0.200 along the tool's Z, and returns the
    three entries [0..2, 3] of the result. *)
Theorem forward_kinematics_chain (q0 q1 q2 q3 q4 q5 : R) :
  let q := [q0; q1; q2; q3; q4; q5] in
  let T := Spec.link q in
  forward_kinematics q = Spec.fk_right_multiplied q /\
  forward_kinematics q
  = Spec.translation
      (mtimes
         (mtimes (mtimes (mtimes (mtimes (mtimes (mtimes (eye 4) (T 0%nat))
                                                 (T 1%nat)) (T 2%nat))
                                 (T 3%nat)) (T 4%nat)) (T 5%nat))
         (Spec.Tz 0.200)) /\
  (forall theta d a alpha,
      dh_transform theta d a alpha = Spec.dh_product theta d a alpha) /\
  tcp_offset = Spec.Tz 0.200 /\
  length (forward_kinematics q) = 3%nat.
Proof.
  intros q T.
  assert (E : forward_kinematics q = Spec.fk_right_multiplied q).
  { unfold forward_kinematics. rewrite slice_is_translation
      by apply fk_transform_nrows.
    unfold fk_transform, Spec.fk_right_multiplied, Spec.link.
    cbn [fold_left seq]. rewrite <- !dh_transform_is_product.
    now rewrite tcp_offset_is_translation. }
  refine (conj E (conj _ (conj dh_transform_is_product
                               (conj tcp_offset_is_translation _)))).
  - rewrite E. reflexivity.
  - rewrite E. reflexivity.
Qed.

(** C5, as worded: multiplying each link transform on the left of the
    accumulated transform gives another position already at the zero
    pose. *)
Lemma left_multiplied_chain_differs :
  forward_kinematics zeros6 <> Spec.fk_left_multiplied zeros6.
Proof.
  rewrite forward_kinematics_zeros, fk_left_multiplied_zeros.
  intros H. apply (f_equal (fun l => nth 1 l 0)) in H. cbn [nth] in H. lra.
Qed.

End Kinematics.

(* ================================================================== *)
(** * Obstacle clearance *)
(* ================================================================== *)

Section Clearance.
Import Casadi Planner NLP.

Lemma axis_outside_inside (lo hi p : R) :
  lo <= p <= hi -> Spec.axis_outside lo hi p = 0.
Proof.
  intros [Hlo Hhi]. unfold Spec.axis_outside.
  rewrite (Rmax_right (lo - p) 0) by lra.
  rewrite (Rmax_right (p - hi) 0) by lra. lra.
Qed.

Lemma outside_dist_sq_axes (p : list R) (xmin xmax ymin ymax zmin zmax : R) :
  outside_dist_sq p (xmin, xmax, ymin, ymax, zmin, zmax)
  = sq (Spec.axis_outside xmin xmax (nth 0 p 0))
    + sq (Spec.axis_outside ymin ymax (nth 1 p 0))
    + sq (Spec.axis_outside zmin zmax (nth 2 p 0)).
Proof. reflexivity. Qed.

Lemma outside_dist_sq_inside (p : list R) (box : obstacle) :
  Spec.inside p box -> outside_dist_sq p box = 0.
Proof.
  destruct box as [[[[[xmin xmax] ymin] ymax] zmin] zmax].
  intros [Hx [Hy Hz]]. rewrite outside_dist_sq_axes.
  rewrite !axis_outside_inside by assumption. unfold sq. lra.
Qed.

(** C1.  For every sample column [k] and every obstacle box of the
    request, the assembled problem contains the constraint that, with
    [p = forward_kinematics(q[:,k])], the sum over the three axes of the
    squares of [max(boxMin - p, 0) + max(p - boxMax, 0)] is at least
    [d_min^2]; this expression is exactly 0 when [p] lies inside the box,
    so for a positive [d_min] a valuation whose column [k] maps inside the
    box violates the constraint and is infeasible. *)
Theorem clearance_constraint_form (waypoints : list (list R)) (steps : Z)
    (joint_limits : list (R * R)) (obstacles : list obstacle) (d_min : R)
    (k : Z) (xmin xmax ymin ymax zmin zmax : R) :
  In k (range (Spec.sample_count (length waypoints) steps)) ->
  In (xmin, xmax, ymin, ymax, zmin, zmax) obstacles ->
  let box := (xmin, xmax, ymin, ymax, zmin, zmax) in
  let '(opti, q, N) :=
    setup_optimization waypoints steps joint_limits obstacles d_min in
  In (clearance_constraint q d_min k box) (constraints opti) /\
  (forall v,
      holds 0 v (clearance_constraint q d_min k box) <->
      let p := forward_kinematics (col_at k (sym q v)) in
      sq (Spec.axis_outside xmin xmax (nth 0 p 0))
      + sq (Spec.axis_outside ymin ymax (nth 1 p 0))
      + sq (Spec.axis_outside zmin zmax (nth 2 p 0)) >= sq d_min) /\
  (forall p, Spec.inside p box -> outside_dist_sq p box = 0) /\
  (forall v,
      0 < d_min ->
      Spec.inside (forward_kinematics (col_at k (sym q v))) box ->
      ~ holds 0 v (clearance_constraint q d_min k box) /\
      ~ feasible 0 opti v).
Proof.
  intros Hk Hbox box. rewrite setup_optimization_unfold.
  set (N := Spec.sample_count (length waypoints) steps) in *.
  set (q := {| mx_rows := 6; mx_cols := N |}).
  assert (Hin : In (clearance_constraint q d_min k box)
                   (map (limit_constraint q joint_limits) (seq 0 6)
                    ++ map (fun iwp => pin_constraint q (fst iwp * steps) (snd iwp))
                           (enumerate waypoints)
                    ++ flat_map (fun k => map (clearance_constraint q d_min k) obstacles)
                                (range N))).
  { apply in_or_app. right. apply in_or_app. right.
    apply in_flat_map. exists k. split; [exact Hk|].
    apply in_map. exact Hbox. }
  assert (Hholds : forall v,
             holds 0 v (clearance_constraint q d_min k box) <->
             outside_dist_sq (forward_kinematics (col_at k (sym q v))) box
             >= sq d_min).
  { intros v. cbn [holds clearance_constraint]. now rewrite Rminus_0_r. }
  split; [exact Hin|]. split; [|split].
  - intros v. rewrite Hholds. unfold box. now rewrite outside_dist_sq_axes.
  - exact (fun p => outside_dist_sq_inside p box).
  - intros v Hd Hinside.
    assert (Hviol : ~ holds 0 v (clearance_constraint q d_min k box)).
    { rewrite Hholds, (outside_dist_sq_inside _ _ Hinside).
      unfold sq. nra. }
    split; [exact Hviol|]. intros Hfeas. apply Hviol.
    unfold feasible in Hfeas. rewrite Forall_forall in Hfeas.
    apply Hfeas. exact Hin.
Qed.

Lemma clearance_constraint_form_witness :
  let '(opti, q, N) :=
    setup_optimization [zeros6; zeros6] 3 (repeat (- PI, PI) 6)
                       [(-2, 0, -1, 0, 0, 1)] 0.05 in
  ~ feasible 0 opti zero_valuation.
Proof.
  pose proof (clearance_constraint_form [zeros6; zeros6] 3
                (repeat (- PI, PI) 6) [(-2, 0, -1, 0, 0, 1)] 0.05
                0%Z (-2) 0 (-1) 0 0 1
                (or_introl eq_refl) (or_introl eq_refl)) as H.
  cbv zeta in H. rewrite setup_optimization_unfold in H |- *.
  destruct H as [_ [_ [_ H]]].
  destruct (H zero_valuation) as [_ Hinfeasible]; [lra | | exact Hinfeasible].
  match goal with
  | |- Spec.inside (forward_kinematics ?c) _ => change c with zeros6
  end.
  rewrite forward_kinematics_zeros. cbn. lra.
Defined.

End Clearance.

(* ================================================================== *)
(** * The orchestrator *)
(* ================================================================== *)

Section Orchestrator.
Import Casadi Planner NLP.

Lemma submitted_solve_and_print (opti : Opti) (q : MXvar) (n : Z) :
  submitted (solve_and_print_trajectory opti q n)
  = Some (opti_solver opti "ipopt"%string).
Proof. reflexivity. Qed.

(** The solve step calls the backend once, whatever it answers. *)
Lemma solver_called_once (backend : Opti -> solver_reply)
    (opti : Opti) (q : MXvar) (n : Z) :
  solver_calls (run backend (solve_and_print_trajectory opti q n)) = 1%nat.
Proof.
  destruct (backend (opti_solver opti "ipopt")) as [v | e] eqn:Hb.
  - unfold solve_and_print_trajectory, opti_solve.
    cbn [bind run print]. rewrite Hb. cbn [bind run].
    rewrite run_bind.
    pose proof (run_for_each_no_solve backend
                  (np_rad2deg (sol_value v q)) (range n)) as H.
    unfold solver_calls in *.
    destruct (run backend (for_each (range n) _)) as [[log k] [[] | e]];
      cbn [fst snd run] in *; now subst k.
  - now rewrite (solve_and_print_raises backend opti q n e Hb).
Qed.

Lemma enumerate_map {X Y : Type} (f : X -> Y) (xs : list X) :
  enumerate (map f xs) = map (fun ix => (fst ix, f (snd ix))) (enumerate xs).
Proof.
  unfold enumerate. rewrite length_map.
  generalize (range (Z.of_nat (length xs))) as ks.
  induction xs as [|x xs IH]; intros [|k ks]; cbn; try reflexivity.
  now rewrite IH.
Qed.

Lemma flat_map_singleton {X Y : Type} (f : X -> Y) (xs : list X) :
  flat_map (fun x => [f x]) xs = map f xs.
Proof.
  induction xs as [|x xs IH]; cbn; [reflexivity | now rewrite IH].
Qed.

(** The problem the orchestrator submits, in closed form. *)
Lemma submitted_problem (waypoints_deg : list (list R)) :
  let N := Spec.sample_count (length waypoints_deg) 3 in
  let q := {| mx_rows := 6; mx_cols := N |} in
  submitted (optimize_from_waypoints_deg waypoints_deg)
  = Some
      {| variables := [q];
         objective :=
           Some (fun v => sumsqr (msub (cols_from_1 (sym q v))
                                       (cols_but_last (sym q v))));
         constraints :=
           map (fun j => Bounded (- PI) (fun v => row_at j (sym q v)) PI)
               (seq 0 6)
           ++ map (fun iwp => pin_constraint q (fst iwp * 3)
                                (radians (snd iwp)))
                  (enumerate waypoints_deg)
           ++ map (fun k => clearance_constraint q 0.05 k fixed_box)
                  (range N);
         solver_name := Some "ipopt"%string |}.
Proof.
  intros N q. rewrite optimize_from_waypoints_deg_unfold.
  rewrite submitted_solve_and_print, setup_optimization_unfold.
  rewrite length_map. fold N. fold q.
  cbn [fst opti_solver variables objective constraints].
  rewrite enumerate_map, map_map.
  rewrite (flat_map_singleton (fun k => clearance_constraint q 0.05 k fixed_box)).
  reflexivity.
Qed.

(** ** A request the zero valuation solves

    Two waypoints at the zero pose: the valuation that is zero everywhere
    satisfies every submitted constraint exactly. *)

Lemma nth_const_zero {X : Type} (xs : list X) (i : nat) :
  nth i (map (fun _ => 0) xs) 0 = 0.
Proof.
  revert i. induction xs as [|x xs IH]; intros [|i]; cbn; auto.
Qed.

Lemma col_at_zero_valuation (k n : Z) :
  col_at k (value_of zero_valuation {| mx_rows := 6; mx_cols := n |}) = zeros6.
Proof.
  unfold col_at. generalize (py_index (ncols (value_of zero_valuation
    {| mx_rows := 6; mx_cols := n |})) k) as c. intros c.
  unfold column, value_of, zero_valuation. cbn [mx_rows mx_cols].
  rewrite map_map. cbn [seq map]. now rewrite !nth_const_zero.
Qed.

Lemma row_at_zero_valuation (j : nat) (q : MXvar) :
  Forall (fun x => x = 0) (row_at j (value_of zero_valuation q)).
Proof.
  unfold row_at, value_of, zero_valuation.
  destruct (Nat.lt_ge_cases j (mx_rows q)) as [Hj | Hj].
  - rewrite (nth_map_seq _ [] (mx_rows q) j Hj).
    apply Forall_forall. intros x Hx. apply in_map_iff in Hx.
    now destruct Hx as [k [<- _]].
  - rewrite nth_overflow by now rewrite length_map, length_seq.
    constructor.
Qed.

Lemma zero_pose_clear_of_fixed_box :
  outside_dist_sq (forward_kinematics zeros6) fixed_box >= sq 0.05 - 0.
Proof.
  rewrite forward_kinematics_zeros.
  unfold outside_dist_sq, fixed_box, fmax, sq. cbn [nth].
  unfold Rmax. repeat destruct Rle_dec; try lra; nra.
Qed.

Lemma zero_valuation_feasible (o : Opti) :
  submitted (optimize_from_waypoints_deg [zeros6; zeros6]) = Some o ->
  feasible 0 o zero_valuation.
Proof.
  intros Hsub. rewrite submitted_problem in Hsub.
  apply Some_eq_inv in Hsub. subst o.
  unfold feasible. cbn [constraints].
  apply Forall_app. split; [|apply Forall_app; split].
  - apply Forall_forall. intros c Hc. apply in_map_iff in Hc.
    destruct Hc as [j [<- _]]. cbn [holds]. unfold sym.
    eapply Forall_impl; [|apply row_at_zero_valuation].
    cbv beta. intros x ->. pose proof PI_RGT_0. lra.
  - apply Forall_forall. intros c Hc. apply in_map_iff in Hc.
    destruct Hc as [[i wp] [<- Hiw]]. cbn [fst snd holds pin_constraint].
    unfold sym. rewrite col_at_zero_valuation.
    apply enumerate_inv in Hiw. destruct Hiw as [n [_ Hn]].
    assert (Hwp : wp = zeros6).
    { destruct n as [|[|n]]; cbn in Hn; try congruence.
      destruct n; discriminate. }
    subst wp. unfold zeros6, radians. cbn [map].
    repeat constructor;
      unfold radians1; rewrite Rmult_0_l, Rminus_0_r, Rabs_R0; lra.
  - apply Forall_forall. intros c Hc. apply in_map_iff in Hc.
    destruct Hc as [k [<- _]]. cbn [holds clearance_constraint].
    unfold sym. rewrite col_at_zero_valuation.
    exact zero_pose_clear_of_fixed_box.
Qed.

(** C9.  Whatever the request, the problem the orchestrator submits is
    built with the same written-in parameters: three steps between
    waypoints (pins at columns [3 i], [(n - 1) * 3 + 1] columns), the
    limits [-PI, PI] on each of the six joints, the one fixed box on every
    column, and the clearance 0.05 (squared: 0.0025). *)
Theorem compiled_in_parameters (waypoints_deg : list (list R)) :
  let N := ((Z.of_nat (length waypoints_deg) - 1) * 3 + 1)%Z in
  let q := {| mx_rows := 6; mx_cols := N |} in
  exists o,
    submitted (optimize_from_waypoints_deg waypoints_deg) = Some o /\
    variables o = [q] /\
    constraints o
    = map (fun j => Bounded (- PI) (fun v => row_at j (sym q v)) PI) (seq 0 6)
      ++ map (fun iwp => pin_constraint q (fst iwp * 3) (radians (snd iwp)))
             (enumerate waypoints_deg)
      ++ map (fun k => clearance_constraint q 0.05 k fixed_box) (range N) /\
    (forall lo e hi, In (Bounded lo e hi) (constraints o) ->
                     lo = - PI /\ hi = PI) /\
    (forall e rhs, In (Ge e rhs) (constraints o) ->
                   rhs = 0.0025 /\
                   exists k, In k (range N) /\
                     e = fun v => outside_dist_sq
                                    (forward_kinematics (col_at k (sym q v)))
                                    (-0.095, 0.115, -0.76, -0.70, 0.125, 0.325)) /\
    (forall e rhs, In (EqVec e rhs) (constraints o) ->
                   exists i wp, nth_error waypoints_deg i = Some wp /\
                     rhs = radians wp /\
                     e = fun v => col_at (Z.of_nat i * 3) (sym q v)).
Proof.
  intros N q. eexists. split; [apply submitted_problem|].
  fold (Spec.sample_count (length waypoints_deg) 3). fold N. fold q.
  cbn [variables constraints].
  split; [reflexivity|]. split; [reflexivity|].
  split; [|split].
  - intros lo e hi Hin.
    apply in_app_or in Hin. destruct Hin as [Hin | Hin].
    + apply in_map_iff in Hin. destruct Hin as [j [Heq _]].
      apply Bounded_inv in Heq. destruct Heq as [<- [_ <-]]. now split.
    + apply in_app_or in Hin. destruct Hin as [Hin | Hin];
        apply in_map_iff in Hin; destruct Hin as [x [Heq _]]; discriminate.
  - intros e rhs Hin.
    apply in_app_or in Hin. destruct Hin as [Hin | Hin].
    { apply in_map_iff in Hin. destruct Hin as [x [Heq _]]. discriminate. }
    apply in_app_or in Hin. destruct Hin as [Hin | Hin].
    { apply in_map_iff in Hin. destruct Hin as [x [Heq _]]. discriminate. }
    apply in_map_iff in Hin. destruct Hin as [k [Heq Hk]].
    unfold clearance_constraint in Heq.
    apply Ge_inv in Heq. destruct Heq as [<- <-].
    split; [unfold sq; lra|]. exists k. split; [exact Hk | reflexivity].
  - intros e rhs Hin.
    apply in_app_or in Hin. destruct Hin as [Hin | Hin].
    { apply in_map_iff in Hin. destruct Hin as [x [Heq _]]. discriminate. }
    apply in_app_or in Hin. destruct Hin as [Hin | Hin].
    2:{ apply in_map_iff in Hin. destruct Hin as [x [Heq _]]. discriminate. }
    apply in_map_iff in Hin. destruct Hin as [[i wp] [Heq Hiw]].
    unfold pin_constraint in Heq. cbn [fst snd] in Heq.
    apply EqVec_inv in Heq. destruct Heq as [<- <-].
    apply enumerate_inv in Hiw. destruct Hiw as [n [-> Hn]].
    exists n, wp. repeat split; assumption.
Qed.

(** C6, as worded, fails on a request of a single waypoint: the program is
    not a raise of [FormatError]; it submits a one-column problem, and the
    backend is called once. *)
Lemma single_waypoint_is_solved :
  ~ fails_fast_with "FormatError" (optimize_from_waypoints_deg [zeros6]) /\
  (exists o, submitted (optimize_from_waypoints_deg [zeros6]) = Some o /\
             variables o = [{| mx_rows := 6; mx_cols := 1 |}]) /\
  solver_calls (run (fun _ => Solution zero_valuation)
                    (optimize_from_waypoints_deg [zeros6])) = 1%nat.
Proof.
  split; [|split].
  - intros [msg H]. discriminate H.
  - eexists. split; [apply submitted_problem | reflexivity].
  - rewrite optimize_from_waypoints_deg_unfold. apply solver_called_once.
Qed.

(** C6 (as the code has it).  The planner checks nothing about the
    request and has no [FormatError]: for a request of one or more
    waypoints of six components each, a single waypoint included, it
    assembles the problem of [(n - 1) * 3 + 1] columns and calls the
    backend exactly once. *)
Theorem planner_does_not_validate (waypoints_deg : list (list R))
    (backend : Opti -> solver_reply) :
  waypoints_deg <> [] ->
  Forall (fun wp => length wp = 6%nat) waypoints_deg ->
  ~ fails_fast_with "FormatError" (optimize_from_waypoints_deg waypoints_deg) /\
  (exists o,
      submitted (optimize_from_waypoints_deg waypoints_deg) = Some o /\
      variables o
      = [{| mx_rows := 6;
            mx_cols := ((Z.of_nat (length waypoints_deg) - 1) * 3 + 1)%Z |}] /\
      (1 <= (Z.of_nat (length waypoints_deg) - 1) * 3 + 1)%Z) /\
  solver_calls (run backend (optimize_from_waypoints_deg waypoints_deg)) = 1%nat.
Proof.
  intros Hne Hdim. split; [|split].
  - intros [msg H]. rewrite optimize_from_waypoints_deg_unfold in H.
    discriminate H.
  - eexists. split; [apply submitted_problem|]. split; [reflexivity|].
    destruct waypoints_deg as [|wp rest]; [congruence|]. cbn [length]. lia.
  - rewrite optimize_from_waypoints_deg_unfold. apply solver_called_once.
Qed.

Lemma planner_does_not_validate_witness :
  ~ fails_fast_with "FormatError" (optimize_from_waypoints_deg [zeros6]) /\
  (exists o,
      submitted (optimize_from_waypoints_deg [zeros6]) = Some o /\
      variables o
      = [{| mx_rows := 6;
            mx_cols := ((Z.of_nat (length [zeros6]) - 1) * 3 + 1)%Z |}] /\
      (1 <= (Z.of_nat (length [zeros6]) - 1) * 3 + 1)%Z) /\
  solver_calls (run (fun _ => SolverError infeasible_error)
                    (optimize_from_waypoints_deg [zeros6])) = 1%nat.
Proof.
  apply (planner_does_not_validate [zeros6]
           (fun _ => SolverError infeasible_error)).
  - discriminate.
  - repeat constructor.
Defined.

(** C7, as worded, fails: an infeasible problem and an exhausted iteration
    budget reach the caller as the backend raised them, with one and the
    same exception class, which is neither [InfeasibleProblem] nor
    [ConvergenceFailure]. *)
Lemma failure_kinds_not_distinguished :
  let p := optimize_from_waypoints_deg [zeros6; nineties6] in
  outcome (run (fun _ => SolverError infeasible_error) p)
  = inr infeasible_error /\
  outcome (run (fun _ => SolverError nonconvergence_error) p)
  = inr nonconvergence_error /\
  exc_class infeasible_error = exc_class nonconvergence_error /\
  exc_class infeasible_error <> "InfeasibleProblem"%string /\
  exc_class nonconvergence_error <> "ConvergenceFailure"%string.
Proof.
  cbv zeta. rewrite optimize_from_waypoints_deg_unfold.
  rewrite (solve_and_print_raises _ _ _ _ infeasible_error eq_refl).
  rewrite (solve_and_print_raises _ _ _ _ nonconvergence_error eq_refl).
  repeat split; discriminate.
Qed.

(** C7 (as the code has it).  The orchestrator calls the backend exactly
    once, with no retry; when the backend fails, the exception it raised
    reaches the caller unchanged, whatever its class and message, and
    nothing is printed. *)
Theorem solver_failure_propagates (waypoints_deg : list (list R))
    (backend : Opti -> solver_reply) :
  exists o,
    submitted (optimize_from_waypoints_deg waypoints_deg) = Some o /\
    solver_calls (run backend (optimize_from_waypoints_deg waypoints_deg))
    = 1%nat /\
    forall e,
      backend o = SolverError e ->
      run backend (optimize_from_waypoints_deg waypoints_deg)
      = ([], 1%nat, inr e).
Proof.
  rewrite optimize_from_waypoints_deg_unfold.
  eexists. split; [apply submitted_solve_and_print|].
  split; [apply solver_called_once|].
  intros e He. now apply solve_and_print_raises.
Qed.

End Orchestrator.

(* ================================================================== *)
(** * The two copies *)
(* ================================================================== *)

(** C10.  The planner under [src/] and its copy under [src/prueba/]
    define the same functions: the same link and offset transforms, the
    same forward kinematics, the same assembled problem, the same solve
    step and the same orchestrator with the same constants. *)
Theorem copies_agree :
  (forall theta d a alpha,
      Planner.dh_transform theta d a alpha
      = Prueba.dh_transform theta d a alpha) /\
  Planner.tcp_offset = Prueba.tcp_offset /\
  (forall q, Planner.forward_kinematics q = Prueba.forward_kinematics q) /\
  (forall waypoints steps joint_limits obstacles d_min,
      Planner.setup_optimization waypoints steps joint_limits obstacles d_min
      = Prueba.setup_optimization waypoints steps joint_limits obstacles d_min) /\
  (forall opti q n,
      Planner.solve_and_print_trajectory opti q n
      = Prueba.solve_and_print_trajectory opti q n) /\
  (forall waypoints_deg,
      Planner.optimize_from_waypoints_deg waypoints_deg
      = Prueba.optimize_from_waypoints_deg waypoints_deg).
Proof.
  repeat split.
Qed.

(* ================================================================== *)
(** * Further properties of the assembled problem *)
(* ================================================================== *)

Section MoreLists.
Import Casadi.

Lemma in_range (n k : Z) : In k (range n) <-> (0 <= k < n)%Z.
Proof.
  unfold range. rewrite in_map_iff. split.
  - intros [i [<- Hi]]. apply in_seq in Hi. lia.
  - intros Hk. exists (Z.to_nat k). split; [lia|]. apply in_seq. lia.
Qed.

Lemma nth_error_last {X : Type} (l : list X) (x d : X) :
  nth_error (x :: l) (length l) = Some (last (x :: l) d).
Proof.
  revert x. induction l as [|y l IH]; intros x; [reflexivity|].
  cbn [length nth_error]. rewrite (IH y). reflexivity.
Qed.

Lemma length_range (n : Z) : length (range n) = Z.to_nat n.
Proof. unfold range. now rewrite length_map, length_seq. Qed.

Lemma length_enumerate {X : Type} (xs : list X) :
  length (enumerate xs) = length xs.
Proof.
  unfold enumerate. rewrite length_combine, length_range, Nat2Z.id. lia.
Qed.

Lemma length_flat_map_const {X Y : Type} (f : X -> list Y) (xs : list X)
    (m : nat) :
  (forall x, length (f x) = m) -> length (flat_map f xs) = (length xs * m)%nat.
Proof.
  intros Hf. induction xs as [|x xs IH]; [reflexivity|].
  cbn [flat_map length]. rewrite length_app, Hf, IH. lia.
Qed.

End MoreLists.

Section MoreAssembly.
Import Casadi Planner NLP Geometry.

Variables (waypoints : list (list R)) (steps : Z)
          (joint_limits : list (R * R)) (obstacles : list obstacle)
          (d_min : R).

Let N : Z := Spec.sample_count (length waypoints) steps.
Let q : MXvar := {| mx_rows := 6; mx_cols := N |}.
Let opti : Opti :=
  fst (fst (setup_optimization waypoints steps joint_limits obstacles d_min)).

Lemma setup_constraints :
  constraints opti
  = map (limit_constraint q joint_limits) (seq 0 6)
    ++ map (fun iwp => pin_constraint q (fst iwp * steps) (snd iwp))
           (enumerate waypoints)
    ++ flat_map (fun k => map (clearance_constraint q d_min k) obstacles)
                (range N).
Proof.
  unfold opti. rewrite setup_optimization_unfold. reflexivity.
Qed.

Lemma limit_in_setup (j : nat) :
  (j < 6)%nat -> In (limit_constraint q joint_limits j) (constraints opti).
Proof.
  intros Hj. rewrite setup_constraints. apply in_or_app. left.
  apply in_map. apply in_seq. lia.
Qed.

Lemma clearance_in_setup (k : Z) (box : obstacle) :
  In k (range N) -> In box obstacles ->
  In (clearance_constraint q d_min k box) (constraints opti).
Proof.
  intros Hk Hbox. rewrite setup_constraints.
  apply in_or_app. right. apply in_or_app. right.
  apply in_flat_map. exists k. split; [exact Hk | now apply in_map].
Qed.

(** X1.  The joint limits: every entry of the variable is bounded.  A
    valuation that satisfies the constraints up to [eps] keeps joint [j]
    of every column within the pair [joint_limits[j]], widened by
    [eps]. *)
Theorem limits_are_enforced (eps : R) (v : valuation) (j k : nat) :
  feasible eps opti v ->
  (j < 6)%nat ->
  (Z.of_nat k < N)%Z ->
  fst (nth j joint_limits (0, 0)) - eps <= v j k
  <= snd (nth j joint_limits (0, 0)) + eps.
Proof.
  intros Hfeas Hj Hk. unfold feasible in Hfeas.
  rewrite Forall_forall in Hfeas.
  pose proof (Hfeas _ (limit_in_setup j Hj)) as Hb.
  cbn [holds limit_constraint] in Hb. unfold sym, row_at, value_of in Hb.
  cbn [mx_rows mx_cols q] in Hb.
  rewrite (nth_map_seq _ [] 6 j Hj) in Hb.
  rewrite Forall_forall in Hb. apply Hb.
  apply in_map_iff. exists k. split; [reflexivity|]. apply in_seq. lia.
Qed.

(** X2.  The number of constraints: six limits, one pin per waypoint, and one
    clearance constraint per column and box. *)
Theorem constraint_count :
  length (constraints opti)
  = (6 + length waypoints + Z.to_nat N * length obstacles)%nat.
Proof.
  rewrite setup_constraints, !length_app, !length_map, length_seq,
    length_enumerate.
  rewrite (length_flat_map_const _ _ (length obstacles))
    by (intros k; apply length_map).
  rewrite length_range. lia.
Qed.

(** X3.  The first waypoint is pinned to the first column and the last
    waypoint to the last column, [N - 1]; with a positive step count two
    different waypoints are pinned to different columns. *)
Theorem endpoints_are_pinned (first : list R) (rest : list (list R)) :
  waypoints = first :: rest ->
  In (pin_constraint q 0 first) (constraints opti) /\
  In (pin_constraint q (N - 1) (last waypoints first)) (constraints opti) /\
  ((0 < steps)%Z ->
   forall i i', (i < i')%nat -> (Z.of_nat i * steps < Z.of_nat i' * steps)%Z).
Proof.
  intros Hw.
  assert (Hfirst : nth_error waypoints 0 = Some first)
    by (rewrite Hw; reflexivity).
  assert (Hlast : nth_error waypoints (length waypoints - 1)
                  = Some (last waypoints first)).
  { rewrite Hw. cbn [length].
    replace (S (length rest) - 1)%nat with (length rest) by lia.
    apply nth_error_last. }
  assert (Hidx : (Z.of_nat (length waypoints - 1) * steps)%Z = (N - 1)%Z).
  { unfold N, Spec.sample_count. rewrite Hw. cbn [length].
    replace (Z.of_nat (S (length rest) - 1))
      with (Z.of_nat (S (length rest)) - 1)%Z by lia.
    ring. }
  split; [|split].
  - exact (pin_in_setup waypoints steps joint_limits obstacles d_min
             0 first Hfirst).
  - rewrite <- Hidx.
    exact (pin_in_setup waypoints steps joint_limits obstacles d_min
             (length waypoints - 1) (last waypoints first) Hlast).
  - intros Hs i i' Hi. nia.
Qed.

End MoreAssembly.

Section MoreObjective.
Import Casadi Planner NLP Geometry.

Lemma sum_nonneg {X : Type} (g : X -> R) (xs : list X) :
  (forall x, 0 <= g x) -> 0 <= sum (map g xs).
Proof.
  intros Hg. unfold sum. induction xs as [|x xs IH]; cbn; [lra|].
  specialize (Hg x). lra.
Qed.

Lemma sum_nonneg_zero {X : Type} (g : X -> R) (xs : list X) :
  (forall x, 0 <= g x) ->
  (sum (map g xs) = 0 <-> forall x, In x xs -> g x = 0).
Proof.
  intros Hg. induction xs as [|x xs IH].
  - cbn. split; [intros _ y [] | reflexivity].
  - pose proof (sum_nonneg g xs Hg) as Hpos. pose proof (Hg x) as Hx.
    change (sum (map g (x :: xs))) with (g x + sum (map g xs)).
    split.
    + intros H y [<- | Hy]; [lra | apply IH; [lra | exact Hy]].
    + intros H.
      assert (Hrest : sum (map g xs) = 0)
        by (apply IH; intros y Hy; apply H; now right).
      rewrite (H x (or_introl eq_refl)), Hrest. lra.
Qed.

Lemma sum_squares_nonneg {X : Type} (f : X -> R) (xs : list X) :
  0 <= sum (map (fun x => f x * f x) xs).
Proof. apply sum_nonneg. intros x. nra. Qed.

Lemma sum_squares_zero {X : Type} (f : X -> R) (xs : list X) :
  sum (map (fun x => f x * f x) xs) = 0 <-> forall x, In x xs -> f x = 0.
Proof.
  rewrite (sum_nonneg_zero (fun x => f x * f x)) by (intros x; nra).
  split; intros H x Hx; specialize (H x Hx); nra.
Qed.

(** The value of the objective of the assembled problem. *)
Lemma setup_objective (waypoints : list (list R)) (steps : Z)
    (joint_limits : list (R * R)) (obstacles : list obstacle) (d_min : R) :
  exists f,
    objective (fst (fst (setup_optimization waypoints steps joint_limits
                                            obstacles d_min))) = Some f /\
    forall v,
      f v = Spec.smoothness
              (Z.to_nat (Spec.sample_count (length waypoints) steps)) v.
Proof.
  rewrite setup_optimization_unfold. cbn [fst objective].
  eexists. split; [reflexivity|]. intros v. cbv beta.
  unfold sym. rewrite dq_rows. cbn [mx_rows mx_cols].
  unfold sumsqr, Spec.smoothness, Spec.step_norm_sq.
  rewrite map_map.
  rewrite (map_ext _ (fun j =>
             sum (map (fun k => (v j (S k) - v j k) * (v j (S k) - v j k))
                      (seq 0 (Z.to_nat (Spec.sample_count (length waypoints) steps) - 1)))))
    by (intros j; now rewrite map_map).
  apply (sum_exchange
           (fun j k => (v j (S k) - v j k) * (v j (S k) - v j k))).
Qed.

(** X4.  The objective is never negative, and it is zero exactly for the
    valuations under which all columns of the variable are equal (the arm
    does not move); with a single column it is zero for every
    valuation. *)
Theorem objective_zero_iff_still (waypoints : list (list R)) (steps : Z)
    (joint_limits : list (R * R)) (obstacles : list obstacle) (d_min : R) :
  let n := Z.to_nat (Spec.sample_count (length waypoints) steps) in
  exists f,
    objective (fst (fst (setup_optimization waypoints steps joint_limits
                                            obstacles d_min))) = Some f /\
    forall v,
      0 <= f v /\
      (f v = 0 <->
       forall j k, (j < 6)%nat -> (S k < n)%nat -> v j (S k) = v j k) /\
      ((n <= 1)%nat -> f v = 0).
Proof.
  intros n.
  destruct (setup_objective waypoints steps joint_limits obstacles d_min)
    as [f [Hf Hval]].
  exists f. split; [exact Hf|]. intros v. rewrite Hval. fold n.
  unfold Spec.smoothness.
  assert (Hstep : forall k, 0 <= Spec.step_norm_sq v k)
    by (intros k; apply sum_squares_nonneg).
  assert (Hiff : sum (map (Spec.step_norm_sq v) (seq 0 (n - 1))) = 0 <->
                 forall j k, (j < 6)%nat -> (S k < n)%nat -> v j (S k) = v j k).
  { rewrite (sum_nonneg_zero _ _ Hstep). split.
    - intros H j k Hj Hk.
      assert (Hz : Spec.step_norm_sq v k = 0) by (apply H, in_seq; lia).
      unfold Spec.step_norm_sq in Hz.
      rewrite (sum_squares_zero (fun j => v j (S k) - v j k)) in Hz.
      specialize (Hz j). rewrite in_seq in Hz. specialize (Hz ltac:(lia)). lra.
    - intros H k Hk. apply in_seq in Hk. unfold Spec.step_norm_sq.
      apply (sum_squares_zero (fun j => v j (S k) - v j k)).
      intros j Hj. apply in_seq in Hj. rewrite (H j k); [lra | lia | lia]. }
  split; [now apply sum_nonneg|]. split; [exact Hiff|].
  intros Hn. apply Hiff. intros j k _ Hk. lia.
Qed.

End MoreObjective.

Section MoreClearance.
Import Casadi Planner NLP Geometry.

Lemma axis_outside_nonneg (lo hi p : R) : 0 <= Spec.axis_outside lo hi p.
Proof.
  unfold Spec.axis_outside.
  pose proof (Rmax_r (lo - p) 0). pose proof (Rmax_r (p - hi) 0). lra.
Qed.

Lemma axis_outside_zero (lo hi p : R) :
  Spec.axis_outside lo hi p = 0 <-> lo <= p <= hi.
Proof.
  split; [|apply axis_outside_inside].
  unfold Spec.axis_outside. intros H.
  pose proof (Rmax_r (lo - p) 0). pose proof (Rmax_r (p - hi) 0).
  pose proof (Rmax_l (lo - p) 0). pose proof (Rmax_l (p - hi) 0). lra.
Qed.

(** The per-axis term is at most the distance to any point of the
    interval. *)
Lemma axis_outside_le (lo hi p c : R) :
  lo <= c <= hi ->
  Spec.axis_outside lo hi p * Spec.axis_outside lo hi p <= (p - c) * (p - c).
Proof.
  intros [Hlo Hhi]. unfold Spec.axis_outside, Rmax.
  destruct (Rle_dec (lo - p) 0), (Rle_dec (p - hi) 0).
  - pose proof (Rle_0_sqr (p - c)) as Hsq. unfold Rsqr in Hsq. lra.
  - apply Rmult_le_compat; lra.
  - replace ((p - c) * (p - c)) with ((c - p) * (c - p)) by ring.
    apply Rmult_le_compat; lra.
  - lra.
Qed.

(** For a well-formed interval it is the distance to the nearest point. *)
Lemma axis_outside_clamp (lo hi p : R) :
  lo <= hi ->
  lo <= clamp lo hi p <= hi /\
  Spec.axis_outside lo hi p * Spec.axis_outside lo hi p
  = (p - clamp lo hi p) * (p - clamp lo hi p).
Proof.
  intros Hle. unfold Spec.axis_outside, clamp, Rmax, Rmin.
  repeat destruct Rle_dec; split; try lra; ring_simplify; try lra; nra.
Qed.

(** X5.  The clearance expression is the squared Euclidean distance from the
    point to the box: it is never negative, it is zero exactly when the
    point lies inside the box, no point of the box is nearer than its
    square root, and for a well-formed box the nearest point of the box
    is at that distance. *)
Theorem outside_dist_sq_is_distance (p : list R)
    (xmin xmax ymin ymax zmin zmax : R) :
  let box := (xmin, xmax, ymin, ymax, zmin, zmax) in
  0 <= outside_dist_sq p box /\
  (outside_dist_sq p box = 0 <-> Spec.inside p box) /\
  (forall c, Spec.inside c box -> outside_dist_sq p box <= dist_sq p c) /\
  (well_formed box ->
   Spec.inside (nearest p box) box /\
   outside_dist_sq p box = dist_sq p (nearest p box)).
Proof.
  intros box. unfold box. rewrite outside_dist_sq_axes. unfold sq.
  pose proof (axis_outside_nonneg xmin xmax (nth 0 p 0)) as Hx.
  pose proof (axis_outside_nonneg ymin ymax (nth 1 p 0)) as Hy.
  pose proof (axis_outside_nonneg zmin zmax (nth 2 p 0)) as Hz.
  split; [nra|]. split; [|split].
  - unfold Spec.inside.
    rewrite <- (axis_outside_zero xmin xmax), <- (axis_outside_zero ymin ymax),
      <- (axis_outside_zero zmin zmax).
    split; [intros H; repeat split; nra | intros [-> [-> ->]]; lra].
  - intros c [Hcx [Hcy Hcz]]. unfold dist_sq.
    pose proof (axis_outside_le _ _ (nth 0 p 0) _ Hcx).
    pose proof (axis_outside_le _ _ (nth 1 p 0) _ Hcy).
    pose proof (axis_outside_le _ _ (nth 2 p 0) _ Hcz). lra.
  - intros [Wx [Wy Wz]]. unfold Spec.inside, nearest, dist_sq. cbn [nth].
    destruct (axis_outside_clamp _ _ (nth 0 p 0) Wx) as [Ix Ex].
    destruct (axis_outside_clamp _ _ (nth 1 p 0) Wy) as [Iy Ey].
    destruct (axis_outside_clamp _ _ (nth 2 p 0) Wz) as [Iz Ez].
    split; [now repeat split | lra].
Qed.

End MoreClearance.

Section MoreKinematics.
Import Casadi Planner NLP Geometry.

Ltac rows_split :=
  repeat match goal with
         | |- cons _ _ = cons _ _ => apply f_equal2
         | |- @nil _ = @nil _ => reflexivity
         end.

Lemma mtimes_row_length (A B : matrix) :
  Forall (fun r => length r = ncols B) (mtimes A B).
Proof.
  unfold mtimes. apply Forall_forall. intros r Hr.
  apply in_map_iff in Hr. destruct Hr as [a [<- _]].
  now rewrite length_map, length_seq.
Qed.

Lemma explicit_4x4 (M : matrix) :
  length M = 4%nat -> Forall (fun r => length r = 4%nat) M ->
  exists a11 a12 a13 a14 a21 a22 a23 a24 a31 a32 a33 a34 a41 a42 a43 a44,
    M = [[a11; a12; a13; a14]; [a21; a22; a23; a24];
         [a31; a32; a33; a34]; [a41; a42; a43; a44]].
Proof.
  intros Hlen Hrows.
  destruct M as [|r1 [|r2 [|r3 [|r4 [|r5 M]]]]]; try discriminate.
  inversion Hrows as [|? ? H1 Hrows1]; subst.
  inversion Hrows1 as [|? ? H2 Hrows2]; subst.
  inversion Hrows2 as [|? ? H3 Hrows3]; subst.
  inversion Hrows3 as [|? ? H4 _]; subst.
  destruct r1 as [|a11 [|a12 [|a13 [|a14 [|]]]]]; try discriminate.
  destruct r2 as [|a21 [|a22 [|a23 [|a24 [|]]]]]; try discriminate.
  destruct r3 as [|a31 [|a32 [|a33 [|a34 [|]]]]]; try discriminate.
  destruct r4 as [|a41 [|a42 [|a43 [|a44 [|]]]]]; try discriminate.
  now exists a11, a12, a13, a14, a21, a22, a23, a24,
             a31, a32, a33, a34, a41, a42, a43, a44.
Qed.

(** The last link turns about the axis on which the tool point lies. *)
Lemma last_link_and_offset
    (a11 a12 a13 a14 a21 a22 a23 a24 a31 a32 a33 a34 a41 a42 a43 a44 : R)
    (theta d : R) :
  slice_rows_of_col
    (mtimes (mtimes [[a11; a12; a13; a14]; [a21; a22; a23; a24];
                     [a31; a32; a33; a34]; [a41; a42; a43; a44]]
                    (dh_transform theta d 0 0))
            tcp_offset) 0 3 3
  = [a13 * (d + 0.200) + a14; a23 * (d + 0.200) + a24;
     a33 * (d + 0.200) + a34].
Proof.
  unfold dh_transform, tcp_offset, vertcat, horzcat.
  rewrite cos_0, sin_0. cbn -[cos sin]. rows_split; ring.
Qed.

(** X6.  The end-effector position does not depend on the angle of the sixth
    joint. *)
Theorem forward_kinematics_ignores_last_joint (q0 q1 q2 q3 q4 q5 q5' : R) :
  forward_kinematics [q0; q1; q2; q3; q4; q5]
  = forward_kinematics [q0; q1; q2; q3; q4; q5'].
Proof.
  unfold forward_kinematics, fk_transform.
  cbn [fold_left seq nth fk_d fk_a fk_alpha].
  match goal with
  | |- slice_rows_of_col (mtimes (mtimes (mtimes ?A ?B) _) _) 0 3 3 = _ =>
      destruct (explicit_4x4 (mtimes A B)) as
        [a11 [a12 [a13 [a14 [a21 [a22 [a23 [a24
        [a31 [a32 [a33 [a34 [a41 [a42 [a43 [a44 HC]]]]]]]]]]]]]]]];
      [now rewrite !mtimes_nrows | exact (mtimes_row_length A B) |]
  end.
  rewrite HC, !last_link_and_offset. reflexivity.
Qed.

Lemma cos_turned (theta : R) (k : Z) : cos (turned theta k) = cos theta.
Proof.
  unfold turned. destruct (Z_le_gt_dec 0 k) as [Hk | Hk].
  - rewrite <- (Z2Nat.id k Hk), <- INR_IZR_INZ. apply cos_period.
  - rewrite <- (cos_period (theta + 2 * IZR k * PI) (Z.to_nat (- k))).
    rewrite INR_IZR_INZ, Z2Nat.id by lia. rewrite opp_IZR.
    f_equal. ring.
Qed.

Lemma sin_turned (theta : R) (k : Z) : sin (turned theta k) = sin theta.
Proof.
  unfold turned. destruct (Z_le_gt_dec 0 k) as [Hk | Hk].
  - rewrite <- (Z2Nat.id k Hk), <- INR_IZR_INZ. apply sin_period.
  - rewrite <- (sin_period (theta + 2 * IZR k * PI) (Z.to_nat (- k))).
    rewrite INR_IZR_INZ, Z2Nat.id by lia. rewrite opp_IZR.
    f_equal. ring.
Qed.

(** X7.  Whole turns of any joints do not move the end effector. *)
Theorem forward_kinematics_periodic (q0 q1 q2 q3 q4 q5 : R)
    (k0 k1 k2 k3 k4 k5 : Z) :
  forward_kinematics [turned q0 k0; turned q1 k1; turned q2 k2;
                      turned q3 k3; turned q4 k4; turned q5 k5]
  = forward_kinematics [q0; q1; q2; q3; q4; q5].
Proof.
  unfold forward_kinematics, fk_transform.
  cbn [fold_left seq nth fk_d fk_a fk_alpha]. unfold dh_transform.
  rewrite !cos_turned, !sin_turned. reflexivity.
Qed.

End MoreKinematics.

Section Infeasible.
Import Casadi Planner NLP Geometry.

(** X8.  A waypoint whose end-effector position lies inside an obstacle box
    cannot be met: with a positive clearance no valuation satisfies all
    the constraints of the assembled problem exactly. *)
Theorem waypoint_inside_box_is_infeasible (waypoints : list (list R))
    (steps : Z) (joint_limits : list (R * R)) (obstacles : list obstacle)
    (d_min : R) (i : nat) (wp : list R) (box : obstacle) (v : valuation) :
  nth_error waypoints i = Some wp ->
  (0 <= steps)%Z ->
  In box obstacles ->
  0 < d_min ->
  Spec.inside (forward_kinematics wp) box ->
  ~ feasible 0
      (fst (fst (setup_optimization waypoints steps joint_limits
                                    obstacles d_min))) v.
Proof.
  intros Hi Hs Hbox Hd Hinside Hfeas.
  pose proof (feasible_pinned_column waypoints steps joint_limits obstacles
                d_min i wp 0 v Hi Hfeas) as Hcol.
  apply Forall2_exact in Hcol.
  assert (Hk : In (Z.of_nat i * steps)%Z
                  (range (Spec.sample_count (length waypoints) steps))).
  { apply in_range. apply pinned_index_in_range; [|exact Hs].
    apply nth_error_Some. congruence. }
  pose proof (clearance_in_setup waypoints steps joint_limits obstacles
                d_min _ box Hk Hbox) as Hin.
  unfold feasible in Hfeas. rewrite Forall_forall in Hfeas.
  specialize (Hfeas _ Hin). cbn [holds clearance_constraint] in Hfeas.
  unfold sym in Hfeas. rewrite Hcol in Hfeas.
  rewrite (outside_dist_sq_inside _ _ Hinside) in Hfeas.
  unfold sq in Hfeas. nra.
Qed.

(** X9.  A waypoint with a joint angle beyond half a turn (below -180 or above
    180 degrees) cannot be met: no valuation satisfies the constraints of
    the problem the orchestrator submits exactly. *)
Theorem waypoint_beyond_half_turn_is_infeasible
    (waypoints_deg : list (list R)) (i j : nat) (wp : list R) (o : Opti)
    (v : valuation) :
  nth_error waypoints_deg i = Some wp ->
  (j < 6)%nat ->
  nth j wp 0 < -180 \/ 180 < nth j wp 0 ->
  submitted (optimize_from_waypoints_deg waypoints_deg) = Some o ->
  ~ feasible 0 o v.
Proof.
  intros Hi Hj Hout Hsub Hfeas.
  rewrite optimize_from_waypoints_deg_unfold, submitted_solve_and_print in Hsub.
  apply Some_eq_inv in Hsub. subst o.
  change (feasible 0
            (fst (fst (setup_optimization (map radians waypoints_deg) 3
                         (repeat (- PI, PI) 6) [fixed_box] 0.05))) v)
    in Hfeas.
  assert (Hi' : nth_error (map radians waypoints_deg) i = Some (radians wp))
    by now rewrite nth_error_map, Hi.
  pose proof (feasible_pinned_column _ _ _ _ _ i (radians wp) 0 v Hi' Hfeas)
    as Hcol.
  apply Forall2_exact in Hcol.
  assert (Hidx : (0 <= Z.of_nat i * 3
                  < Spec.sample_count (length (map radians waypoints_deg)) 3)%Z).
  { apply pinned_index_in_range; [|lia].
    apply nth_error_Some. congruence. }
  assert (Hentry : v j (Z.to_nat (Z.of_nat i * 3)) = radians1 (nth j wp 0)).
  { rewrite <- (col_at_value_of v
                  {| mx_rows := 6;
                     mx_cols := Spec.sample_count
                                  (length (map radians waypoints_deg)) 3 |})
      by (cbn [mx_rows mx_cols]; assumption).
    rewrite Hcol. unfold radians.
    replace 0 with (radians1 0) at 1 by (unfold radians1; lra).
    apply map_nth. }
  pose proof (limit_in_setup (map radians waypoints_deg) 3
                (repeat (- PI, PI) 6) [fixed_box] 0.05 j Hj) as Hlim.
  unfold feasible in Hfeas. rewrite Forall_forall in Hfeas.
  specialize (Hfeas _ Hlim). cbn [holds limit_constraint] in Hfeas.
  unfold sym, row_at, value_of in Hfeas. cbn [mx_rows mx_cols] in Hfeas.
  rewrite (nth_map_seq _ [] 6 j Hj) in Hfeas.
  rewrite Forall_forall in Hfeas.
  specialize (Hfeas (v j (Z.to_nat (Z.of_nat i * 3)))).
  assert (Hnth : nth j (repeat (- PI, PI) 6) (0, 0) = (- PI, PI)).
  { do 6 (destruct j as [|j]; [reflexivity|]). lia. }
  rewrite Hnth in Hfeas. cbn [fst snd] in Hfeas.
  assert (Hbound : - PI - 0 <= v j (Z.to_nat (Z.of_nat i * 3)) <= PI + 0).
  { apply Hfeas. apply in_map_iff. exists (Z.to_nat (Z.of_nat i * 3)).
    split; [reflexivity|]. apply in_seq. lia. }
  rewrite Hentry in Hbound. unfold radians1 in Hbound.
  pose proof PI_RGT_0 as Hpi.
  destruct Hout as [Hlow | Hhigh]; nra.
Qed.

(** X10.  For a request of at least two waypoints of six components each,
    the log of a successful run lists every sample once, in order: after
    the header, line [k + 1] carries column [k] of the returned matrix,
    for [k] from 0 to [N - 1]; when the backend fails nothing is
    printed. *)
Theorem console_lists_every_sample (waypoints_deg : list (list R))
    (backend : Opti -> solver_reply) :
  (2 <= length waypoints_deg)%nat ->
  Forall (fun wp => length wp = 6%nat) waypoints_deg ->
  let N := Spec.sample_count (length waypoints_deg) 3 in
  exists o,
    submitted (optimize_from_waypoints_deg waypoints_deg) = Some o /\
    (forall v,
        backend o = Solution v ->
        exists M,
          outcome (run backend (optimize_from_waypoints_deg waypoints_deg))
          = inl (Array2 M) /\
          console (run backend (optimize_from_waypoints_deg waypoints_deg))
          = Header " Optimized Joint Trajectory (Degrees):"
              :: map (fun k => WaypointLine (k + 1) (col_at k M)) (range N) /\
          length (console (run backend
                             (optimize_from_waypoints_deg waypoints_deg)))
          = S (Z.to_nat N)) /\
    (forall e,
        backend o = SolverError e ->
        console (run backend (optimize_from_waypoints_deg waypoints_deg)) = []).
Proof.
  intros Hlen _ N. rewrite optimize_from_waypoints_deg_unfold.
  assert (HN : (2 <= N)%Z) by (unfold N, Spec.sample_count; lia).
  eexists. split; [apply submitted_solve_and_print|]. split.
  - intros v Hb. eexists.
    rewrite (solve_and_print_returns _ _ _ _ v Hb)
      by (cbn [mx_rows mx_cols]; fold N; lia).
    split; [reflexivity|]. split; [reflexivity|].
    unfold console. cbn [fst length]. now rewrite length_map, length_range.
  - intros e He. now rewrite (solve_and_print_raises _ _ _ _ e He).
Qed.

Lemma console_lists_every_sample_witness :
  let N := Spec.sample_count (length [zeros6; nineties6]) 3 in
  let backend := fun _ : Opti => Solution zero_valuation in
  exists o,
    submitted (optimize_from_waypoints_deg [zeros6; nineties6]) = Some o /\
    (forall v,
        backend o = Solution v ->
        exists M,
          outcome (run backend (optimize_from_waypoints_deg [zeros6; nineties6]))
          = inl (Array2 M) /\
          console (run backend (optimize_from_waypoints_deg [zeros6; nineties6]))
          = Header " Optimized Joint Trajectory (Degrees):"
              :: map (fun k => WaypointLine (k + 1) (col_at k M)) (range N) /\
          length (console (run backend
                             (optimize_from_waypoints_deg [zeros6; nineties6])))
          = S (Z.to_nat N)) /\
    (forall e,
        backend o = SolverError e ->
        console (run backend (optimize_from_waypoints_deg [zeros6; nineties6]))
        = []).
Proof.
  apply (console_lists_every_sample [zeros6; nineties6]
           (fun _ => Solution zero_valuation)).
  - simpl. lia.
  - repeat constructor.
Defined.

End Infeasible.

(* ================================================================== *)
(** * The energy figures of the results grapher *)
(* ================================================================== *)

Section EnergyFigures.
Import Casadi Grapher.

Lemma collect_means (rows : list log_row) (cs : list R) :
  Gui.collect (map (fun r => mean (joint_current r)) rows) = inl cs ->
  cs = map (fun r => sum (joint_current r) / INR (length (joint_current r)))
           rows.
Proof.
  revert cs. induction rows as [|r rows IH]; intros cs H; cbn in H.
  - now injection H as <-.
  - destruct (joint_current r) as [|c jc] eqn:Hjc; cbn in H; [discriminate|].
    destruct (Gui.collect (map (fun r => mean (joint_current r)) rows))
      as [ys | e]; [|discriminate].
    injection H as <-. cbn [map]. rewrite Hjc, (IH ys eq_refl). reflexivity.
Qed.

(** What [energy_data] returns when it returns. *)
Lemma energy_data_value (columns : list string) (rows : list log_row)
    (E : energy) :
  energy_data columns rows = inl E ->
  power E = map row_power rows /\
  delta_time E = diff_fillna0 (map timestamp rows) /\
  energy_increment E
  = times (map row_power rows) (diff_fillna0 (map timestamp rows)) /\
  cumulative_energy E = cumsum (energy_increment E) /\
  total_energy E = sum (energy_increment E).
Proof.
  unfold energy_data. destruct (negb _); [discriminate|].
  destruct (Gui.collect _) as [cs | e] eqn:Hc; [|discriminate].
  intros H. injection H as <-. cbn.
  apply collect_means in Hc. subst cs.
  assert (Hp : times (map voltage rows)
                 (map (fun r => sum (joint_current r)
                                / INR (length (joint_current r))) rows)
               = map row_power rows).
  { unfold times. rewrite combine_map_same, map_map. reflexivity. }
  rewrite Hp. now repeat split.
Qed.

Lemma last_cumsum_from (acc d : R) (xs : list R) :
  xs <> [] -> last (cumsum_from acc xs) d = acc + sum xs.
Proof.
  revert acc. induction xs as [|x xs IH]; intros acc Hne; [congruence|].
  change (sum (x :: xs)) with (x + sum xs).
  destruct xs as [|y ys].
  - cbn. lra.
  - specialize (IH (acc + x) ltac:(discriminate)).
    cbn [cumsum_from] in IH |- *. cbn [last] in IH |- *.
    rewrite IH. lra.
Qed.

Lemma last_cumsum (xs : list R) : last (cumsum xs) 0 = sum xs.
Proof.
  unfold cumsum. destruct xs as [|x xs]; [reflexivity|].
  rewrite last_cumsum_from by discriminate. lra.
Qed.

Lemma length_cumsum_from (acc : R) (xs : list R) :
  length (cumsum_from acc xs) = length xs.
Proof.
  revert acc. induction xs as [|x xs IH]; intros acc; cbn; [|rewrite IH];
    reflexivity.
Qed.

Lemma length_diffs (t : R) (ts : list R) : length (diffs t ts) = length ts.
Proof.
  revert t. induction ts as [|u ts IH]; intros t; cbn; [|rewrite IH];
    reflexivity.
Qed.

Lemma length_times (xs ys : list R) :
  length xs = length ys -> length (times xs ys) = length xs.
Proof.
  intros H. unfold times. rewrite length_map, length_combine. lia.
Qed.

(** The increments after the first, as a sum over consecutive rows. *)
Lemma increments_pairs (r0 : log_row) (rest : list log_row) :
  times (map row_power rest) (diffs (timestamp r0) (map timestamp rest))
  = map (fun p => row_power (snd p) * (timestamp (snd p) - timestamp (fst p)))
        (combine (r0 :: rest) rest).
Proof.
  revert r0. induction rest as [|r1 rest IH]; intros r0; [reflexivity|].
  cbn [map diffs]. unfold times in *. cbn [combine map fst snd].
  now rewrite IH.
Qed.

(** The increments of a log that has a first row. *)
Lemma energy_increments (columns : list string) (r0 : log_row)
    (rest : list log_row) (E : energy) :
  energy_data columns (r0 :: rest) = inl E ->
  energy_increment E
  = (row_power r0 * 0)
      :: map (fun p => row_power (snd p)
                       * (timestamp (snd p) - timestamp (fst p)))
             (combine (r0 :: rest) rest).
Proof.
  intros H. destruct (energy_data_value _ _ _ H) as [_ [_ [Hi _]]].
  rewrite Hi. cbn [map diff_fillna0]. unfold times.
  cbn [combine map fst snd]. f_equal. exact (increments_pairs r0 rest).
Qed.

Lemma total_energy_pairs (columns : list string) (r0 : log_row)
    (rest : list log_row) (E : energy) :
  energy_data columns (r0 :: rest) = inl E ->
  total_energy E
  = sum (map (fun p => row_power (snd p)
                       * (timestamp (snd p) - timestamp (fst p)))
             (combine (r0 :: rest) rest)).
Proof.
  intros H. destruct (energy_data_value _ _ _ H) as [_ [_ [_ [_ Ht]]]].
  rewrite Ht, (energy_increments _ _ _ _ H).
  match goal with
  | |- sum (?x :: ?l) = _ => change (sum (x :: l)) with (x + sum l)
  end.
  lra.
Qed.

(** X18.  The energy figures: one cumulative value per row; the total is the
    last cumulative value; the first row adds nothing; and the total is
    the sum, over consecutive rows, of the later row's power times the
    time between them. *)
Theorem energy_accounting (columns : list string) (rows : list log_row)
    (E : energy) :
  energy_data columns rows = inl E ->
  length (cumulative_energy E) = length rows /\
  total_energy E = last (cumulative_energy E) 0 /\
  hd 0 (energy_increment E) = 0 /\
  total_energy E
  = sum (map (fun p => row_power (snd p)
                       * (timestamp (snd p) - timestamp (fst p)))
             (combine rows (tl rows))).
Proof.
  intros H. destruct (energy_data_value _ _ _ H) as [_ [_ [Hi [Hc Ht]]]].
  assert (Hlast : total_energy E = last (cumulative_energy E) 0)
    by now rewrite Hc, Ht, last_cumsum.
  destruct rows as [|r0 rest].
  - rewrite Hc, Ht, Hi. cbn. repeat split; reflexivity.
  - pose proof (energy_increments _ _ _ _ H) as Hinc.
    split; [|split; [exact Hlast | split]].
    + rewrite Hc. unfold cumsum. rewrite length_cumsum_from, Hinc.
      cbn [length]. rewrite length_map, length_combine. cbn [length]. lia.
    + rewrite Hinc. cbn [hd]. lra.
    + cbn [tl]. exact (total_energy_pairs _ _ _ _ H).
Qed.

Lemma energy_accounting_witness :
  match energy_data Executer.log_header
          [ {| timestamp := 0; voltage := 48; joint_current := [1; 3];
               actual_qd := [] |};
            {| timestamp := 2; voltage := 50; joint_current := [2; 4];
               actual_qd := [] |} ] with
  | inl E => total_energy E = 300
  | inr _ => False
  end.
Proof.
  destruct (energy_data _ _) as [E | e] eqn:H.
  - destruct (energy_accounting _ _ E H) as [_ [_ [_ Ht]]]. rewrite Ht.
    unfold row_power. cbn. lra.
  - cbn in H. discriminate H.
Defined.

Lemma last_default {X : Type} (l : list X) (d d' : X) :
  l <> [] -> last l d = last l d'.
Proof.
  induction l as [|x l IH]; intros Hne; [congruence|].
  destruct l as [|y l]; [reflexivity|].
  change (last (x :: y :: l) d) with (last (y :: l) d).
  change (last (x :: y :: l) d') with (last (y :: l) d').
  apply IH. discriminate.
Qed.

Lemma last_cons_default {X : Type} (x d : X) (l : list X) :
  last (x :: l) d = last l x.
Proof.
  destruct l as [|y l]; [reflexivity|].
  change (last (x :: y :: l) d) with (last (y :: l) d).
  apply last_default. discriminate.
Qed.

Lemma telescope (P : R) (r0 : log_row) (rest : list log_row) :
  (forall r, In r rest -> row_power r = P) ->
  sum (map (fun p => row_power (snd p)
                     * (timestamp (snd p) - timestamp (fst p)))
           (combine (r0 :: rest) rest))
  = P * (timestamp (last rest r0) - timestamp r0).
Proof.
  revert r0. induction rest as [|r1 rest IH]; intros r0 HP.
  - cbn. lra.
  - change (combine (r0 :: r1 :: rest) (r1 :: rest))
      with ((r0, r1) :: combine (r1 :: rest) rest).
    rewrite map_cons. cbn [fst snd].
    match goal with
    | |- sum (?x :: ?l) = _ => change (sum (x :: l)) with (x + sum l)
    end.
    rewrite (IH r1) by (intros r Hr; apply HP; now right).
    rewrite (HP r1 (or_introl eq_refl)).
    rewrite (last_cons_default r1 r0 rest). lra.
Qed.

(** X19.  At constant power the total energy is the power times the time from
    the first row to the last. *)
Theorem constant_power_energy (columns : list string) (first : log_row)
    (rest : list log_row) (E : energy) (P : R) :
  energy_data columns (first :: rest) = inl E ->
  (forall r, In r rest -> row_power r = P) ->
  total_energy E
  = P * (timestamp (last rest first) - timestamp first).
Proof.
  intros H HP.
  rewrite (total_energy_pairs _ _ _ _ H). now apply telescope.
Qed.

Lemma constant_power_energy_witness :
  match energy_data Executer.log_header
          [ {| timestamp := 1; voltage := 48; joint_current := [2];
               actual_qd := [] |};
            {| timestamp := 3; voltage := 48; joint_current := [2];
               actual_qd := [] |};
            {| timestamp := 6; voltage := 24; joint_current := [4];
               actual_qd := [] |} ] with
  | inl E => total_energy E = 96 * (6 - 1)
  | inr _ => False
  end.
Proof.
  destruct (energy_data _ _) as [E | e] eqn:H.
  - apply (constant_power_energy _ _ _ E 96 H).
    intros r [<- | [<- | []]]; unfold row_power; cbn; lra.
  - cbn in H. discriminate H.
Defined.

Lemma increments_nonneg (t0 : R) (rest : list log_row) :
  (forall r, In r rest -> 0 <= row_power r) ->
  nondecreasing_from t0 (map timestamp rest) ->
  Forall (fun x => 0 <= x)
         (times (map row_power rest) (diffs t0 (map timestamp rest))).
Proof.
  revert t0. induction rest as [|r rest IH]; intros t0 HP Hs.
  - constructor.
  - cbn [map diffs]. unfold times. cbn [combine map fst snd].
    destruct Hs as [Hle Hs]. constructor.
    + pose proof (HP r (or_introl eq_refl)). nra.
    + apply IH; [intros r' Hr'; apply HP; now right | exact Hs].
Qed.

Lemma cumsum_from_nondecreasing (acc : R) (xs : list R) :
  Forall (fun x => 0 <= x) xs ->
  nondecreasing_from acc (cumsum_from acc xs).
Proof.
  intros H. revert acc. induction H as [|x xs Hx _ IH]; intros acc.
  - exact I.
  - cbn [cumsum_from nondecreasing_from]. split; [lra | apply IH].
Qed.

(** X20.  With power never negative and timestamps never decreasing, the
    cumulative energy never decreases and starts from zero, and the total
    energy is not negative. *)
Theorem cumulative_energy_never_decreases (columns : list string)
    (rows : list log_row) (E : energy) :
  energy_data columns rows = inl E ->
  (forall r, In r rows -> 0 <= row_power r) ->
  nondecreasing (map timestamp rows) ->
  nondecreasing_from 0 (cumulative_energy E) /\
  hd 0 (cumulative_energy E) = 0 /\
  0 <= total_energy E.
Proof.
  intros H HP Hs.
  destruct (energy_data_value _ _ _ H) as [_ [_ [Hi [Hc Ht]]]].
  assert (Hnn : Forall (fun x => 0 <= x) (energy_increment E)).
  { rewrite Hi. destruct rows as [|r0 rest]; [constructor|].
    cbn [map diff_fillna0]. unfold times. cbn [combine map fst snd].
    constructor; [lra|].
    apply increments_nonneg; [intros r Hr; apply HP; now right | exact Hs]. }
  split; [|split].
  - rewrite Hc. now apply cumsum_from_nondecreasing.
  - rewrite Hc, Hi. destruct rows as [|r0 rest]; [reflexivity|].
    cbn [map diff_fillna0]. unfold times, cumsum.
    cbn [combine map fst snd cumsum_from hd]. lra.
  - rewrite Ht. clear - Hnn. induction Hnn as [|x xs Hx _ IH]; cbn; [lra|].
    unfold sum in IH. lra.
Qed.

Lemma cumulative_energy_never_decreases_witness :
  match energy_data Executer.log_header
          [ {| timestamp := 0; voltage := 48; joint_current := [1; 3];
               actual_qd := [] |};
            {| timestamp := 2; voltage := 50; joint_current := [2; 4];
               actual_qd := [] |} ] with
  | inl E => 0 <= total_energy E
  | inr _ => False
  end.
Proof.
  destruct (energy_data _ _) as [E | e] eqn:H.
  - apply (cumulative_energy_never_decreases _ _ E H).
    + intros r [<- | [<- | []]]; unfold row_power; cbn; lra.
    + cbn. lra.
  - cbn in H. discriminate H.
Defined.

Lemma collect_means_fail (rows : list log_row) :
  Exists (fun r => joint_current r = []) rows ->
  Gui.collect (map (fun r => mean (joint_current r)) rows)
  = inr zero_division.
Proof.
  intros H. induction H as [r rows Hr | r rows _ IH]; cbn [map Gui.collect].
  - rewrite Hr. reflexivity.
  - rewrite IH. destruct (mean (joint_current r)) as [x | e] eqn:Hm;
      [reflexivity|].
    unfold mean in Hm. destruct (joint_current r); [|discriminate].
    now injection Hm as <-.
Qed.

Lemma collect_means_ok (rows : list log_row) :
  Forall (fun r => joint_current r <> []) rows ->
  exists cs, Gui.collect (map (fun r => mean (joint_current r)) rows) = inl cs.
Proof.
  intros H. induction H as [|r rows Hr _ [cs IH]]; cbn [map Gui.collect].
  - now exists [].
  - unfold mean at 1. destruct (joint_current r) as [|c jc]; [congruence|].
    rewrite IH. eexists. reflexivity.
Qed.

Lemma issubset_spec (required columns : list string) :
  issubset required columns = true <->
  forall c, In c required -> In c columns.
Proof.
  unfold issubset. rewrite forallb_forall. split; intros H c Hc.
  - specialize (H c Hc). apply existsb_exists in H.
    destruct H as [c' [Hin Heq]]. apply String.eqb_eq in Heq. now subst.
  - apply existsb_exists. exists c. split; [now apply H|].
    apply String.eqb_refl.
Qed.

(** X21.  When [energy_data] fails and when it returns: a log that lacks one of
    the four required columns raises [ValueError], whatever its rows;
    with the columns present, a row with an empty list of joint currents
    raises [ZeroDivisionError]; otherwise the figures are returned. *)
Theorem energy_data_outcome (columns : list string) (rows : list log_row) :
  ((exists c, In c required_columns /\ ~ In c columns) ->
   energy_data columns rows = inr missing_columns) /\
  ((forall c, In c required_columns -> In c columns) ->
   Exists (fun r => joint_current r = []) rows ->
   energy_data columns rows = inr zero_division) /\
  ((forall c, In c required_columns -> In c columns) ->
   Forall (fun r => joint_current r <> []) rows ->
   exists E, energy_data columns rows = inl E).
Proof.
  unfold energy_data. split; [|split].
  - intros [c [Hreq Hmiss]].
    destruct (issubset required_columns columns) eqn:Hsub; [|reflexivity].
    exfalso. apply Hmiss. now apply (proj1 (issubset_spec _ _) Hsub).
  - intros Hall Hex. rewrite (proj2 (issubset_spec _ _) Hall). cbn [negb].
    now rewrite collect_means_fail.
  - intros Hall Hne. rewrite (proj2 (issubset_spec _ _) Hall). cbn [negb].
    destruct (collect_means_ok rows Hne) as [cs ->]. eexists. reflexivity.
Qed.

(** X22.  The header row written by the logging executer carries every column
    the grapher requires, so its logs pass the column check; the header
    row written by the older copy of the executer does not, and the
    grapher raises [ValueError] on every log it wrote. *)
Theorem log_header_meets_grapher :
  (forall rows, energy_data Executer.log_header rows <> inr missing_columns) /\
  (forall rows,
      energy_data ExecuterPrueba.log_header rows = inr missing_columns).
Proof.
  split; intros rows; [|reflexivity].
  unfold energy_data.
  change (issubset required_columns Executer.log_header) with true.
  cbn [negb].
  destruct (Gui.collect _) as [cs | e] eqn:Hc; [discriminate|].
  assert (He : e = zero_division).
  { clear - Hc. induction rows as [|r rows IH]; cbn in Hc; [discriminate|].
    destruct (joint_current r); cbn in Hc; [now injection Hc as <-|].
    destruct (Gui.collect _) as [ys | e']; [discriminate|].
    injection Hc as <-. now apply IH. }
  subst e. discriminate.
Qed.

End EnergyFigures.

(* ================================================================== *)
(** * The execution layer *)
(* ================================================================== *)

Section Execution.
Import Casadi Robot Executer ExecSpec.

Lemma np_sub_same_length (a b : list R) :
  length a = length b ->
  np_sub a b = Some (map (fun p => fst p - snd p) (combine a b)).
Proof.
  intros H. unfold np_sub. now rewrite H, Nat.eqb_refl.
Qed.

Lemma all_lt_forall2 (a b : list R) (t : R) :
  length a = length b ->
  (np_all_lt (np_abs (map (fun p => fst p - snd p) (combine a b))) t = true
   <-> Forall2 (fun x y => Rabs (x - y) < t) a b).
Proof.
  revert b. induction a as [|x a IH]; intros [|y b] Hlen; try discriminate.
  - cbn. split; [constructor | reflexivity].
  - injection Hlen as Hlen. specialize (IH b Hlen).
    cbn [combine map fst snd np_abs np_all_lt forallb].
    unfold np_all_lt, np_abs in IH. rewrite Bool.andb_true_iff, IH.
    destruct (Rlt_dec (Rabs (x - y)) t) as [Hlt | Hge]; split.
    + intros [_ H]. now constructor.
    + intros H. inversion H; subst. now split.
    + intros [H _]. discriminate.
    + intros H. inversion H; subst. contradiction.
Qed.

Lemma length_radians (q : list R) : length (radians q) = length q.
Proof. unfold radians. apply length_map. Qed.

(** One poll of [wait_until_reached] on a package with the right number
    of joints. *)
Lemma wait_loop_step (q_deg : list R) (tol : R) (st : robot_state)
    (rest : list (option robot_state)) (net : string -> Z -> reach)
    (tr : list event) :
  length (actual_q st) = length q_deg ->
  (reached q_deg tol st /\
   wait_loop (radians q_deg) tol (Some st :: rest) net tr
   = Ok tt {| inbox := rest; network := net; trace := tr |}) \/
  (~ reached q_deg tol st /\
   wait_loop (radians q_deg) tol (Some st :: rest) net tr
   = wait_loop (radians q_deg) tol rest net (tr ++ [Sleep 0.1])).
Proof.
  intros Hlen. cbn [wait_loop].
  assert (Hl : length (actual_q st) = length (radians q_deg))
    by now rewrite length_radians.
  rewrite (np_sub_same_length _ _ Hl).
  pose proof (all_lt_forall2 (actual_q st) (radians q_deg) (radians1 tol) Hl)
    as Hiff.
  destruct (np_all_lt _ _) eqn:Hall.
  - left. split; [now apply Hiff | reflexivity].
  - right. split; [|reflexivity]. intros Hr. apply Hiff in Hr. discriminate.
Qed.

Lemma wait_loop_ok (q_deg : list R) (tol : R)
    (packages : list (option robot_state)) (net : string -> Z -> reach)
    (tr : list event) (w' : world) :
  Forall (joints (length q_deg)) packages ->
  wait_loop (radians q_deg) tol packages net tr = Ok tt w' ->
  exists skipped st,
    packages = skipped ++ Some st :: inbox w' /\
    Forall (pending q_deg tol) skipped /\
    reached q_deg tol st /\
    trace w' = tr ++ repeat (Sleep 0.1) (length skipped) /\
    network w' = net.
Proof.
  intros Hj. revert tr.
  induction Hj as [|s packages Hs _ IH]; intros tr H; [discriminate|].
  destruct s as [st|].
  - destruct (wait_loop_step q_deg tol st packages net tr Hs)
      as [[Hr Hw] | [Hn Hw]]; rewrite Hw in H.
    + injection H as <-. exists [], st. cbn. rewrite app_nil_r.
      now repeat split.
    + destruct (IH _ H) as [skipped [st' [Hp [Hpend [Hr [Htr Hnet]]]]]].
      exists (Some st :: skipped), st'. cbn [app length repeat].
      rewrite Hp at 1. repeat split; try assumption.
      * now constructor.
      * now rewrite Htr, <- app_assoc.
  - cbn [wait_loop] in H.
    destruct (IH _ H) as [skipped [st' [Hp [Hpend [Hr [Htr Hnet]]]]]].
    exists (None :: skipped), st'. cbn [app length repeat].
    rewrite Hp at 1. repeat split; try assumption.
    + now constructor.
    + now rewrite Htr, <- app_assoc.
Qed.

Lemma wait_loop_complete (q_deg : list R) (tol : R)
    (skipped : list (option robot_state)) (st : robot_state)
    (rest : list (option robot_state)) (net : string -> Z -> reach)
    (tr : list event) :
  Forall (joints (length q_deg)) skipped ->
  Forall (pending q_deg tol) skipped ->
  reached q_deg tol st ->
  wait_loop (radians q_deg) tol (skipped ++ Some st :: rest) net tr
  = Ok tt {| inbox := rest; network := net;
             trace := tr ++ repeat (Sleep 0.1) (length skipped) |}.
Proof.
  intros Hj Hp Hr. revert tr.
  induction skipped as [|s skipped IH]; intros tr.
  - cbn [app length repeat]. rewrite app_nil_r.
    assert (Hlen : length (actual_q st) = length q_deg).
    { unfold reached in Hr. apply Forall2_length in Hr.
      now rewrite length_radians in Hr. }
    destruct (wait_loop_step q_deg tol st rest net tr Hlen)
      as [[_ Hw] | [Hn _]]; [exact Hw | contradiction].
  - inversion Hj as [|? ? Hjs Hj']; subst.
    inversion Hp as [|? ? Hps Hp']; subst.
    cbn [app length repeat].
    replace (tr ++ Sleep 0.1 :: repeat (Sleep 0.1) (length skipped))
      with ((tr ++ [Sleep 0.1]) ++ repeat (Sleep 0.1) (length skipped))
      by now rewrite <- app_assoc.
    destruct s as [st'|].
    + destruct (wait_loop_step q_deg tol st' (skipped ++ Some st :: rest)
                  net tr Hjs) as [[Hr' _] | [_ Hw]]; [contradiction|].
      rewrite Hw. now apply IH.
    + cbn [wait_loop]. now apply IH.
Qed.

(** X11.  [wait_until_reached] returns exactly at the first package that shows
    every joint strictly within the tolerance of the target; it sleeps
    once for every poll before that one, sends nothing, and leaves the
    later packages unread. *)
Theorem wait_until_reached_spec (q_deg : list R) (tol : R) (w w' : world) :
  Forall (joints (length q_deg)) (inbox w) ->
  (wait_until_reached q_deg tol w = Ok tt w' <->
   exists skipped st,
     inbox w = skipped ++ Some st :: inbox w' /\
     Forall (pending q_deg tol) skipped /\
     reached q_deg tol st /\
     trace w' = trace w ++ repeat (Sleep 0.1) (length skipped) /\
     network w' = network w).
Proof.
  intros Hj. unfold wait_until_reached. split.
  - now apply wait_loop_ok.
  - intros [skipped [st [Hin [Hp [Hr [Htr Hnet]]]]]].
    rewrite Hin in Hj |- *. apply Forall_app in Hj. destruct Hj as [Hjs _].
    rewrite (wait_loop_complete q_deg tol skipped st (inbox w') (network w)
               (trace w) Hjs Hp Hr).
    destruct w' as [i n t]. cbn in Htr, Hnet |- *. now subst.
Qed.

Lemma wait_until_reached_spec_witness :
  let near := {| actual_q := [0]; actual_robot_voltage := 48;
                 actual_current := [0]; actual_qd := [0] |} in
  let far := {| actual_q := [1]; actual_robot_voltage := 48;
                actual_current := [0]; actual_qd := [0] |} in
  let w := {| inbox := [None; Some far; Some near; None];
              network := fun _ _ => Accepts; trace := [] |} in
  wait_until_reached [0] 0.5 w
  = Ok tt {| inbox := [None]; network := fun _ _ => Accepts;
             trace := [Sleep 0.1; Sleep 0.1] |}.
Proof.
  intros near far w.
  apply (wait_until_reached_spec [0] 0.5 w).
  - repeat constructor.
  - exists [None; Some far], near. cbn [inbox trace network app length repeat].
    pose proof PI_RGT_0 as Hpi.
    repeat split.
    + repeat constructor. unfold reached. cbn. intros H.
      inversion H as [|? ? ? ? Hlt _]; subst.
      unfold radians1 in Hlt. rewrite Rmult_0_l, Rminus_0_r in Hlt.
      rewrite Rabs_R1 in Hlt.
      assert (PI <= 4) by exact PI_4. nra.
    + unfold reached. cbn. repeat constructor.
      unfold radians1. rewrite Rmult_0_l, Rminus_0_r, Rabs_R0. nra.
Defined.

Lemma bind_ok {A B : Type} (m : io A) (f : A -> io B) (w w' : world) (b : B) :
  Robot.bind m f w = Ok b w' ->
  exists a w1, m w = Ok a w1 /\ f a w1 = Ok b w'.
Proof.
  unfold Robot.bind. destruct (m w) as [a w1 | e w1 | w1]; try discriminate.
  intros H. now exists a, w1.
Qed.

Lemma emit_ok (ev : event) (w w' : world) :
  emit ev w = Ok tt w' ->
  inbox w' = inbox w /\ network w' = network w /\ trace w' = trace w ++ [ev].
Proof. unfold emit. intros H. injection H as <-. now repeat split. Qed.

Lemma filter_sleeps (k : nat) : filter is_send (repeat (Sleep 0.1) k) = [].
Proof. induction k as [|k IH]; [reflexivity | exact IH]. Qed.

Lemma map_snd_combine {X Y : Type} (xs : list X) (ys : list Y) :
  length xs = length ys -> map snd (combine xs ys) = ys.
Proof.
  revert ys. induction xs as [|x xs IH]; intros [|y ys] H; try discriminate.
  - reflexivity.
  - cbn. f_equal. apply IH. now injection H.
Qed.

Lemma map_snd_enumerate {X : Type} (xs : list X) :
  map snd (enumerate xs) = xs.
Proof.
  unfold enumerate. apply map_snd_combine.
  now rewrite length_range, Nat2Z.id.
Qed.

Lemma columns_length (M : matrix) :
  Forall (fun c => length c = length M) (columns M).
Proof.
  unfold columns, column. apply Forall_forall. intros c Hc.
  apply in_map_iff in Hc. destruct Hc as [j [<- _]]. apply length_map.
Qed.

Section Loop.

Variables (robot_ip : string) (a v : R) (n : nat).

(** The body of the loop over the columns. *)
Let body : Z * list R -> io unit :=
  fun iq =>
    Robot.bind (emit (Show (Movement (fst iq + 1)))) (fun _ =>
    Robot.bind (send_movej robot_ip a v (snd iq)) (fun _ =>
    Robot.bind (wait_until_reached (snd iq) 0.5) (fun _ =>
    emit (Show MovementReached)))).

Let command (q_deg : list R) : event :=
  Send robot_ip URPORT
       {| target := radians q_deg; acceleration := a; velocity := v |}.

Lemma send_movej_ok (q_deg : list R) (w w' : world) :
  send_movej robot_ip a v q_deg w = Ok tt w' ->
  network w robot_ip URPORT = Accepts /\
  inbox w' = inbox w /\ network w' = network w /\
  trace w' = trace w ++ [command q_deg].
Proof.
  unfold send_movej.
  destruct (network w robot_ip URPORT) eqn:Hn; cbn; try discriminate.
  intros H. apply emit_ok in H. now repeat split.
Qed.

Lemma loop_ok (ics : list (Z * list R)) (w w' : world) :
  Forall (joints n) (inbox w) ->
  Forall (fun ic => length (snd ic) = n) ics ->
  Robot.for_each ics body w = Ok tt w' ->
  served 0.5 (map snd ics) (inbox w) (inbox w') /\
  filter is_send (trace w')
  = filter is_send (trace w) ++ map command (map snd ics) /\
  network w' = network w /\
  (exists mid, trace w' = trace w ++ mid) /\
  (ics <> [] -> network w robot_ip URPORT = Accepts).
Proof.
  intros Hj Hlen. revert w Hj.
  induction Hlen as [|[i q] ics Hq _ IH]; intros w Hj H.
  - cbn in H. injection H as <-. cbn [map]. rewrite app_nil_r.
    split; [constructor|]. split; [reflexivity|]. split; [reflexivity|].
    split; [exists []; now rewrite app_nil_r | congruence].
  - cbn [Robot.for_each] in H.
    apply bind_ok in H. destruct H as [[] [w4 [Hbody Hrest]]].
    unfold body in Hbody. cbn [fst snd] in Hbody, Hq.
    apply bind_ok in Hbody. destruct Hbody as [[] [w1 [H1 Hbody]]].
    apply bind_ok in Hbody. destruct Hbody as [[] [w2 [H2 Hbody]]].
    apply bind_ok in Hbody. destruct Hbody as [[] [w3 [H3 H4]]].
    apply emit_ok in H1. destruct H1 as [I1 [N1 T1]].
    apply send_movej_ok in H2. destruct H2 as [Hacc [I2 [N2 T2]]].
    apply emit_ok in H4. destruct H4 as [I4 [N4 T4]].
    assert (Hj2 : Forall (joints (length q)) (inbox w2))
      by (rewrite I2, I1, Hq; exact Hj).
    apply (wait_until_reached_spec q 0.5 w2 w3 Hj2) in H3.
    destruct H3 as [skipped [st [Hin [Hpend [Hr [T3 N3]]]]]].
    assert (Hj4 : Forall (joints n) (inbox w4)).
    { rewrite I4. rewrite <- Hq. rewrite Hin in Hj2.
      apply Forall_app in Hj2. destruct Hj2 as [_ Hj2].
      now inversion Hj2. }
    destruct (IH w4 Hj4 Hrest) as [Hserved [Hsend [Hnet [[mid Hmid] _]]]].
    cbn [map snd]. split; [|split; [|split; [|split]]].
    + rewrite <- I1, <- I2, Hin. rewrite I4 in Hserved.
      now apply served_next.
    + rewrite Hsend, T4, T3, T2, T1.
      rewrite !filter_app, filter_sleeps. cbn [filter is_send command].
      rewrite !app_nil_r, <- app_assoc. reflexivity.
    + now rewrite Hnet, N4, N3, N2, N1.
    + eexists. rewrite Hmid, T4, T3, T2, T1. rewrite <- !app_assoc.
      reflexivity.
    + intros _. now rewrite <- N1.
Qed.

Lemma loop_complete (ics : list (Z * list R)) (w : world)
    (after : list (option robot_state)) :
  network w robot_ip URPORT = Accepts ->
  Forall (joints n) (inbox w) ->
  Forall (fun ic => length (snd ic) = n) ics ->
  served 0.5 (map snd ics) (inbox w) after ->
  exists w',
    Robot.for_each ics body w = Ok tt w' /\
    inbox w' = after /\ network w' = network w.
Proof.
  intros Hacc Hj Hlen. revert w Hacc Hj.
  induction Hlen as [|[i q] ics Hq _ IH]; intros w Hacc Hj Hs.
  - cbn [map] in Hs. inversion Hs; subst. exists w. now repeat split.
  - cbn [map snd] in Hs, Hq.
    inversion Hs as [|? ? skipped st before ? Hpend Hr Hserved Heq1 Heq2];
      subst.
    rewrite <- Heq2 in Hj.
    pose proof Hj as Hj'. apply Forall_app in Hj'.
    destruct Hj' as [Hjs Hjb]. inversion Hjb as [|? ? _ Hjbefore]; subst.
    set (w4 := {| inbox := before; network := network w;
                  trace := ((trace w ++ [Show (Movement (i + 1))])
                            ++ [command q])
                           ++ repeat (Sleep 0.1) (length skipped)
                           ++ [Show MovementReached] |}).
    destruct (IH w4 Hacc Hjbefore Hserved) as [w' [Hrun [Hin Hnet]]].
    exists w'. split; [|split; [exact Hin | exact Hnet]].
    cbn [Robot.for_each]. unfold Robot.bind at 1. unfold body at 1.
    cbn [fst snd]. unfold Robot.bind at 1. cbn [emit].
    unfold Robot.bind at 1. unfold send_movej. cbn [network].
    rewrite Hacc. cbn [reach_error emit]. cbn [inbox network trace].
    unfold Robot.bind at 1. unfold wait_until_reached.
    cbn [inbox network trace]. rewrite <- Heq2.
    rewrite (wait_loop_complete q 0.5 skipped st before (network w) _
               Hjs Hpend Hr).
    cbn [emit inbox network trace]. rewrite <- app_assoc.
    exact Hrun.
Qed.

End Loop.

Lemma receive_ok (s : option robot_state) (w w' : world) :
  receive w = Ok s w' ->
  inbox w = s :: inbox w' /\ network w' = network w /\ trace w' = trace w.
Proof.
  unfold receive. destruct (inbox w) as [|s0 rest]; [discriminate|].
  intros H. injection H as <- <-. now repeat split.
Qed.

Lemma Forall_snd_enumerate {X : Type} (P : X -> Prop) (xs : list X) :
  Forall P xs -> Forall (fun ix => P (snd ix)) (enumerate xs).
Proof.
  intros H. rewrite <- (map_snd_enumerate xs) in H.
  rewrite Forall_map in H. exact H.
Qed.

(** X12.  A run of [execute_trajectory_without_logging] that returns has read
    one first package and then, for each column of the trajectory in
    order, polled until a package showed that column reached within 0.5
    degrees; it sent exactly one [movej] per column, in column order,
    with the column converted to radians and the given acceleration and
    velocity; and it ended by pausing and closing the connection it
    opened. *)
Theorem execution_follows_trajectory (trajectory_deg : matrix) (a v : R)
    (robot_ip : string) (w w' : world) :
  Forall (joints (length trajectory_deg)) (inbox w) ->
  execute_trajectory_without_logging trajectory_deg a v robot_ip w
  = Ok tt w' ->
  exists first packages,
    inbox w = first :: packages /\
    served 0.5 (columns trajectory_deg) packages (inbox w') /\
    filter is_send (trace w')
    = filter is_send (trace w)
      ++ map (fun q_deg =>
                Send robot_ip URPORT
                     {| target := radians q_deg; acceleration := a;
                        velocity := v |})
             (columns trajectory_deg) /\
    exists mid,
      trace w' = trace w ++ Connect robot_ip RTDE_PORT :: mid
                         ++ [Pause; Disconnect].
Proof.
  intros Hj H. unfold execute_trajectory_without_logging in H.
  apply bind_ok in H. destruct H as [[] [w1 [H1 H]]].
  apply bind_ok in H. destruct H as [[] [w2 [H2 H]]].
  apply bind_ok in H. destruct H as [[] [w3 [H3 H]]].
  apply bind_ok in H. destruct H as [[] [w4 [H4 H]]].
  apply bind_ok in H. destruct H as [state [w5 [H5 H]]].
  apply bind_ok in H. destruct H as [[] [w6 [H6 H]]].
  apply bind_ok in H. destruct H as [[] [w7 [H7 H]]].
  apply bind_ok in H. destruct H as [[] [w8 [H8 H9]]].
  apply emit_ok in H1, H2, H3, H4, H8, H9.
  destruct H1 as [I1 [N1 T1]]. destruct H2 as [I2 [N2 T2]].
  destruct H3 as [I3 [N3 T3]]. destruct H4 as [I4 [N4 T4]].
  destruct H8 as [I8 [N8 T8]]. destruct H9 as [I9 [N9 T9]].
  apply receive_ok in H5. destruct H5 as [I5 [N5 T5]].
  assert (H6' : inbox w6 = inbox w5 /\
                exists shown, trace w6 = trace w5 ++ shown /\
                              filter is_send shown = []).
  { destruct state as [st|].
    - apply emit_ok in H6. destruct H6 as [I6 [_ T6]].
      split; [exact I6|]. eexists. split; [exact T6 | reflexivity].
    - injection H6 as <-. split; [reflexivity|]. exists [].
      now rewrite app_nil_r. }
  destruct H6' as [I6 [shown [T6 F6]]].
  assert (Hj6 : Forall (joints (length trajectory_deg)) (inbox w6)).
  { rewrite I6. rewrite <- I1, <- I2, <- I3, <- I4, I5 in Hj.
    now inversion Hj. }
  destruct (loop_ok robot_ip a v (length trajectory_deg) _ w6 w7 Hj6
              (Forall_snd_enumerate _ _ (columns_length trajectory_deg)) H7)
    as [Hserved [Hsend [_ [[mid Hmid] _]]]].
  rewrite map_snd_enumerate in Hserved, Hsend.
  exists state, (inbox w5). split; [|split; [|split]].
  - now rewrite <- I1, <- I2, <- I3, <- I4.
  - rewrite I9, I8. rewrite I6 in Hserved. exact Hserved.
  - rewrite T9, T8, !filter_app, Hsend, T6, T5, T4, T3, T2, T1.
    rewrite !filter_app, F6. cbn [filter is_send]. now rewrite !app_nil_r.
  - exists ([GetControllerVersion; OutputSetup ["actual_q"%string] 50; Start]
            ++ shown ++ mid).
    rewrite T9, T8, Hmid, T6, T5, T4, T3, T2, T1.
    rewrite <- !app_assoc. reflexivity.
Qed.

(** The whole run returns if its loop does. *)
Lemma run_from_loop (trajectory_deg : matrix) (a v : R) (robot_ip : string)
    (w : world) (first : option robot_state)
    (packages after : list (option robot_state)) :
  inbox w = first :: packages ->
  (forall tr,
      exists w7,
        Robot.for_each (enumerate (columns trajectory_deg))
          (fun iq =>
             Robot.bind (emit (Show (Movement (fst iq + 1)))) (fun _ =>
             Robot.bind (send_movej robot_ip a v (snd iq)) (fun _ =>
             Robot.bind (wait_until_reached (snd iq) 0.5) (fun _ =>
             emit (Show MovementReached)))))
          {| inbox := packages; network := network w; trace := tr |}
        = Ok tt w7 /\ inbox w7 = after) ->
  exists w',
    execute_trajectory_without_logging trajectory_deg a v robot_ip w
    = Ok tt w' /\
    inbox w' = after.
Proof.
  intros Hin Hloop.
  unfold execute_trajectory_without_logging.
  unfold Robot.bind at 1. cbn [emit]. unfold Robot.bind at 1. cbn [emit].
  unfold Robot.bind at 1. cbn [emit]. unfold Robot.bind at 1. cbn [emit].
  unfold Robot.bind at 1. unfold receive. cbn [inbox network trace].
  rewrite Hin.
  set (tr := (((trace w ++ [Connect robot_ip RTDE_PORT])
               ++ [GetControllerVersion])
              ++ [OutputSetup ["actual_q"%string] 50]) ++ [Start]).
  destruct first as [st|].
  - unfold Robot.bind at 1. cbn [emit inbox network trace].
    destruct (Hloop (tr ++ [Show (InitialPosition (map rad2deg1 (actual_q st)))]))
      as [w7 [Hrun Hafter]].
    unfold Robot.bind at 1. rewrite Hrun.
    unfold Robot.bind, emit. cbn [inbox network trace].
    eexists. split; [reflexivity | exact Hafter].
  - unfold Robot.bind at 1. unfold Robot.ret.
    destruct (Hloop tr) as [w7 [Hrun Hafter]].
    unfold Robot.bind at 1. rewrite Hrun.
    unfold Robot.bind, emit. cbn [inbox network trace].
    eexists. split; [reflexivity | exact Hafter].
Qed.

(** X13.  If the robot can be reached and the packages serve every column of
    the trajectory in order, the run returns, having read exactly those
    packages. *)
Theorem execution_completes (trajectory_deg : matrix) (a v : R)
    (robot_ip : string) (w : world) (first : option robot_state)
    (packages after : list (option robot_state)) :
  network w robot_ip URPORT = Accepts ->
  Forall (joints (length trajectory_deg)) (inbox w) ->
  inbox w = first :: packages ->
  served 0.5 (columns trajectory_deg) packages after ->
  exists w',
    execute_trajectory_without_logging trajectory_deg a v robot_ip w
    = Ok tt w' /\
    inbox w' = after.
Proof.
  intros Hacc Hj Hin Hs.
  apply (run_from_loop trajectory_deg a v robot_ip w first packages after Hin).
  intros tr.
  rewrite Hin in Hj. inversion Hj as [|? ? _ Hjp]; subst.
  destruct (loop_complete robot_ip a v (length trajectory_deg)
              (enumerate (columns trajectory_deg))
              {| inbox := packages; network := network w; trace := tr |}
              after Hacc Hjp
              (Forall_snd_enumerate _ _ (columns_length trajectory_deg)))
    as [w7 [Hrun [Hafter _]]].
  - now rewrite map_snd_enumerate.
  - now exists w7.
Qed.

(** ** A robot that rests at the zero pose *)

Lemma at_zero_reached : reached [0; 0; 0; 0; 0; 0] 0.5 at_zero.
Proof.
  unfold reached, at_zero. cbn. pose proof PI_RGT_0 as Hpi.
  repeat constructor;
    unfold radians1; rewrite Rmult_0_l, Rminus_0_r, Rabs_R0; nra.
Qed.

Lemma at_zero_served :
  served 0.5 (columns stay_at_zero) [None; Some at_zero] [].
Proof.
  change (columns stay_at_zero) with [[0; 0; 0; 0; 0; 0]].
  apply (served_next 0.5 [0; 0; 0; 0; 0; 0] [] [None] at_zero [] []).
  - repeat constructor.
  - exact at_zero_reached.
  - constructor.
Qed.

Lemma stay_at_zero_run :
  exists w',
    execute_trajectory_without_logging stay_at_zero 1 1 default_robot_ip
      (resting [Some at_zero; None; Some at_zero])
    = Ok tt w' /\
    inbox w' = [].
Proof.
  apply (run_from_loop stay_at_zero 1 1 default_robot_ip
           (resting [Some at_zero; None; Some at_zero])
           (Some at_zero) [None; Some at_zero] [] eq_refl).
  intros tr.
  destruct (loop_complete default_robot_ip 1 1 (length stay_at_zero)
              (enumerate (columns stay_at_zero))
              {| inbox := [None; Some at_zero];
                 network := fun _ _ => Accepts; trace := tr |}
              [] eq_refl ltac:(repeat constructor)
              (Forall_snd_enumerate _ _ (columns_length stay_at_zero)))
    as [w7 [Hrun [Hafter _]]].
  - rewrite map_snd_enumerate. exact at_zero_served.
  - now exists w7.
Qed.

Lemma execution_completes_witness :
  exists w',
    execute_trajectory_without_logging stay_at_zero 1 1 default_robot_ip
      (resting [Some at_zero; None; Some at_zero])
    = Ok tt w' /\
    inbox w' = [].
Proof.
  apply (execution_completes stay_at_zero 1 1 default_robot_ip
           (resting [Some at_zero; None; Some at_zero])
           (Some at_zero) [None; Some at_zero] []).
  - reflexivity.
  - repeat constructor.
  - reflexivity.
  - exact at_zero_served.
Defined.

Lemma execution_follows_trajectory_witness :
  exists w',
    execute_trajectory_without_logging stay_at_zero 1 1 default_robot_ip
      (resting [Some at_zero; None; Some at_zero])
    = Ok tt w' /\
    filter is_send (trace w')
    = [Send default_robot_ip URPORT
            {| target := radians [0; 0; 0; 0; 0; 0]; acceleration := 1;
               velocity := 1 |}].
Proof.
  assert (Hj : Forall (joints (length stay_at_zero))
                      (inbox (resting [Some at_zero; None; Some at_zero])))
    by (repeat constructor).
  destruct stay_at_zero_run as [w' [Hrun _]].
  exists w'. split; [exact Hrun|].
  destruct (execution_follows_trajectory stay_at_zero 1 1 default_robot_ip
              _ w' Hj Hrun)
    as [first [packages [_ [_ [Hsend _]]]]].
  exact Hsend.
Defined.

(** ** Reading the position *)

(** X14.  [get_actual_q] on a package: in degrees it returns the package's
    joint angles converted to degrees, as an array; in radians the
    package's own list; both pause and close the connection.  With any
    other unit it raises [ValueError] and the connection is left open.
    With no package it raises [UnboundLocalError], whatever the unit,
    after closing the connection. *)
Theorem get_actual_q_outcomes (units robot_ip : string) (w : world)
    (s : option robot_state) (rest : list (option robot_state)) :
  inbox w = s :: rest ->
  let opened :=
    trace w ++ [Connect robot_ip RTDE_PORT; GetControllerVersion;
                OutputSetup ["actual_q"%string] 50; Start] in
  let after tr := {| inbox := rest; network := network w; trace := tr |} in
  match s with
  | Some st =>
      (units = "deg"%string ->
       get_actual_q units robot_ip w
       = Ok (NdArray (map rad2deg1 (actual_q st)))
            (after (opened
                    ++ [Show (CurrentPositionDeg (map rad2deg1 (actual_q st)));
                        Pause; Disconnect]))) /\
      (units = "rad"%string ->
       get_actual_q units robot_ip w
       = Ok (PyList (actual_q st))
            (after (opened ++ [Show (CurrentPositionRad (actual_q st));
                               Pause; Disconnect]))) /\
      (units <> "deg"%string -> units <> "rad"%string ->
       get_actual_q units robot_ip w = Raises invalid_units (after opened))
  | None =>
      get_actual_q units robot_ip w
      = Raises unbound_current_position
               (after (opened ++ [Pause; Disconnect]))
  end.
Proof.
  intros Hin opened after.
  unfold get_actual_q, Robot.bind, emit, receive. cbn [inbox network trace].
  rewrite Hin. unfold opened, after. destruct s as [st|].
  - split; [|split].
    + intros ->. cbn. rewrite <- !app_assoc. reflexivity.
    + intros ->. cbn. rewrite <- !app_assoc. reflexivity.
    + intros Hd Hr. apply String.eqb_neq in Hd, Hr. rewrite Hd, Hr.
      cbn. rewrite <- !app_assoc. reflexivity.
  - cbn. rewrite <- !app_assoc. reflexivity.
Qed.

Lemma get_actual_q_outcomes_witness :
  get_actual_q "deg" default_robot_ip (resting [Some at_zero])
  = Ok (NdArray (map rad2deg1 (actual_q at_zero)))
       {| inbox := []; network := fun _ _ => Accepts;
          trace := [Connect default_robot_ip RTDE_PORT; GetControllerVersion;
                    OutputSetup ["actual_q"%string] 50; Start;
                    Show (CurrentPositionDeg (map rad2deg1 (actual_q at_zero)));
                    Pause; Disconnect] |}.
Proof.
  exact (proj1 (get_actual_q_outcomes "deg" default_robot_ip
                  (resting [Some at_zero]) (Some at_zero) [] eq_refl)
               eq_refl).
Defined.

End Execution.

(* ================================================================== *)
(** * The handlers of the main window *)
(* ================================================================== *)

Section HomeButton.
Import Casadi Robot Executer ExecSpec Gui.

(** Comparing an array of six joints with the home pose cannot be used
    as the test of an [if]. *)
Lemma differs_six (values : list R) (w : world) :
  length values = 6%nat ->
  differs (NdArray values) q_home w = Raises ambiguous_truth w.
Proof.
  intros H.
  destruct values as [|x0 [|x1 [|x2 [|x3 [|x4 [|x5 [|x6 values]]]]]]];
    try discriminate.
  reflexivity.
Qed.

Lemma check_connection_cases (robot_ip : string) (w : world) :
  check_connection robot_ip w
  = match network w robot_ip 30002 with
    | Accepts => Ok true {| inbox := inbox w; network := network w;
                            trace := trace w ++ [Probe robot_ip 30002] |}
    | TimesOut => Ok false w
    | Refuses => Ok false w
    | Fails e => Raises e w
    end.
Proof.
  unfold check_connection. now destruct (network w robot_ip 30002).
Qed.

(** X15.  [move_home] never commands a motion when the robot reports six
    joints: the comparison of the measured pose with the home pose is an
    array of six booleans, whose truth value is ambiguous, so once the
    robot has been reached and has answered the handler raises
    [ValueError]; in every other case it stops earlier.  No [movej] is
    sent in any case. *)
Theorem move_home_never_moves (acceleration velocity : Z) (w : world) :
  match inbox w with
  | Some st :: _ => length (actual_q st) = 6%nat
  | _ => True
  end ->
  filter is_send (trace_of (move_home acceleration velocity w))
  = filter is_send (trace w) /\
  (forall st rest,
      network w default_check_ip 30002 = Accepts ->
      inbox w = Some st :: rest ->
      exists w', move_home acceleration velocity w
                 = Raises ambiguous_truth w').
Proof.
  intros Hsix.
  remember (move_home acceleration velocity w) as r eqn:Hr.
  unfold move_home in Hr. unfold Robot.bind at 1 in Hr.
  rewrite check_connection_cases in Hr.
  destruct (network w default_check_ip 30002) eqn:Hnet.
  - (* the probe is accepted *)
    cbn [Bool.eqb] in Hr. unfold Robot.bind at 1 in Hr.
    destruct (inbox w) as [|[st|] rest] eqn:Hin.
    + (* no package at all *)
      unfold get_actual_q, Robot.bind, emit, receive in Hr.
      cbn [inbox network trace] in Hr. subst r.
      split; [|intros ? ? _ H; discriminate H].
      cbn [trace_of trace]. rewrite !filter_app. cbn.
      now rewrite !app_nil_r.
    + (* a package of six joints *)
      unfold get_actual_q in Hr. unfold Robot.bind, emit, receive in Hr.
      cbn [inbox network trace String.eqb Ascii.eqb Bool.eqb Robot.ret] in Hr.
      rewrite differs_six in Hr by (now rewrite length_map). subst r.
      split.
      * cbn [trace_of trace]. rewrite !filter_app. cbn.
        now rewrite !app_nil_r.
      * intros st' rest' _ _. eexists. reflexivity.
    + (* a missing package *)
      unfold get_actual_q, Robot.bind, emit, receive in Hr.
      cbn [inbox network trace Robot.ret Robot.raise] in Hr. subst r.
      split; [|intros ? ? _ H; discriminate H].
      cbn [trace_of trace]. rewrite !filter_app. cbn.
      now rewrite !app_nil_r.
  - cbn [Bool.eqb] in Hr. subst r.
    split; [|intros ? ? H; discriminate H].
    cbn. rewrite filter_app. cbn. now rewrite app_nil_r.
  - cbn [Bool.eqb] in Hr. subst r.
    split; [|intros ? ? H; discriminate H].
    cbn. rewrite filter_app. cbn. now rewrite app_nil_r.
  - subst r. split; [|intros ? ? H; discriminate H]. reflexivity.
Qed.

Lemma move_home_never_moves_witness :
  filter is_send (trace_of (move_home 50 50 (resting [Some at_zero]))) = [] /\
  exists w', move_home 50 50 (resting [Some at_zero])
             = Raises ambiguous_truth w'.
Proof.
  destruct (move_home_never_moves 50 50 (resting [Some at_zero]) eq_refl)
    as [Hsend Hraise].
  split; [exact Hsend|].
  exact (Hraise at_zero [] eq_refl eq_refl).
Defined.

End HomeButton.

Section WaypointButton.
Import Casadi Planner NLP Gui.

Variable float_of_text : string -> option R.

Lemma collect_inl {X : Type} (xs : list (X + py_exception)) (ys : list X) :
  collect xs = inl ys -> xs = map inl ys.
Proof.
  revert ys. induction xs as [|[x | e] xs IH]; intros ys H; cbn in H.
  - now injection H as <-.
  - destruct (collect xs) as [zs | e]; [|discriminate].
    injection H as <-. cbn. now rewrite (IH zs eq_refl).
  - discriminate.
Qed.

Lemma collect_length {X : Type} (xs : list (X + py_exception)) (ys : list X) :
  collect xs = inl ys -> length ys = length xs.
Proof.
  intros H. apply collect_inl in H. subst. now rewrite length_map.
Qed.

(** What the table reader returns when it returns: one waypoint per row,
    six numbers each, the number of a cell being that of its text, or
    zero for a cell without an item. *)
Lemma read_waypoints_shape (t : table) (waypoints : list (list R)) :
  read_waypoints float_of_text t = inl waypoints ->
  length waypoints = rowCount t /\
  Forall (fun wp => length wp = 6%nat) waypoints /\
  forall row col,
    (row < rowCount t)%nat -> (col < 6)%nat ->
    read_cell float_of_text t row col
    = inl (nth col (nth row waypoints []) 0).
Proof.
  unfold read_waypoints. intros H.
  pose proof (collect_length _ _ H) as Hlen.
  rewrite length_map, length_seq in Hlen.
  apply collect_inl in H.
  assert (Hrow : forall row, (row < rowCount t)%nat ->
             collect (map (read_cell float_of_text t row) (seq 0 6))
             = inl (nth row waypoints [])).
  { intros row Hr.
    apply (f_equal (fun l => nth row l (inl []))) in H.
    rewrite (nth_map_seq _ (inl []) (rowCount t) row Hr) in H.
    rewrite H.
    change (inl []) with (@inl (list R) py_exception []).
    rewrite (map_nth (@inl (list R) py_exception) waypoints [] row).
    reflexivity. }
  split; [exact Hlen|]. split.
  - apply Forall_forall. intros wp Hwp.
    destruct (In_nth _ _ [] Hwp) as [row [Hr <-]]. rewrite Hlen in Hr.
    pose proof (collect_length _ _ (Hrow row Hr)) as Hl.
    now rewrite length_map, length_seq in Hl.
  - intros row col Hr Hc.
    pose proof (collect_inl _ _ (Hrow row Hr)) as Hcells.
    apply (f_equal (fun l => nth col l (inl 0))) in Hcells.
    rewrite (nth_map_seq _ (inl 0) 6 col Hc) in Hcells.
    rewrite Hcells.
    change (inl 0) with (@inl R py_exception 0).
    now rewrite (map_nth (@inl R py_exception) (nth row waypoints []) 0 col).
Qed.

(** X16.  With fewer than two rows in the waypoint table the planner is not
    called: the solver is never invoked, no trajectory is shown and the
    screen does not change; if every cell reads as a number, the warning
    "Add at least two waypoints." is printed and shown. *)
Theorem too_few_waypoints_are_refused (backend : Opti -> solver_reply)
    (t : table) :
  (rowCount t < 2)%nat ->
  let h := send_data_foward float_of_text backend t in
  solves h = 0%nat /\
  (forall M, ~ In (ShowTrajectory M) (events h)) /\
  (forall i, ~ In (SetCurrentIndex i) (events h)) /\
  (escaped h = None ->
   events h = [Printed "Add at least two waypoints.";
               WarningBox "Warning" "Add at least two waypoints."]).
Proof.
  intros Hrows h. unfold h, send_data_foward.
  destruct (read_waypoints float_of_text t) as [waypoints | e] eqn:Hread.
  - destruct (read_waypoints_shape t waypoints Hread) as [Hlen _].
    assert (Hlt : (length waypoints <? 2)%nat = true)
      by (apply Nat.ltb_lt; lia).
    rewrite Hlt. cbn [solves events escaped].
    repeat split.
    + intros M [H | [H | []]]; discriminate H.
    + intros i [H | [H | []]]; discriminate H.
  - cbn [solves events escaped].
    repeat split; try (intros ? []). intros H. discriminate H.
Qed.


End WaypointButton.

Section WaypointButtonExamples.
Import Casadi Planner NLP Gui.

Lemma too_few_waypoints_are_refused_witness :
  let h := send_data_foward (fun _ => Some 0)
             (fun _ => Solution zero_valuation)
             {| rowCount := 1; item := fun _ _ => None |} in
  solves h = 0%nat /\
  events h = [Printed "Add at least two waypoints.";
              WarningBox "Warning" "Add at least two waypoints."].
Proof.
  intros h.
  destruct (too_few_waypoints_are_refused (fun _ => Some 0)
              (fun _ => Solution zero_valuation)
              {| rowCount := 1; item := fun _ _ => None |})
    as [Hsolves [_ [_ Hevents]]].
  - cbn. lia.
  - split; [exact Hsolves | exact (Hevents eq_refl)].
Defined.


End WaypointButtonExamples.

(* ================================================================== *)
(** * The assembled problem on the request of two zero poses *)
(* ================================================================== *)

Section ZeroPoseRequest.
Import Casadi Planner NLP Geometry.

Lemma zero_request_feasible :
  feasible 0
    (fst (fst (setup_optimization (map radians [zeros6; zeros6]) 3
                 (repeat (- PI, PI) 6) [fixed_box] 0.05)))
    zero_valuation.
Proof.
  assert (Hsub : submitted (optimize_from_waypoints_deg [zeros6; zeros6])
                 = Some (opti_solver
                           (fst (fst (setup_optimization
                                        (map radians [zeros6; zeros6]) 3
                                        (repeat (- PI, PI) 6) [fixed_box]
                                        0.05))) "ipopt")).
  { rewrite optimize_from_waypoints_deg_unfold.
    apply submitted_solve_and_print. }
  exact (zero_valuation_feasible _ Hsub).
Qed.

Lemma limits_are_enforced_witness :
  fst (nth 2 (repeat (- PI, PI) 6) (0, 0)) - 0
  <= zero_valuation 2%nat 1%nat
  <= snd (nth 2 (repeat (- PI, PI) 6) (0, 0)) + 0.
Proof.
  apply (limits_are_enforced (map radians [zeros6; zeros6]) 3
           (repeat (- PI, PI) 6) [fixed_box] 0.05 0 zero_valuation
           2%nat 1%nat).
  - exact zero_request_feasible.
  - lia.
  - cbn. lia.
Defined.

Lemma endpoints_are_pinned_witness :
  let q := {| mx_rows := 6; mx_cols := 4 |} in
  let opti := fst (fst (setup_optimization [zeros6; sixth_joint_one] 3
                          (repeat (- PI, PI) 6) [fixed_box] 0.05)) in
  In (pin_constraint q 0%Z zeros6) (constraints opti) /\
  In (pin_constraint q 3%Z sixth_joint_one) (constraints opti).
Proof.
  intros q opti.
  destruct (endpoints_are_pinned [zeros6; sixth_joint_one] 3
              (repeat (- PI, PI) 6) [fixed_box] 0.05
              zeros6 [sixth_joint_one] eq_refl) as [Hfirst [Hlast _]].
  split; [exact Hfirst | exact Hlast].
Defined.

Lemma waypoint_inside_box_is_infeasible_witness :
  ~ feasible 0
      (fst (fst (setup_optimization [zeros6; zeros6] 3
                   (repeat (- PI, PI) 6) [(-2, 0, -1, 0, 0, 1)] 0.05)))
      zero_valuation.
Proof.
  apply (waypoint_inside_box_is_infeasible [zeros6; zeros6] 3
           (repeat (- PI, PI) 6) [(-2, 0, -1, 0, 0, 1)] 0.05 1%nat zeros6
           (-2, 0, -1, 0, 0, 1) zero_valuation).
  - reflexivity.
  - lia.
  - now left.
  - lra.
  - rewrite forward_kinematics_zeros. cbn. lra.
Defined.

Lemma waypoint_beyond_half_turn_is_infeasible_witness :
  ~ feasible 0
      (opti_solver
         (fst (fst (setup_optimization
                      (map radians [zeros6; [181; 0; 0; 0; 0; 0]]) 3
                      (repeat (- PI, PI) 6) [fixed_box] 0.05))) "ipopt")
      zero_valuation.
Proof.
  apply (waypoint_beyond_half_turn_is_infeasible
           [zeros6; [181; 0; 0; 0; 0; 0]] 1%nat 0%nat
           [181; 0; 0; 0; 0; 0]).
  - reflexivity.
  - lia.
  - right. cbn. lra.
  - rewrite optimize_from_waypoints_deg_unfold.
    apply submitted_solve_and_print.
Defined.

End ZeroPoseRequest.

(* ================================================================== *)
(** * A request that moves the sixth joint alone *)
(* ================================================================== *)

Section SixthJointRequest.
Import Casadi Planner NLP Geometry.

(** A column of the value of a six-row variable, entry by entry. *)
Lemma col_at_value_of_six (v : valuation) (n k : Z) :
  (0 <= k < n)%Z ->
  col_at k (value_of v {| mx_rows := 6; mx_cols := n |})
  = map (fun j => v j (Z.to_nat k)) (seq 0 6).
Proof.
  intros Hk. unfold col_at, py_index.
  destruct (Z.ltb_spec k 0) as [Hneg | _]; [lia|].
  unfold column, value_of. cbn [mx_rows mx_cols]. rewrite map_map.
  apply map_ext. intros j. apply (nth_map_seq (fun c => v j c)). lia.
Qed.

(** A property of every entry of the valuation holds of every entry of a
    row of the variable's value. *)
Lemma row_at_value_of_entries (P : R -> Prop) (v : valuation) (q : MXvar)
    (j : nat) :
  (forall k, (k < Z.to_nat (mx_cols q))%nat -> P (v j k)) ->
  Forall P (row_at j (value_of v q)).
Proof.
  intros HP. unfold row_at, value_of.
  destruct (Nat.lt_ge_cases j (mx_rows q)) as [Hj | Hj].
  - rewrite (nth_map_seq _ [] (mx_rows q) j Hj).
    apply Forall_forall. intros x Hx. apply in_map_iff in Hx.
    destruct Hx as [k [<- Hk]]. apply in_seq in Hk. apply HP. lia.
  - rewrite nth_overflow by now rewrite length_map, length_seq.
    constructor.
Qed.

(** With the first five joints at zero the tool point stays where the
    zero pose has it, whatever the sixth joint does. *)
Lemma forward_kinematics_sixth_joint (x : R) :
  forward_kinematics [0; 0; 0; 0; 0; x] = forward_kinematics zeros6.
Proof.
  unfold zeros6, forward_kinematics, fk_transform.
  cbn [fold_left seq nth fk_d fk_a fk_alpha].
  match goal with
  | |- slice_rows_of_col (mtimes (mtimes (mtimes ?A ?B) _) _) 0 3 3 = _ =>
      destruct (explicit_4x4 (mtimes A B)) as
        [a11 [a12 [a13 [a14 [a21 [a22 [a23 [a24
        [a31 [a32 [a33 [a34 [a41 [a42 [a43 [a44 HC]]]]]]]]]]]]]]]];
      [now rewrite !mtimes_nrows | exact (mtimes_row_length A B) |]
  end.
  rewrite HC, !last_link_and_offset. reflexivity.
Qed.

Lemma ramp_valuation_bounds (j k : nat) :
  (k < 4)%nat -> 0 <= ramp_valuation j k <= 1.
Proof.
  intros Hk. unfold ramp_valuation. destruct (Nat.eqb j 5); [|lra].
  pose proof (pos_INR k) as H0.
  assert (H3 : INR k <= INR 3) by (apply le_INR; lia).
  cbn [INR] in H3. lra.
Qed.

(** The ramp satisfies, exactly, every constraint assembled for the
    request with the limits, the box and the clearance of the
    orchestrator. *)
Lemma ramp_feasible :
  feasible 0
    (fst (fst (setup_optimization [zeros6; sixth_joint_one] 3
                 (repeat (- PI, PI) 6) [fixed_box] 0.05)))
    ramp_valuation.
Proof.
  rewrite setup_optimization_unfold. cbn [fst constraints]. unfold feasible.
  change (Spec.sample_count (length [zeros6; sixth_joint_one]) 3) with 4%Z.
  apply Forall_app. split; [|apply Forall_app; split].
  - apply Forall_forall. intros c Hc. apply in_map_iff in Hc.
    destruct Hc as [j [<- Hj]]. apply in_seq in Hj.
    cbn [holds limit_constraint].
    assert (Hlim : nth j (repeat (- PI, PI) 6) (0, 0) = (- PI, PI)).
    { destruct j as [|[|[|[|[|[|j]]]]]]; try reflexivity. lia. }
    rewrite Hlim. cbn [fst snd]. unfold sym.
    apply row_at_value_of_entries. cbn [mx_cols].
    change (Z.to_nat 4) with 4%nat. intros k Hk.
    pose proof (ramp_valuation_bounds j k Hk) as Hb.
    pose proof PI2_1 as Hpi. lra.
  - unfold enumerate, range. cbn [length]. rewrite Nat2Z.id.
    cbn [seq map combine].
    apply Forall_cons; [|apply Forall_cons; [|apply Forall_nil]];
      cbn [fst snd holds pin_constraint]; unfold sym;
      rewrite col_at_value_of_six by lia.
    + change (Z.to_nat (Z.of_nat 0 * 3)) with 0%nat.
      unfold zeros6, ramp_valuation. cbn [seq map Nat.eqb INR].
      repeat (apply Forall2_cons;
              [match goal with
               | |- Rabs ?e <= 0 =>
                   replace e with 0 by lra; rewrite Rabs_R0; lra
               end|]).
      apply Forall2_nil.
    + change (Z.to_nat (Z.of_nat 1 * 3)) with 3%nat.
      unfold sixth_joint_one, ramp_valuation. cbn [seq map Nat.eqb INR].
      repeat (apply Forall2_cons;
              [match goal with
               | |- Rabs ?e <= 0 =>
                   replace e with 0 by lra; rewrite Rabs_R0; lra
               end|]).
      apply Forall2_nil.
  - apply Forall_forall. intros c Hc. apply in_flat_map in Hc.
    destruct Hc as [k [Hk Hc]]. destruct Hc as [<- | []].
    apply in_range_bounds in Hk.
    cbn [holds clearance_constraint]. unfold sym.
    rewrite col_at_value_of_six by lia.
    unfold ramp_valuation. cbn [seq map Nat.eqb].
    rewrite forward_kinematics_sixth_joint.
    exact zero_pose_clear_of_fixed_box.
Qed.

Lemma waypoints_are_pinned_witness :
  let '(opti, q, N) :=
    setup_optimization [zeros6; sixth_joint_one] 3
                       (repeat (- PI, PI) 6) [fixed_box] 0.05 in
  exists M,
    outcome (run (fun _ => Solution ramp_valuation)
                 (solve_and_print_trajectory opti q N))
    = inl (Array2 M) /\
    Forall2 (fun x y => Rabs (x - y) <= 0 * (180 / PI))
            (col_at 3 M) (map rad2deg1 sixth_joint_one) /\
    Rabs (nth 3 (nth 5 M []) 0 - rad2deg1 1) <= 0 * (180 / PI).
Proof.
  pose proof (waypoints_are_pinned [zeros6; sixth_joint_one] 3
                (repeat (- PI, PI) 6) [fixed_box] 0.05
                1 sixth_joint_one eq_refl) as H.
  pose proof ramp_feasible as Hf.
  rewrite setup_optimization_unfold in H, Hf |- *.
  cbv zeta in H. cbn [fst] in Hf. destruct H as [_ [_ [_ H]]].
  destruct (H (fun _ => Solution ramp_valuation) 0 ramp_valuation)
    as [M [HM [Hcol Hentry]]].
  - simpl. lia.
  - lia.
  - reflexivity.
  - exact Hf.
  - exists M. split; [exact HM|]. split; [exact Hcol|].
    apply (Hentry 5%nat). lia.
Defined.

End SixthJointRequest.

(* ================================================================== *)
(** * A request of one waypoint *)
(* ================================================================== *)

Section SingleWaypoint.
Import Casadi Planner NLP.

(** X23.  A request of one six-component waypoint reaches the solver; when
    the solver answers with a solution, its value for the one-column
    variable is one-dimensional, so the header is printed, the first
    waypoint line raises [IndexError], and no trajectory is returned. *)
Theorem single_waypoint_raises_after_header (wp : list R)
    (backend : Opti -> solver_reply) (o : Opti) (v : valuation) :
  length wp = 6%nat ->
  submitted (optimize_from_waypoints_deg [wp]) = Some o ->
  backend o = Solution v ->
  run backend (optimize_from_waypoints_deg [wp])
  = ([Header " Optimized Joint Trajectory (Degrees):"], 1%nat,
     inr too_many_indices).
Proof.
  intros _ Hsub Hb. rewrite optimize_from_waypoints_deg_unfold in Hsub |- *.
  rewrite submitted_solve_and_print in Hsub.
  apply Some_eq_inv in Hsub. subst o.
  apply (solve_and_print_one_column backend _ _ _ v Hb).
  - cbn [mx_rows]. lia.
  - reflexivity.
  - unfold Spec.sample_count. cbn [length]. lia.
Qed.

Lemma single_waypoint_raises_after_header_witness :
  run (fun _ => Solution zero_valuation)
      (optimize_from_waypoints_deg [zeros6])
  = ([Header " Optimized Joint Trajectory (Degrees):"], 1%nat,
     inr too_many_indices).
Proof.
  apply (single_waypoint_raises_after_header zeros6
           (fun _ => Solution zero_valuation)
           (opti_solver
              (fst (fst (setup_optimization (map radians [zeros6]) 3
                           (repeat (- PI, PI) 6) [fixed_box] 0.05)))
              "ipopt")
           zero_valuation).
  - reflexivity.
  - rewrite optimize_from_waypoints_deg_unfold.
    apply submitted_solve_and_print.
  - reflexivity.
Defined.

End SingleWaypoint.
